(** * fillstruct: zero-value synthesis for struct literals

    A shallow embedding of [cmd/fillstruct/main.go] (reftools) and the
    properties of its synthesis engine: the recursive descent [zero] over a
    type, the renumbering pass [fixExprPos] over reused entries, the entry
    point [zeroValue], the two drivers [byOffset] and [byLine], and [main],
    which chooses between them. *)

From Stdlib Require Import ZArith List String Ascii DecimalString Sorted Lia.
From stdpp Require Import base option list strings gmap sorting.

Set Warnings "-register-all".

Local Open Scope Z_scope.

(** ** go/types: the type descriptors handed over by the type checker *)

Module types.

(** [*types.Package], [*types.Named] and [*types.Struct] are compared by
    pointer in the program; each is represented by its identity. *)
Definition Package := nat.
Definition NamedId := nat.
Definition StructId := nat.

Inductive BasicKind :=
| Invalid
| Bool | Int | Int8 | Int16 | Int32 | Int64
| Uint | Uint8 | Uint16 | Uint32 | Uint64 | Uintptr
| Float32 | Float64 | Complex64 | Complex128
| String | UnsafePointer
| UntypedBool | UntypedInt | UntypedRune | UntypedFloat
| UntypedComplex | UntypedString | UntypedNil.

(** [types.Type].  A named type and a struct type are references into the
    checker's object graph ([Universe] below), which is how a type can
    reach itself.  [Tuple] stands for the kinds the switch of [zero] has no
    case for. *)
Inductive Type_ :=
| Basic (k : BasicKind)
| Chan (elem : Type_)
| Interface
| Map (key elem : Type_)
| Signature
| Slice (elem : Type_)
| Array (elem : Type_) (len : nat)
| Named (n : NamedId)
| Pointer (elem : Type_)
| Struct (s : StructId)
| Tuple.

(** [*types.Var], a struct field. *)
Record Var := mkVar { Name : string; Exported : bool; VarType : Type_ }.

(** The object graph: what [Underlying], [Obj().Pkg()], [NumFields] and
    [Field] answer.  [NamedPkg] is [None] for the nil package of universe
    types such as [error]. *)
Record Universe := mkUniverse {
  NamedUnderlying : NamedId -> Type_;
  NamedPkg : NamedId -> option Package;
  StructFields : StructId -> list Var
}.

Definition Underlying (u : Universe) (t : Type_) : Type_ :=
  match t with
  | Named n => NamedUnderlying u n
  | _ => t
  end.

Definition isStruct (t : Type_) : bool :=
  match t with Struct _ => true | _ => false end.

End types.

(** ** go/ast and go/token: expressions and their position markers *)

Module ast.

(** [token.Pos] is a Go [int].  The synthetic counter starts at 1 and moves
    by one per emitted entry, so it stays far from the 64-bit range on any
    input that fits in memory; it is kept as an unbounded integer. *)
Definition Pos := Z.
Definition NoPos : Pos := 0.

(** [token.Token], an [int] enumeration. *)
Definition Token := nat.
Definition ILLEGAL : Token := 0%nat.
Definition INT : Token := 5%nat.
Definition STRING : Token := 9%nat.
Definition ADD : Token := 12%nat.

(** [ast.Expr].  [Nil] is the nil interface value.  A function literal keeps
    its signature and body as text, together with their position markers in
    the order of the tokens ([Inside]): the tool only touches the position of
    its [func] keyword ([Type.Func]).  The [Ellipsis] position of a call is
    [NoPos] unless the call is variadic.  [TypeAssertExpr], [ArrayType] and
    [MapType] are kinds [fixExprPos] has no case for (as are the struct,
    function, interface and channel type expressions, bad expressions and
    index lists, left out here). *)
Inductive Expr :=
| Nil
| BasicLit (ValuePos : Pos) (Kind : Token) (Value : string)
| BinaryExpr (X : Expr) (OpPos : Pos) (Op : Token) (Y : Expr)
| CallExpr (Fun : Expr) (Lparen : Pos) (Args : list Expr) (EllipsisPos : Pos)
    (Rparen : Pos)
| CompositeLit (Typ : Expr) (Lbrace : Pos) (Elts : list Expr) (Rbrace : Pos)
| Ellipsis (EllipsisPos : Pos) (Elt : Expr)
| FuncLit (Func : Pos) (Inside : list Pos) (Source : string)
| Ident (NamePos : Pos) (Name : string)
| IndexExpr (X : Expr) (Lbrack : Pos) (Index : Expr) (Rbrack : Pos)
| KeyValueExpr (Key : Expr) (Colon : Pos) (Value : Expr)
| ParenExpr (Lparen : Pos) (X : Expr) (Rparen : Pos)
| SelectorExpr (X : Expr) (SelPos : Pos) (SelName : string)
| SliceExpr (X : Expr) (Lbrack : Pos) (Low High Max : Expr) (Rbrack : Pos)
| StarExpr (Star : Pos) (X : Expr)
| TypeAssertExpr (X : Expr) (Lparen : Pos) (Typ : Expr) (Rparen : Pos)
| UnaryExpr (OpPos : Pos) (Op : Token) (X : Expr)
| ArrayType (Lbrack : Pos) (Len : Expr) (Elt : Expr)
| MapType (MapPos : Pos) (Key : Expr) (Value : Expr).

Definition NewIdent (name : string) : Expr := Ident NoPos name.

Definition isNil (e : Expr) : bool :=
  match e with Nil => true | _ => false end.

End ast.

Import types ast.

(** ** Outcomes of a run *)

Inductive error :=
| errNotFound
| errOther (msg : string).

Inductive panic :=
| TypeAssertion
| UnexpectedType
| IndexOutOfRange.

(** A call returns, returns an error, panics, or (in the model only) runs out
    of recursion depth. *)
Inductive result (A : Type) :=
| Done (a : A)
| Fail (e : error)
| Panic (p : panic)
| OutOfFuel.

Arguments Done {A} a.
Arguments Fail {A} e.
Arguments Panic {A} p.
Arguments OutOfFuel {A}.

#[global] Instance result_ret : MRet result := fun A a => Done a.
#[global] Instance result_bind : MBind result := fun A B k m =>
  match m with
  | Done a => k a
  | Fail e => Fail e
  | Panic p => Panic p
  | OutOfFuel => OutOfFuel
  end.

(** ** The synthesis context *)

Record litInfo := mkLitInfo {
  typ : Type_;
  name : option NamedId;
  hideType : bool;
  isPointer : bool
}.

(** [existing] holds, under its name, each node of the user as it was
    parsed: which node stands under which name never changes after
    [zeroValue] has filled the map.  The nodes themselves are updated in
    place by the field loop, which keeps the updated ones (see [zeroField]). *)
Record filler := mkFiller {
  pkg : Package;
  pos : Pos;
  lines : Z;
  existing : gmap string Expr;
  first : bool
}.

Definition setPos (p : Pos) (f : filler) : filler :=
  mkFiller (pkg f) p (lines f) (existing f) (first f).
Definition addLines (n : Z) (f : filler) : filler :=
  mkFiller (pkg f) (pos f) (lines f + n) (existing f) (first f).
Definition setFirst (b : bool) (f : filler) : filler :=
  mkFiller (pkg f) (pos f) (lines f) (existing f) b.
Definition incPos (f : filler) : filler := setPos (pos f + 1) f.
Definition decPos (f : filler) : filler := setPos (pos f - 1) f.

(** [kv, ok := m[key]]: the zero value and [false] when the key is absent. *)
Definition lookup_ok (m : gmap string Expr) (key : string) : Expr * bool :=
  match m !! key with
  | Some kv => (kv, true)
  | None => (Nil, false)
  end.

(** ** fixExprPos *)

(** [for _, e := range es { step(e) }] over expressions that are updated. *)
Fixpoint fixEach (step : Expr -> filler -> Expr * filler) (es : list Expr) (f : filler)
    : list Expr * filler :=
  match es with
  | [] => ([], f)
  | e :: rest =>
      let '(e, f) := step e f in
      let '(rest, f) := fixEach step rest f in
      (e :: rest, f)
  end.

(** [fixExprPos] updates the nodes in place; here it returns the updated
    expression, and the caller ([zeroField] below) keeps it as the new
    content of the node it passed. *)
Fixpoint fixExprPos (expr : Expr) (f : filler) : Expr * filler :=
  match expr with
  | Nil => (Nil, f)
  | BasicLit _ k v => (BasicLit (pos f) k v, f)
  | BinaryExpr x _ op y =>
      let '(x, f) := fixExprPos x f in
      let opPos := pos f in
      let '(y, f) := fixExprPos y f in
      (BinaryExpr x opPos op y, f)
  | CallExpr fn _ args ellipsis _ =>
      let '(fn, f) := fixExprPos fn f in
      let lparen := pos f in
      let '(args, f) := fixEach fixExprPos args f in
      (CallExpr fn lparen args ellipsis (pos f), f)
  | CompositeLit ty _ elts _ =>
      let '(ty, f) := fixExprPos ty f in
      let lbrace := pos f in
      let '(elts, f) := fixEach (fun e f => fixExprPos e (incPos f)) elts f in
      let l := Z.of_nat (length elts) in
      let f := if 0 <? l then addLines (l + 2) f else f in
      let f := incPos f in
      (CompositeLit ty lbrace elts (pos f), f)
  | Ellipsis _ elt => (Ellipsis (pos f) elt, f)
  | FuncLit _ inside src => (FuncLit (pos f) inside src, f)
  | Ident _ nm => (Ident (pos f) nm, f)
  | IndexExpr x _ index _ =>
      let '(x, f) := fixExprPos x f in
      let lbrack := pos f in
      let '(index, f) := fixExprPos index f in
      (IndexExpr x lbrack index (pos f), f)
  | KeyValueExpr key colon value =>
      let '(key, f) := fixExprPos key f in
      let '(value, f) := fixExprPos value f in
      (KeyValueExpr key colon value, f)
  | ParenExpr _ x rparen => (ParenExpr (pos f) x rparen, f)
  | SelectorExpr x _ sel =>
      let '(x, f) := fixExprPos x f in
      (SelectorExpr x (pos f) sel, f)
  | SliceExpr x _ low high max _ =>
      let '(x, f) := fixExprPos x f in
      let lbrack := pos f in
      let '(low, f) := fixExprPos low f in
      let '(high, f) := fixExprPos high f in
      let '(max, f) := fixExprPos max f in
      (SliceExpr x lbrack low high max (pos f), f)
  | StarExpr _ x =>
      let star := pos f in
      let '(x, f) := fixExprPos x f in
      (StarExpr star x, f)
  | UnaryExpr _ op x =>
      let opPos := pos f in
      let '(x, f) := fixExprPos x f in
      (UnaryExpr opPos op x, f)
  | TypeAssertExpr _ _ _ _ | ArrayType _ _ _ | MapType _ _ _ => (expr, f)
  end.

(** ** zero *)

(** [for _, x := range xs { body }] and [for i := 0; i < n; i++ { body }]
    over a loop state, stopping at the first panic. *)
Fixpoint forEach {A St : Type} (body : St -> A -> result St) (xs : list A) (st : St)
    : result St :=
  match xs with
  | [] => Done st
  | x :: rest => st ← body st x; forEach body rest st
  end.

Fixpoint times {St : Type} (n : nat) (body : St -> result St) (st : St) : result St :=
  match n with
  | O => Done st
  | S n => st ← body st; times n body st
  end.

(** [for _, typ := range visited { if t == typ { ... } }] *)
Fixpoint seen (t : StructId) (visited : list StructId) : bool :=
  match visited with
  | [] => false
  | ty :: rest => if Nat.eqb t ty then true else seen t rest
  end.

(** [strconv.FormatInt(n, 10)] of a length. *)
Definition FormatInt (n : nat) : string :=
  NilEmpty.string_of_uint (Nat.to_uint n).

Definition quote : string := String.String (ascii_of_nat 34) EmptyString.

(** The [*types.Basic] arm. *)
Definition zeroBasic (k : BasicKind) (p : Pos) : Expr :=
  match k with
  | Bool => Ident p "false"
  | Int | Int8 | Int16 | Int32 | Int64 => BasicLit p ILLEGAL "0"
  | Uint | Uint8 | Uint16 | Uint32 | Uint64 => BasicLit p ILLEGAL "0"
  | Uintptr => BasicLit p ILLEGAL "uintptr(0)"
  | UnsafePointer => BasicLit p ILLEGAL "unsafe.Pointer(uintptr(0))"
  | Float32 | Float64 => BasicLit p ILLEGAL "0.0"
  | Complex64 | Complex128 => BasicLit p ILLEGAL "(0 + 0i)"
  | String => BasicLit p ILLEGAL (quote +:+ quote)
  | _ => Nil (* Cannot create an expression for an invalid type. *)
  end.

Section Synthesis.

(** The checked program the descriptors point into. *)
Variable u : Universe.

(** [typeString(pkg, typ)] is defined in another file of the package
    (typestring.go); it spells a type relative to [pkg] and reports whether
    it could.  It is a parameter of the development. *)
Variable typeString : Package -> Type_ -> string * bool.

Definition isImported (pkg : Package) (n : option NamedId) : bool :=
  match n with
  | None => false
  | Some n => negb (bool_decide (Some pkg = NamedPkg u n))
  end.

Definition asNamed (t : Type_) : option NamedId :=
  match t with Named n => Some n | _ => None end.

(** One round of the loop over the array elements. *)
Definition zeroElem (zero' : litInfo -> list StructId -> filler -> result (Expr * filler))
    (elem : Type_) (visited : list StructId) (st : list Expr * filler)
    : result (list Expr * filler) :=
  let '(elts, f) := st in
  let f := incPos f in
  let elemInfo := mkLitInfo (Underlying u elem) (asNamed elem) true false in
  '(v, f) ← zero' elemInfo visited f;
  if negb (isNil v) then Done (elts ++ [v], f) else Done (elts, f).

(** An element of [newlit.Elts] while the field loop runs: a node the loop
    made, or the node of the user that [f.existing] holds under a name.  The
    list holds that node itself, not a copy of it. *)
Inductive elt :=
| Made (kv : Expr)
| Users (nm : string).

(** The nodes of the user are updated in place, by the [fixExprPos] of the
    field loop and by nothing else, and only at the one struct level that
    finds [f.first] set.  [existing f] holds each node as it was parsed;
    [written], a part of the state of that loop, holds the nodes renumbered
    since, under the names [f.existing] has them under.  [current] is the
    node [kv] as it is now, [node] the one under a name. *)
Definition current (written : gmap string Expr) (nm : string) (kv : Expr) : Expr :=
  match written !! nm with
  | Some renumbered => renumbered
  | None => kv
  end.

Definition node (existing written : gmap string Expr) (nm : string) : Expr :=
  current written nm (lookup_ok existing nm).1.

(** What an element of [newlit.Elts] is once the loop is over. *)
Definition entry (existing written : gmap string Expr) (e : elt) : Expr :=
  match e with
  | Made kv => kv
  | Users nm => node existing written nm
  end.

(** One round of the loop over the struct fields; the loop state is
    [newlit.Elts], the local [lines], the filler and the nodes of the user
    renumbered so far.  A node that is reused again (by a second field of
    the same name, as two blank fields are) is renumbered again, and with it
    the element appended before. *)
Definition zeroField (zero' : litInfo -> list StructId -> filler -> result (Expr * filler))
    (first imported : bool) (visited : list StructId)
    (st : list elt * Z * filler * gmap string Expr) (field : Var)
    : result (list elt * Z * filler * gmap string Expr) :=
  let '(elts, lines, f, written) := st in
  let '(kv, ok) := lookup_ok (existing f) (Name field) in
  if first && ok then
    let f := incPos f in
    let lines := lines + 1 in
    let '(kv, f) := fixExprPos (current written (Name field) kv) f in
    Done (elts ++ [Users (Name field)], lines, f, <[Name field := kv]> written)
  else if (negb ok && negb imported) || Exported field then
    let f := incPos f in
    let k := Ident (pos f) (Name field) in
    '(v, f) ← zero' (mkLitInfo (VarType field) None false false) visited f;
    if negb (isNil v) then
      Done (elts ++ [Made (KeyValueExpr k NoPos v)], lines + 1, f, written)
    else
      Done (elts, lines, decPos f, written)
  else Done (elts, lines, f, written).

(** The type name in front of a struct literal; [None] is the [return nil]
    of an unrenderable name. *)
Definition structTypeName (pkg : Package) (info : litInfo) (s : StructId)
    : option Expr :=
  match hideType info, name info with
  | false, Some n =>
      let '(typeName, ok) := typeString pkg (Named n) in
      if negb ok then None
      else Some (NewIdent (if isPointer info then "&" +:+ typeName else typeName))
  | false, None =>
      let '(typeName, ok) := typeString pkg (Struct s) in
      if negb ok then None else Some (NewIdent typeName)
  | true, _ => Some Nil
  end.

(** The type in front of an array literal, unless the parent spells it;
    [None] is the [return nil] of an unrenderable element type. *)
Definition arrayTypeName (pkg : Package) (info : litInfo) (elem : Type_) (len : nat)
    (lbrack : Pos) : option Expr :=
  if negb (hideType info) then
    let '(typeName, ok) := typeString pkg elem in
    if negb ok then None
    else Some (ArrayType lbrack (BasicLit NoPos ILLEGAL (FormatInt len))
                         (NewIdent typeName))
  else Some Nil.

(** The body of [zero]; [zero'] stands for the recursive calls.  The entry of
    a map literal both calls [zero], for the key and the value, and reads
    [f.pos], for the colon: the two calls are run in the order they are
    written, and [f.pos] is read when the entry is built, after them (the
    language leaves the place of that read open, and this is where the
    compiled program has it). *)
Definition zeroBody (zero' : litInfo -> list StructId -> filler -> result (Expr * filler))
    (info : litInfo) (visited : list StructId) (f : filler) : result (Expr * filler) :=
  match typ info with
  | Basic k => Done (zeroBasic k (pos f), f)
  | Chan _ => Done (Ident (pos f) "nil", f)
  | Interface => Done (Ident (pos f) "nil", f)
  | Map key elem =>
      let '(keyTypeName, ok) := typeString (pkg f) key in
      if negb ok then Done (Nil, f) else
      let '(valTypeName, ok) := typeString (pkg f) elem in
      if negb ok then Done (Nil, f) else
      let lbrace := pos f in
      let ty := MapType (pos f) (NewIdent keyTypeName) (NewIdent valTypeName) in
      let f := incPos f in
      '(k, f) ← zero' (mkLitInfo key (name info) true false) visited f;
      '(v, f) ← zero' (mkLitInfo elem (name info) true false) visited f;
      let colon := pos f in
      let f := incPos f in
      let rbrace := pos f in
      let f := addLines 2 f in
      Done (CompositeLit ty lbrace [KeyValueExpr k colon v] rbrace, f)
  | Signature => Done (Ident (pos f) "nil", f)
  | Slice _ => Done (Ident (pos f) "nil", f)
  | Array elem len =>
      let lbrace := pos f in
      match arrayTypeName (pkg f) info elem len (pos f) with
      | None => Done (Nil, f)
      | Some ty =>
          '(elts, f) ← times len (zeroElem zero' elem visited) ([], f);
          let f := addLines (Z.of_nat (length elts) + 2) f in
          let f := incPos f in
          Done (CompositeLit ty lbrace elts (pos f), f)
      end
  | Named n =>
      let nm := if isStruct (Underlying u (Named n)) then Some n else name info in
      zero' (mkLitInfo (Underlying u (Named n)) nm (hideType info) (isPointer info))
            visited f
  | Pointer elem =>
      if isStruct (Underlying u elem) then
        zero' (mkLitInfo elem (name info) (hideType info) true) visited f
      else Done (Ident (pos f) "nil", f)
  | Struct s =>
      let lbrace := pos f in
      match structTypeName (pkg f) info s with
      | None => Done (Nil, f)
      | Some ty =>
          if seen s visited then Done (CompositeLit ty lbrace [] NoPos, f) else
          let visited := visited ++ [s] in
          let first := first f in
          let f := setFirst false f in
          let imported := isImported (pkg f) (name info) in
          '(elts, lines, f, written) ←
            forEach (zeroField zero' first imported visited)
                    (StructFields u s) ([], 0, f, ∅);
          let f := if 0 <? lines then incPos (addLines (lines + 2) f) else f in
          Done (CompositeLit ty lbrace (List.map (entry (existing f) written) elts) (pos f), f)
      end
  | Tuple => Panic UnexpectedType
  end.

(** [zero]: [fuel] bounds the depth of the recursion; Go has no such bound. *)
Fixpoint zero (fuel : nat) (info : litInfo) (visited : list StructId) (f : filler)
    : result (Expr * filler) :=
  match fuel with
  | O => OutOfFuel
  | S fuel => zeroBody (zero fuel) info visited f
  end.

(** The loop of [zeroValue] that fills [f.existing]; either type assertion
    panics when it fails. *)
Fixpoint collectExisting (elts : list Expr) (existing : gmap string Expr)
    : result (gmap string Expr) :=
  match elts with
  | [] => Done existing
  | e :: rest =>
      match e with
      | KeyValueExpr key _ _ =>
          match key with
          | Ident _ nm => collectExisting rest (<[nm := e]> existing)
          | _ => Panic TypeAssertion
          end
      | _ => Panic TypeAssertion
      end
  end.

(** [zeroValue(pkg, lit, info)]; of [lit] only [lit.Elts] is read. *)
Definition zeroValue (fuel : nat) (pkg : Package) (lit_Elts : list Expr)
    (info : litInfo) : result (Expr * Z) :=
  existing ← collectExisting lit_Elts ∅;
  let f := mkFiller pkg 1 0 existing true in
  '(e, f) ← zero fuel info [] f;
  Done (e, lines f).

End Synthesis.

(** ** The drivers: byOffset and byLine *)

Record output := mkOutput { Start : Z; End_ : Z; Code : string }.

(** What the drivers read of a composite literal of the parsed file: its
    recorded type ([pkg.Types[lit].Type]), its entries, and its extent as the
    file set reports it. *)
Record LitSite := mkLitSite {
  litType : Type_;
  litElts : list Expr;
  litStartOff : Z;
  litEndOff : Z;
  litStartLine : Z;
  litEndLine : Z
}.

(** The syntax tree as [ast.Inspect] and the enclosing path see it: composite
    literals, other expressions with their recorded type, and other nodes,
    each with its children in the order [ast.Walk] visits them. *)
Inductive Node :=
| CompositeLitNode (lit : LitSite) (children : list Node)
| ExprNode (ty : Type_) (children : list Node)
| OtherNode (children : list Node).

(** An [*ast.File] of the initial package with its [*token.File]. *)
Record File := mkFile {
  fileName : string;
  fileSize : Z;
  fileBase : Pos;
  fileAST : Node
}.

Definition hideTypeFor (t : option Type_) : bool :=
  match t with
  | Some (Array _ _) => true
  | Some (Map _ _) => true
  | Some (Slice _) => true
  | _ => false
  end.

(** [outs[i], outs[j] = outs[j], outs[i]]; an index out of range panics. *)
Definition swap {A : Type} (outs : list A) (i j : nat) : result (list A) :=
  match outs !! i, outs !! j with
  | Some x, Some y => Done (<[j := x]> (<[i := y]> outs))
  | _, _ => Panic IndexOutOfRange
  end.

(** [for i := k - 1; i >= 0; i-- { opp := len(outs) - 1 - i; swap }] *)
Fixpoint reverseFrom {A : Type} (k : nat) (outs : list A) : result (list A) :=
  match k with
  | O => Done outs
  | S i => outs ← swap outs i (length outs - 1 - i)%nat; reverseFrom i outs
  end.

Definition reverseOuts {A : Type} (outs : list A) : result (list A) :=
  reverseFrom (length outs / 2)%nat outs.

Definition children (n : Node) : list Node :=
  match n with
  | CompositeLitNode _ cs | ExprNode _ cs | OtherNode cs => cs
  end.

(** [ast.Inspect]: depth first, children skipped when the visitor says so. *)
Fixpoint Inspect {St : Type} (visit : Node -> St -> result (St * bool)) (n : Node)
    (st : St) : result St :=
  match visit n st with
  | Done (st, true) =>
      forEach (fun st c => Inspect visit c st) (children n) st
  | Done (st, false) => Done st
  | Fail e => Fail e
  | Panic p => Panic p
  | OutOfFuel => OutOfFuel
  end.

(** The variables the closure of [byLine] captures. *)
Record lineState := mkLineState {
  outs : list output;
  prev : option Type_;
  err : option error
}.

Section Drivers.

Variable u : Universe.
Variable typeString : Package -> Type_ -> string * bool.

(** [format.Node] on a fresh file set of [lines] lines: the printer is
    outside the program. *)
Variable format_Node : Z -> Expr -> error + string.

(** [astutil.PathEnclosingInterval(f, pos, pos)], innermost node first. *)
Variable PathEnclosingInterval : File -> Pos -> Pos -> list Node.

Definition prepareOutput (n : Expr) (lines start end_ : Z) : error + output :=
  match format_Node lines n with
  | inl e => inl e
  | inr code => inr (mkOutput start end_ code)
  end.

Fixpoint findPos (files : list File) (filename : string) (off : Z)
    : result (File * Pos) :=
  match files with
  | [] => Fail (errOther "could not find file")
  | f :: rest =>
      if String.eqb (fileName f) filename then
        if fileSize f <? off then
          Fail (errOther "file size is smaller than given offset")
        else Done (f, fileBase f + off)
      else findPos rest filename off
  end.

Definition nodeType (n : Node) : option Type_ :=
  match n with
  | CompositeLitNode lit _ => Some (litType lit)
  | ExprNode ty _ => Some ty
  | OtherNode _ => None
  end.

Fixpoint findCompositeLit (path : list Node) : result (LitSite * litInfo) :=
  match path with
  | [] => Fail errNotFound
  | CompositeLitNode lit _ :: rest =>
      match Underlying u (litType lit) with
      | Struct s =>
          match rest with
          | [] => Panic IndexOutOfRange
          | parent :: _ =>
              Done (lit, mkLitInfo (Struct s) (asNamed (litType lit))
                                   (hideTypeFor (nodeType parent)) false)
          end
      | _ => Fail errNotFound
      end
  | _ :: rest => findCompositeLit rest
  end.

(** The records written to standard output are the value of a driver. *)
Definition byOffset (fuel : nat) (files : list File) (path : string) (pkg : Package)
    (offset : Z) : result (list output) :=
  '(f, pos) ← findPos files path offset;
  '(lit, info) ← findCompositeLit (PathEnclosingInterval f pos pos);
  let start := litStartOff lit in
  let end_ := litEndOff lit in
  '(newlit, lines) ← zeroValue u typeString fuel pkg (litElts lit) info;
  match prepareOutput newlit lines start end_ with
  | inl e => Fail e
  | inr out => Done [out]
  end.

(** The loop without [break]: the last file of that name wins. *)
Fixpoint lastFile (files : list File) (path : string) (f : option File) : option File :=
  match files with
  | [] => f
  | af :: rest =>
      lastFile rest path (if String.eqb (fileName af) path then Some af else f)
  end.

(** The function literal handed to [ast.Inspect]. *)
Definition visitLit (fuel : nat) (pkg : Package) (line : Z) (n : Node) (st : lineState)
    : result (lineState * bool) :=
  match n with
  | CompositeLitNode lit _ =>
      if negb ((litStartLine lit <=? line) && (line <=? litEndLine lit)) then
        Done (st, true)
      else
        match Underlying u (litType lit) with
        | Struct s =>
            let info := mkLitInfo (Struct s) (asNamed (litType lit))
                                  (hideTypeFor (prev st)) false in
            '(newlit, lines) ← zeroValue u typeString fuel pkg (litElts lit) info;
            match prepareOutput newlit lines (litStartOff lit) (litEndOff lit) with
            | inl e => Done (mkLineState (outs st) (prev st) (Some e), false)
            | inr out => Done (mkLineState (outs st ++ [out]) (prev st) None, false)
            end
        | t => Done (mkLineState (outs st) (Some t) (Some errNotFound), true)
        end
  | _ => Done (st, true)
  end.

Definition byLine (fuel : nat) (files : list File) (path : string) (pkg : Package)
    (line : Z) : result (list output) :=
  match lastFile files path None with
  | None => Fail (errOther "could not find file")
  | Some f =>
      st ← Inspect (visitLit fuel pkg line) (fileAST f) (mkLineState [] None None);
      match err st with
      | Some e => Fail e
      | None =>
          if (length (outs st) =? 0)%nat then Fail errNotFound
          else reverseOuts (outs st)
      end
  end.

End Drivers.

(** ** Notions used to state the properties *)

(** The position markers of an expression in the order its tokens are
    printed.  A call has an ellipsis token, and so a marker for it, when its
    [Ellipsis] position is set.  The colon of a key/value pair is left out: a
    struct entry carries none, a reused entry keeps the one it had, and that
    of a map entry is read from the counter in the literal that makes the two
    calls. *)
Fixpoint markers (e : Expr) : list Pos :=
  match e with
  | Nil => []
  | BasicLit p _ _ => [p]
  | BinaryExpr x p _ y => markers x ++ [p] ++ markers y
  | CallExpr fn lp args ell rp =>
      markers fn ++ [lp] ++ flat_map markers args ++
      (if ell =? NoPos then [] else [ell]) ++ [rp]
  | CompositeLit ty lb elts rb => markers ty ++ [lb] ++ flat_map markers elts ++ [rb]
  | Ellipsis p elt => [p] ++ markers elt
  | FuncLit p inside _ => [p] ++ inside
  | Ident p _ => [p]
  | IndexExpr x lb i rb => markers x ++ [lb] ++ markers i ++ [rb]
  | KeyValueExpr k _ v => markers k ++ markers v
  | ParenExpr lp x rp => [lp] ++ markers x ++ [rp]
  | SelectorExpr x p _ => markers x ++ [p]
  | SliceExpr x lb lo hi mx rb =>
      markers x ++ [lb] ++ markers lo ++ markers hi ++ markers mx ++ [rb]
  | StarExpr p x => [p] ++ markers x
  | TypeAssertExpr x lp ty rp => markers x ++ [lp] ++ markers ty ++ [rp]
  | UnaryExpr p _ x => [p] ++ markers x
  | ArrayType lb len elt => [lb] ++ markers len ++ markers elt
  | MapType p k v => [p] ++ markers k ++ markers v
  end.

(** The markers that are set ([NoPos] is the unset marker). *)
Definition validMarkers (e : Expr) : list Pos :=
  List.filter (fun p => negb (p =? NoPos)) (markers e).

(** [chain lo ms hi]: the set markers of [ms] climb from [lo] to [hi]. *)
Fixpoint chain (lo : Pos) (ms : list Pos) (hi : Pos) : Prop :=
  match ms with
  | [] => lo <= hi
  | p :: rest => if p =? NoPos then chain lo rest hi else lo <= p /\ chain p rest hi
  end.

(** An expression with every position marker, the colons included, unset. *)
Fixpoint shape (e : Expr) : Expr :=
  match e with
  | Nil => Nil
  | BasicLit _ k v => BasicLit NoPos k v
  | BinaryExpr x _ op y => BinaryExpr (shape x) NoPos op (shape y)
  | CallExpr fn _ args _ _ =>
      CallExpr (shape fn) NoPos (List.map shape args) NoPos NoPos
  | CompositeLit ty _ elts _ =>
      CompositeLit (shape ty) NoPos (List.map shape elts) NoPos
  | Ellipsis _ elt => Ellipsis NoPos (shape elt)
  | FuncLit _ inside src => FuncLit NoPos (List.map (fun _ => NoPos) inside) src
  | Ident _ nm => Ident NoPos nm
  | IndexExpr x _ i _ => IndexExpr (shape x) NoPos (shape i) NoPos
  | KeyValueExpr k _ v => KeyValueExpr (shape k) NoPos (shape v)
  | ParenExpr _ x _ => ParenExpr NoPos (shape x) NoPos
  | SelectorExpr x _ sel => SelectorExpr (shape x) NoPos sel
  | SliceExpr x _ lo hi mx _ =>
      SliceExpr (shape x) NoPos (shape lo) (shape hi) (shape mx) NoPos
  | StarExpr _ x => StarExpr NoPos (shape x)
  | TypeAssertExpr x _ ty _ => TypeAssertExpr (shape x) NoPos (shape ty) NoPos
  | UnaryExpr _ op x => UnaryExpr NoPos op (shape x)
  | ArrayType _ len elt => ArrayType NoPos (shape len) (shape elt)
  | MapType _ k v => MapType NoPos (shape k) (shape v)
  end.

(** The expressions [fixExprPos] walks through completely: no parenthesis, no
    ellipsis with an operand, no function literal, no variadic call, no type
    assertion and no array or map type expression anywhere inside. *)
Fixpoint walked (e : Expr) : bool :=
  match e with
  | Nil | BasicLit _ _ _ | Ident _ _ => true
  | BinaryExpr x _ _ y => walked x && walked y
  | CallExpr fn _ args ell _ => walked fn && forallb walked args && (ell =? NoPos)
  | CompositeLit ty _ elts _ => walked ty && forallb walked elts
  | Ellipsis _ elt => isNil elt
  | IndexExpr x _ i _ => walked x && walked i
  | KeyValueExpr k _ v => walked k && walked v
  | SelectorExpr x _ _ => walked x
  | SliceExpr x _ lo hi mx _ => walked x && walked lo && walked hi && walked mx
  | StarExpr _ x => walked x
  | UnaryExpr _ _ x => walked x
  | FuncLit _ _ _ | ParenExpr _ _ _ | TypeAssertExpr _ _ _ _ | ArrayType _ _ _
  | MapType _ _ _ => false
  end.

(** [nm] names at most one field of each struct of the program. *)
Definition namesOneField (u : Universe) (nm : string) : Prop :=
  forall s,
    (length (List.filter (fun x => String.eqb (Name x) nm) (StructFields u s)) <= 1)%nat.

(** The field an entry of a struct literal is for. *)
Definition entryName (e : Expr) : option string :=
  match e with
  | KeyValueExpr (Ident _ nm) _ _ => Some nm
  | _ => None
  end.

(** Every entry of [f.existing] is a key/value pair filed under its key. *)
Definition keyed (existing : gmap string Expr) : Prop :=
  forall nm kv, existing !! nm = Some kv -> entryName kv = Some nm.

(** All composite literals of a tree, in the order [ast.Walk] reaches them. *)
Fixpoint literals (n : Node) : list LitSite :=
  match n with
  | CompositeLitNode lit cs => lit :: flat_map literals cs
  | ExprNode _ cs => flat_map literals cs
  | OtherNode cs => flat_map literals cs
  end.

Section Notions.

Variable u : Universe.
Variable typeString : Package -> Type_ -> string * bool.

(** The literal info [zero] is called with for the value of a field. *)
Definition fieldInfo (field : Var) : litInfo :=
  mkLitInfo (VarType field) None false false.

(** The visibility test of the field loop, without the entries of the user:
    the struct is of the literal's own package (or has no name), or the
    field is exported. *)
Definition visible (pkg : Package) (info : litInfo) (field : Var) : bool :=
  negb (isImported u pkg (name info)) || Exported field.

(** The paths of [zero] that [return nil], followed through the same calls
    and with the same depth bound. *)
Fixpoint yieldsNil (fuel : nat) (pkg : Package) (info : litInfo) : bool :=
  match fuel with
  | O => false
  | S fuel =>
    match typ info with
    | Basic k => isNil (zeroBasic k NoPos)
    | Map key elem =>
        negb (snd (typeString pkg key)) || negb (snd (typeString pkg elem))
    | Array elem len =>
    match arrayTypeName typeString pkg info elem len NoPos with
    | None => true
    | Some _ => false
    end
    | Named n =>
        let nm := if isStruct (Underlying u (Named n)) then Some n else name info in
        yieldsNil fuel pkg
          (mkLitInfo (Underlying u (Named n)) nm (hideType info) (isPointer info))
    | Pointer elem =>
        if isStruct (Underlying u elem) then
          yieldsNil fuel pkg (mkLitInfo elem (name info) (hideType info) true)
        else false
    | Struct s =>
        match structTypeName typeString pkg info s with
        | None => true
        | Some _ => false
        end
    | _ => false
    end
  end.

(** The fields of a struct level that get an entry: the ones the user wrote
    (reused at the outermost level), and the visible ones with a value. *)
Definition keeps (fuel : nat) (f : filler) (info : litInfo) (field : Var) : bool :=
  match existing f !! Name field with
  | Some _ => true
  | None => visible (pkg f) info field && negb (yieldsNil fuel (pkg f) (fieldInfo field))
  end.

End Notions.

(** ** Notions for the depth of the descent *)

(** The named types a descent through [t] reaches before it meets a struct. *)
Fixpoint exposed (t : Type_) : list NamedId :=
  match t with
  | Named n => [n]
  | Map k v => exposed k ++ exposed v
  | Array e _ => exposed e
  | Pointer e => exposed e
  | _ => []
  end.

(** All struct identities in [t] are below [bound]. *)
Fixpoint structsBelow (bound : nat) (t : Type_) : Prop :=
  match t with
  | Struct s => (s < bound)%nat
  | Map k v => structsBelow bound k /\ structsBelow bound v
  | Array e _ | Pointer e | Chan e | Slice e => structsBelow bound e
  | _ => True
  end.

Fixpoint typeSize (t : Type_) : nat :=
  match t with
  | Map k v => S (typeSize k + typeSize v)
  | Array e _ | Pointer e | Chan e | Slice e => S (typeSize e)
  | _ => 1%nat
  end.

(** One more than the highest rank among the exposed names. *)
Definition height (rank : NamedId -> nat) (t : Type_) : nat :=
  list_max (List.map (fun n => S (rank n)) (exposed t)).

(** Every cycle of the type graph passes through a struct: named types that
    are not structs can be ranked so that the names exposed by the underlying
    type of each rank lower. *)
Definition structGuarded (u : Universe) (rank : NamedId -> nat) : Prop :=
  forall n, isStruct (NamedUnderlying u n) = false ->
            Forall (fun m => (rank m < rank n)%nat) (exposed (NamedUnderlying u n)).

(** The recursive calls the body of [zero] makes for [info], with the list of
    ancestors each is given. *)
Definition calls (u : Universe) (info : litInfo) (visited : list StructId)
    : list (litInfo * list StructId) :=
  match typ info with
  | Map key elem =>
      [(mkLitInfo key (name info) true false, visited);
       (mkLitInfo elem (name info) true false, visited)]
  | Array elem _ =>
      [(mkLitInfo (Underlying u elem) (asNamed elem) true false, visited)]
  | Named n =>
      [(mkLitInfo (Underlying u (Named n))
                  (if isStruct (Underlying u (Named n)) then Some n else name info)
                  (hideType info) (isPointer info), visited)]
  | Pointer elem =>
      if isStruct (Underlying u elem) then
        [(mkLitInfo elem (name info) (hideType info) true, visited)]
      else []
  | Struct s =>
      if seen s visited then []
      else List.map (fun field => (fieldInfo field, visited ++ [s])) (StructFields u s)
  | _ => []
  end.

(** The program has finitely many struct types. *)
Definition structsBounded (u : Universe) (bound : nat) : Prop :=
  (forall n, structsBelow bound (NamedUnderlying u n)) /\
  (forall s field, In field (StructFields u s) -> structsBelow bound (VarType field)).

(** ** Notions used in the proofs *)

(** The part of the filler no call changes once the descent has begun. *)
Definition sameCtx (f f' : filler) : Prop :=
  pkg f' = pkg f /\ existing f' = existing f /\ first f' = first f.

(** What one renumbering step keeps: the context, the shape, and counters
    that only grow. *)
Definition keeps_shape (step : Expr -> filler -> Expr * filler) (e : Expr) : Prop :=
  forall f,
    sameCtx f (step e f).2 /\ shape (step e f).1 = shape e /\
    pos f <= pos (step e f).2 /\ lines f <= lines (step e f).2.

(** A step renumbers an expression when the markers it leaves climb from the
    counter it found to the counter it leaves. *)
Definition renumbers (step : Expr -> filler -> Expr * filler) (e : Expr) : Prop :=
  walked e = true ->
  forall f, chain (pos f) (markers (step e f).1) (pos (step e f).2).

(** What a call of [zero] leaves of the filler: package and user entries as
    they were, the one-shot flag as it was or consumed, counters not lower. *)
Definition ctxAfter (f f' : filler) : Prop :=
  pkg f' = pkg f /\ existing f' = existing f /\
  (first f' = first f \/ first f' = false) /\
  pos f <= pos f' /\ lines f <= lines f'.

(** The user entries that may still be reused are ones [fixExprPos] walks
    through completely, each for at most one field of a struct. *)
Definition renumberable (u : Universe) (f : filler) : Prop :=
  first f = false \/
  forall nm kv, existing f !! nm = Some kv -> walked kv = true /\ namesOneField u nm.

(** An element of the field loop that is a node of the user is one the loop
    has renumbered. *)
Definition fromWritten (w : gmap string Expr) (e : elt) : Prop :=
  match e with
  | Users nm => is_Some (w !! nm)
  | Made _ => True
  end.

(** The nodes the field loop has written are nodes of [f.existing], of the
    shape they were parsed with, and the elements that are nodes of the user
    are among them. *)
Definition tracks (ex w : gmap string Expr) (es : list elt) : Prop :=
  (forall nm c, w !! nm = Some c -> exists kv, ex !! nm = Some kv /\ shape c = shape kv) /\
  Forall (fromWritten w) es.

(** An element the field loop made. *)
Definition made (e : elt) : Prop :=
  match e with
  | Made _ => True
  | Users _ => False
  end.

(** The field an element of the field loop is for. *)
Definition eltName (e : elt) : option string :=
  match e with
  | Made kv => entryName kv
  | Users nm => Some nm
  end.

(** A run with more depth agrees with one that did not run out of depth. *)
Definition agrees {X : Type} (g g' : result X) : Prop := g <> OutOfFuel -> g' = g.

(** Induction over expressions and over syntax trees, with the hypothesis for
    every element of a list of children. *)

Section ExprInduction.

Variable P : Expr -> Prop.

Hypothesis HNil : P Nil.
Hypothesis HBasicLit : forall p k v, P (BasicLit p k v).
Hypothesis HBinaryExpr : forall x p op y, P x -> P y -> P (BinaryExpr x p op y).
Hypothesis HCallExpr : forall fn lp args ell rp,
  P fn -> Forall P args -> P (CallExpr fn lp args ell rp).
Hypothesis HCompositeLit : forall ty lb elts rb,
  P ty -> Forall P elts -> P (CompositeLit ty lb elts rb).
Hypothesis HEllipsis : forall p elt, P elt -> P (Ellipsis p elt).
Hypothesis HFuncLit : forall p inside src, P (FuncLit p inside src).
Hypothesis HIdent : forall p nm, P (Ident p nm).
Hypothesis HIndexExpr : forall x lb i rb, P x -> P i -> P (IndexExpr x lb i rb).
Hypothesis HKeyValueExpr : forall k c v, P k -> P v -> P (KeyValueExpr k c v).
Hypothesis HParenExpr : forall lp x rp, P x -> P (ParenExpr lp x rp).
Hypothesis HSelectorExpr : forall x p sel, P x -> P (SelectorExpr x p sel).
Hypothesis HSliceExpr : forall x lb lo hi mx rb,
  P x -> P lo -> P hi -> P mx -> P (SliceExpr x lb lo hi mx rb).
Hypothesis HStarExpr : forall p x, P x -> P (StarExpr p x).
Hypothesis HTypeAssertExpr : forall x lp ty rp,
  P x -> P ty -> P (TypeAssertExpr x lp ty rp).
Hypothesis HUnaryExpr : forall p op x, P x -> P (UnaryExpr p op x).
Hypothesis HArrayType : forall lb len elt, P len -> P elt -> P (ArrayType lb len elt).
Hypothesis HMapType : forall p k v, P k -> P v -> P (MapType p k v).

Fixpoint Expr_nested_ind (e : Expr) : P e :=
  let all := fix all (es : list Expr) : Forall P es :=
    match es with
    | [] => ListDef.Forall_nil P
    | e :: rest => ListDef.Forall_cons P e rest (Expr_nested_ind e) (all rest)
    end in
  match e with
  | Nil => HNil
  | BasicLit p k v => HBasicLit p k v
  | BinaryExpr x p op y => HBinaryExpr x p op y (Expr_nested_ind x) (Expr_nested_ind y)
  | CallExpr fn lp args ell rp =>
      HCallExpr fn lp args ell rp (Expr_nested_ind fn) (all args)
  | CompositeLit ty lb elts rb =>
      HCompositeLit ty lb elts rb (Expr_nested_ind ty) (all elts)
  | Ellipsis p elt => HEllipsis p elt (Expr_nested_ind elt)
  | FuncLit p inside src => HFuncLit p inside src
  | Ident p nm => HIdent p nm
  | IndexExpr x lb i rb => HIndexExpr x lb i rb (Expr_nested_ind x) (Expr_nested_ind i)
  | KeyValueExpr k c v => HKeyValueExpr k c v (Expr_nested_ind k) (Expr_nested_ind v)
  | ParenExpr lp x rp => HParenExpr lp x rp (Expr_nested_ind x)
  | SelectorExpr x p sel => HSelectorExpr x p sel (Expr_nested_ind x)
  | SliceExpr x lb lo hi mx rb =>
      HSliceExpr x lb lo hi mx rb (Expr_nested_ind x) (Expr_nested_ind lo)
                 (Expr_nested_ind hi) (Expr_nested_ind mx)
  | StarExpr p x => HStarExpr p x (Expr_nested_ind x)
  | TypeAssertExpr x lp ty rp =>
      HTypeAssertExpr x lp ty rp (Expr_nested_ind x) (Expr_nested_ind ty)
  | UnaryExpr p op x => HUnaryExpr p op x (Expr_nested_ind x)
  | ArrayType lb len elt => HArrayType lb len elt (Expr_nested_ind len) (Expr_nested_ind elt)
  | MapType p k v => HMapType p k v (Expr_nested_ind k) (Expr_nested_ind v)
  end.

End ExprInduction.

Section NodeInduction.

Variable P : Node -> Prop.

Hypothesis HCompositeLitNode : forall lit cs, Forall P cs -> P (CompositeLitNode lit cs).
Hypothesis HExprNode : forall ty cs, Forall P cs -> P (ExprNode ty cs).
Hypothesis HOtherNode : forall cs, Forall P cs -> P (OtherNode cs).

Fixpoint Node_nested_ind (n : Node) : P n :=
  let all := fix all (cs : list Node) : Forall P cs :=
    match cs with
    | [] => ListDef.Forall_nil P
    | c :: rest => ListDef.Forall_cons P c rest (Node_nested_ind c) (all rest)
    end in
  match n with
  | CompositeLitNode lit cs => HCompositeLitNode lit cs (all cs)
  | ExprNode ty cs => HExprNode ty cs (all cs)
  | OtherNode cs => HOtherNode cs (all cs)
  end.

End NodeInduction.

(** ** Notions for the runs that neither panic nor fail *)

(** The kinds the switch of [zero] has a case for, along the calls it makes:
    the element of a channel, slice or pointer is not descended into as
    such. *)
Fixpoint handled (t : Type_) : Prop :=
  match t with
  | Tuple => False
  | Map k v => handled k /\ handled v
  | Array e _ => handled e
  | _ => True
  end.

(** Every underlying type and every field type of the program is of a
    handled kind. *)
Definition handledUniverse (u : Universe) : Prop :=
  (forall n, handled (NamedUnderlying u n)) /\
  (forall s field, In field (StructFields u s) -> handled (VarType field)).

(** A run that neither panics nor reports an error. *)
Definition quiet {A : Type} (r : result A) : Prop :=
  match r with
  | Done _ | OutOfFuel => True
  | Fail _ | Panic _ => False
  end.

(** A result that spells no type of its own: anything but a composite
    literal with a type in front, a map type apart (the map arm of [zero]
    spells its type in every position). *)
Definition elided (e : Expr) : Prop :=
  match e with
  | CompositeLit Nil _ _ _ => True
  | CompositeLit (MapType _ _ _) _ _ _ => True
  | CompositeLit _ _ _ _ => False
  | _ => True
  end.

(** Two fillers past the outermost struct level that differ at most in the
    values of the entries of the user: same package and counters, [first]
    consumed, entries under the same names. *)
Definition sameNames (f g : filler) : Prop :=
  pkg f = pkg g /\ pos f = pos g /\ lines f = lines g /\
  first f = false /\ first g = false /\
  forall nm, existing f !! nm = None <-> existing g !! nm = None.

(** Two runs that end alike, in states related by [R]. *)
Definition related {St : Type} (R : St -> St -> Prop) (r r' : result St) : Prop :=
  match r, r' with
  | Done a, Done b => R a b
  | Fail a, Fail b => a = b
  | Panic p, Panic q => p = q
  | OutOfFuel, OutOfFuel => True
  | _, _ => False
  end.

(** The same expression, in fillers with the same names. *)
Definition sameValue (a b : Expr * filler) : Prop :=
  a.1 = b.1 /\ sameNames a.2 b.2.

(** The last entry of a literal that is keyed by [nm]. *)
Definition lastEntry (nm : string) (elts : list Expr) : option Expr :=
  List.find (fun e => bool_decide (entryName e = Some nm)) (rev elts).

(** No composite literal where [fixExprPos] gets to. *)
Fixpoint litFree (e : Expr) : bool :=
  match e with
  | CompositeLit _ _ _ _ => false
  | BinaryExpr x _ _ y => litFree x && litFree y
  | CallExpr fn _ args _ _ => litFree fn && forallb litFree args
  | IndexExpr x _ i _ => litFree x && litFree i
  | KeyValueExpr k _ v => litFree k && litFree v
  | SelectorExpr x _ _ => litFree x
  | SliceExpr x _ lo hi mx _ => litFree x && litFree lo && litFree hi && litFree mx
  | StarExpr _ x => litFree x
  | UnaryExpr _ _ x => litFree x
  | _ => true
  end.

(** Renumbering the result of a renumbering is renumbering the original. *)
Definition renumbersAgain (step : Expr -> filler -> Expr * filler) (e : Expr) : Prop :=
  forall f g, step (step e f).1 g = step e g.

(** Renumbering leaves the filler alone and puts every marker on the
    counter. *)
Definition onOneLine (step : Expr -> filler -> Expr * filler) (e : Expr) : Prop :=
  litFree e = true ->
  forall f,
    (step e f).2 = f /\
    (walked e = true -> Forall (fun p => p = pos f) (markers (step e f).1)).

(** ** Notions for structs of plain fields *)

(** The types whose value [zero] gives without a literal and without
    touching the filler, directly or under one name: valid basic types,
    channels, interfaces, functions, slices, and pointers to anything but a
    struct. *)
Definition scalar (u : Universe) (t : Type_) : bool :=
  match Underlying u t with
  | Basic k => negb (isNil (zeroBasic k NoPos))
  | Chan _ | Interface | Signature | Slice _ => true
  | Pointer elem => negb (isStruct (Underlying u elem))
  | _ => false
  end.

(** The value [zero] gives for such a type at position [p]. *)
Definition scalarZero (u : Universe) (t : Type_) (p : Pos) : Expr :=
  match Underlying u t with
  | Basic k => zeroBasic k p
  | _ => Ident p "nil"
  end.

(** One entry per field, each a position after the one before. *)
Fixpoint flatEntries (u : Universe) (p : Pos) (fields : list Var) : list Expr :=
  match fields with
  | [] => []
  | x :: rest =>
      KeyValueExpr (Ident (p + 1) (Name x)) NoPos (scalarZero u (VarType x) (p + 1))
        :: flatEntries u (p + 1) rest
  end.

(** One element per round, each a position after the one before. *)
Fixpoint flatElements (u : Universe) (elem : Type_) (p : Pos) (n : nat) : list Expr :=
  match n with
  | O => []
  | S n => scalarZero u elem (p + 1) :: flatElements u elem (p + 1) n
  end.

(** ** Notions for the drivers *)

Definition isLit (n : Node) : bool :=
  match n with CompositeLitNode _ _ => true | _ => false end.

(** [startLine <= line && line <= endLine] *)
Definition covers (line : Z) (lit : LitSite) : bool :=
  (litStartLine lit <=? line) && (line <=? litEndLine lit).

(** The literal has a struct type. *)
Definition structLit (u : Universe) (lit : LitSite) : bool :=
  isStruct (Underlying u (litType lit)).

(** The literals the visitor of [byLine] acts on: those that cover the line,
    in the order of the traversal, which does not go below a struct literal
    that covers the line. *)
Fixpoint met (u : Universe) (line : Z) (n : Node) : list LitSite :=
  match n with
  | CompositeLitNode lit cs =>
      if covers line lit then
        if structLit u lit then [lit] else lit :: flat_map (met u line) cs
      else flat_map (met u line) cs
  | ExprNode _ cs => flat_map (met u line) cs
  | OtherNode cs => flat_map (met u line) cs
  end.

(** The extent a record replaces, and the extent of a literal. *)
Definition recordExtent (out : output) : Z * Z := (Start out, End_ out).
Definition litExtent (lit : LitSite) : Z * Z := (litStartOff lit, litEndOff lit).

(** A run that reports no error value and panics, if it does, on a type
    of an unexpected kind. *)
Definition tame {A : Type} (r : result A) : Prop :=
  match r with
  | Fail _ => False
  | Panic p => p = UnexpectedType
  | _ => True
  end.

(** A run that reports no error value. *)
Definition unfailing {A : Type} (r : result A) : Prop :=
  match r with
  | Fail _ => False
  | _ => True
  end.

(** What the visitor of [byLine] does at a literal, whatever is below it. *)
Definition act (u : Universe) (typeString : Package -> Type_ -> string * bool)
    (format_Node : Z -> Expr -> error + string) (fuel : nat) (pkg : Package) (line : Z)
    (st : lineState) (lit : LitSite) : result lineState :=
  '(st, _) ← visitLit u typeString format_Node fuel pkg line (CompositeLitNode lit []) st;
  Done st.

(** ** main *)

(** A loaded program as [main] reads it: the initial packages, each with its
    [*types.Package] and its files. *)
Record PackageInfo := mkPackageInfo { Pkg : Package; Files : list File }.
Record Program := mkProgram { InitialPackages : list PackageInfo }.

(** How a run of the command ends: [main] returns with the records written
    to standard output, [os.Exit(1)] after the usage text, [log.Fatal], a
    panic, or (in the model only) not within the depth given. *)
Inductive exit :=
| Returned (records : list output)
| Usage
| Fatal (e : error)
| Panicked (p : panic)
| Unfinished.

Definition exitOf (r : result (list output)) : exit :=
  match r with
  | Done records => Returned records
  | Fail e => Fatal e
  | Panic p => Panicked p
  | OutOfFuel => Unfinished
  end.

Section Main.

Variable u : Universe.
Variable typeString : Package -> Type_ -> string * bool.
Variable format_Node : Z -> Expr -> error + string.
Variable PathEnclosingInterval : File -> Pos -> Pos -> list Node.

(** [absPath] asks the file system and [load] runs the loader; both are
    outside the program. *)
Variable absPath : string -> error + string.
Variable load : string -> bool -> error + Program.

(** The second half of [main]: [if *line > 0 { ... }; log.Fatal(errNotFound)]. *)
Definition mainByLine (fuel : nat) (pkg : PackageInfo) (path : string) (line : Z) : exit :=
  if 0 <? line then
    exitOf (byLine u typeString format_Node fuel (Files pkg) path (Pkg pkg) line)
  else Fatal errNotFound.

(** [main], after [flag.Parse()], on the values of the four flags. *)
Definition main (fuel : nat) (filename : string) (modified : bool) (offset line : Z)
    : exit :=
  if (offset =? 0) && (line =? 0) || String.eqb filename EmptyString then Usage
  else
    match absPath filename with
    | inl e => Fatal e
    | inr path =>
        match load path modified with
        | inl e => Fatal e
        | inr lprog =>
            match InitialPackages lprog with
            | [] => Panicked IndexOutOfRange
            | pkg :: _ =>
                if 0 <? offset then
                  match byOffset u typeString format_Node PathEnclosingInterval fuel
                                 (Files pkg) path (Pkg pkg) offset with
                  | Done records => Returned records
                  | Fail errNotFound => mainByLine fuel pkg path line
                  | Fail e => Fatal e
                  | Panic p => Panicked p
                  | OutOfFuel => Unfinished
                  end
                else mainByLine fuel pkg path line
            end
        end
    end.

End Main.

(** ** A sample program

    Package 1 is the package of the literal, package 2 an imported one.

<<
    type User struct { ID int64; Name string; Addr *Address }
    type Address struct { City string; ZIP int; LatLng [2]float64 }
    type M map[string]M
    type Node struct { val int; next *Node }
    type Outer struct { a int; in Inner }
    type Inner struct { a int; b string }
    type Gaps struct { a chan int; b <invalid>; c int }
    type Rec struct { m M }
    type Grid struct { xs [2]<invalid>; ys [3]int; m map[string]int }
    type Missing <invalid>      // declared as [type Missing Undefined]
    type Broken struct { m map[string]Missing; n int }
    type Pad struct { _ int; x int; _ int }
    // package 2
    type hidden int
    type Ext struct { ID int64; name string; Tags map[string]hidden }
>>
*)

Definition User : NamedId := 0%nat.
Definition Address : NamedId := 1%nat.
Definition M : NamedId := 2%nat.
Definition Node_ : NamedId := 3%nat.
Definition Outer : NamedId := 4%nat.
Definition Inner : NamedId := 5%nat.
Definition Gaps : NamedId := 6%nat.
Definition Rec : NamedId := 7%nat.
Definition Grid : NamedId := 8%nat.
Definition hidden : NamedId := 9%nat.
Definition Ext : NamedId := 10%nat.
Definition Broken : NamedId := 11%nat.
Definition Pad : NamedId := 12%nat.
Definition Missing : NamedId := 13%nat.

Definition sampleFields (s : StructId) : list Var :=
  match s with
  | 0%nat => [mkVar "ID" true (Basic Int64); mkVar "Name" true (Basic String);
              mkVar "Addr" true (Pointer (Named Address))]
  | 1%nat => [mkVar "City" true (Basic String); mkVar "ZIP" true (Basic Int);
              mkVar "LatLng" true (Array (Basic Float64) 2)]
  | 3%nat => [mkVar "val" false (Basic Int); mkVar "next" false (Pointer (Named Node_))]
  | 4%nat => [mkVar "a" false (Basic Int); mkVar "in" false (Named Inner)]
  | 5%nat => [mkVar "a" false (Basic Int); mkVar "b" false (Basic String)]
  | 6%nat => [mkVar "a" false (Chan (Basic Int)); mkVar "b" false (Basic Invalid);
              mkVar "c" false (Basic Int)]
  | 7%nat => [mkVar "m" false (Named M)]
  | 8%nat => [mkVar "xs" false (Array (Basic Invalid) 2);
              mkVar "ys" false (Array (Basic Int) 3);
              mkVar "m" false (Map (Basic String) (Basic Int))]
  | 10%nat => [mkVar "ID" true (Basic Int64); mkVar "name" false (Basic String);
               mkVar "Tags" true (Map (Basic String) (Named hidden))]
  | 11%nat => [mkVar "m" false (Map (Basic String) (Named Missing));
               mkVar "n" false (Basic Int)]
  | 12%nat => [mkVar "_" false (Basic Int); mkVar "x" false (Basic Int);
               mkVar "_" false (Basic Int)]
  | _ => []
  end.

Definition sampleUnderlying (n : NamedId) : Type_ :=
  match n with
  | 2%nat => Map (Basic String) (Named M)
  | 9%nat => Basic Int
  | 13%nat => Basic Invalid
  | n => Struct n
  end.

Definition sampleUniverse : Universe :=
  mkUniverse sampleUnderlying
             (fun n => if (9 <=? n)%nat && (n <=? 10)%nat then Some 2%nat else Some 1%nat)
             sampleFields.

Definition sampleName (n : NamedId) : string :=
  match n with
  | 0%nat => "User" | 1%nat => "Address" | 2%nat => "M" | 3%nat => "Node"
  | 4%nat => "Outer" | 5%nat => "Inner" | 6%nat => "Gaps" | 7%nat => "Rec"
  | 8%nat => "Grid" | 9%nat => "hidden" | 10%nat => "Ext" | 11%nat => "Broken"
  | 12%nat => "Pad" | _ => "Missing"
  end.

Definition basicName (k : BasicKind) : string :=
  match k with
  | Bool => "bool" | Int => "int" | Int64 => "int64" | Float64 => "float64"
  | String => "string" | Invalid => "invalid type" | _ => "basic"
  end.

(** Modelled from the spec: [typeString], whose file (typestring.go) is not
    among the sources, for the sample program only.  It spells basic, named,
    map, pointer, slice and array types, qualifies the names of package 2 and
    cannot spell the unexported name [hidden] of package 2 when asked from
    elsewhere ("anonymous/unexported external structural shapes"). *)
Fixpoint sampleTypeString (pkg : Package) (t : Type_) : string * bool :=
  match t with
  | Basic k => (basicName k, true)
  | Named n =>
      if (n =? hidden)%nat && negb (pkg =? 2)%nat then ("", false)
      else if (n =? Ext)%nat && negb (pkg =? 2)%nat then ("ext." +:+ sampleName n, true)
      else (sampleName n, true)
  | Map k v =>
      let '(ks, kok) := sampleTypeString pkg k in
      let '(vs, vok) := sampleTypeString pkg v in
      ("map[" +:+ ks +:+ "]" +:+ vs, kok && vok)
  | Pointer e => let '(es, ok) := sampleTypeString pkg e in ("*" +:+ es, ok)
  | Slice e => let '(es, ok) := sampleTypeString pkg e in ("[]" +:+ es, ok)
  | Array e n =>
      let '(es, ok) := sampleTypeString pkg e in
      ("[" +:+ FormatInt n +:+ "]" +:+ es, ok)
  | _ => ("struct{...}", true)
  end.

(** The literal info of a literal of a named struct type, as the drivers
    build it. *)
Definition structInfo (n : NamedId) : litInfo :=
  mkLitInfo (Underlying sampleUniverse (Named n)) (Some n) false false.

Definition sampleZeroValue (lit_Elts : list Expr) (n : NamedId) : result (Expr * Z) :=
  zeroValue sampleUniverse sampleTypeString 8 1%nat lit_Elts (structInfo n).

(** A file of package 1 with two struct literals on its line 3,
    [... User{} ... Address{} ...], inside a call. *)
Definition userLit : LitSite := mkLitSite (Named User) [] 40 46 3 3.
Definition addressLit : LitSite := mkLitSite (Named Address) [] 50 59 3 3.

Definition sampleFile : File :=
  mkFile "main.go" 120 1
    (OtherNode [ExprNode Signature
                  [CompositeLitNode userLit []; CompositeLitNode addressLit []]]).

(** A stand-in for the printer: it reports the number of lines it was given
    room for and whether it was handed an expression at all. *)
Definition sampleFormat (lines : Z) (n : Expr) : error + string :=
  if isNil n then inl (errOther "nil node")
  else inr ("lines=" +:+ FormatInt (Z.to_nat lines)).

(** A stand-in for the path search: the literal [User{}] and its parents. *)
Definition samplePath (f : File) (start end_ : Pos) : list Node :=
  [CompositeLitNode userLit []; ExprNode Signature []; OtherNode []].

(** The sample program without the map type [M]: every named type is a struct
    (a name without fields stands for [struct{}]). *)
Definition structUniverse : Universe :=
  mkUniverse (fun n => Struct (Nat.min n 10)) (fun _ => Some 1%nat) sampleFields.

(** ** More of the sample program

    A second file of package 1, [grid.go]:

<<
    line 2:  var g = Grid{m: map[string]int{"a": 1}}
    line 4:  f(User{}, []int{1})
    line 6:  h([]int{2}, Inner{})
>>
*)

Definition mapEntry : Expr :=
  KeyValueExpr (BasicLit 232 STRING (quote +:+ "a" +:+ quote)) 235 (BasicLit 237 INT "1").

Definition gridEntry : Expr :=
  KeyValueExpr (Ident 214 "m") 215
    (CompositeLit (MapType 217 (Ident 221 "string") (Ident 228 "int")) 231 [mapEntry] 238).

Definition gridLit : LitSite := mkLitSite (Named Grid) [gridEntry] 8 40 2 2.
Definition mapLit : LitSite :=
  mkLitSite (Map (Basic String) (Basic Int)) [mapEntry] 16 39 2 2.
Definition userLit2 : LitSite := mkLitSite (Named User) [] 62 68 4 4.
Definition intsLit : LitSite := mkLitSite (Slice (Basic Int)) [BasicLit 276 INT "1"] 70 78 4 4.
Definition intsLit2 : LitSite := mkLitSite (Slice (Basic Int)) [BasicLit 298 INT "2"] 92 100 6 6.
Definition innerLit : LitSite := mkLitSite (Named Inner) [] 102 109 6 6.

Definition gridFile : File :=
  mkFile "grid.go" 130 200
    (OtherNode
       [CompositeLitNode gridLit [OtherNode [CompositeLitNode mapLit []]];
        ExprNode Signature [CompositeLitNode userLit2 []; CompositeLitNode intsLit []];
        ExprNode Signature [CompositeLitNode intsLit2 []; CompositeLitNode innerLit []]]).

(** A stand-in for the path search in [grid.go]: inside the map literal of
    line 2, inside the rest of the struct literal around it, and elsewhere. *)
Definition gridPath (f : File) (start end_ : Pos) : list Node :=
  let off := start - fileBase f in
  if (16 <=? off) && (off <? 39) then
    [CompositeLitNode mapLit []; OtherNode []; CompositeLitNode gridLit []; OtherNode []]
  else if (8 <=? off) && (off <? 40) then
    [CompositeLitNode gridLit []; OtherNode []]
  else [OtherNode []].

(** A stand-in for a printer that never fails: the type in front of the
    literal, if it has one, and the number of lines it was given room for. *)
Definition headFormat (lines : Z) (n : Expr) : error + string :=
  inr (match n with
       | CompositeLit (Ident _ nm) _ _ _ => nm
       | _ => EmptyString
       end +:+ "{...} lines=" +:+ FormatInt (Z.to_nat lines)).

(** The loaded program, and stand-ins for the file system and the loader. *)
Definition sampleProgram : Program :=
  mkProgram [mkPackageInfo 1%nat [sampleFile; gridFile]].

Definition sampleAbsPath (filename : string) : error + string := inr filename.

Definition sampleLoad (path : string) (modified : bool) : error + Program :=
  inr sampleProgram.

Definition sampleMain (filename : string) (offset line : Z) : exit :=
  main sampleUniverse sampleTypeString headFormat gridPath sampleAbsPath sampleLoad
       8 filename false offset line.

(** * Properties *)

(** ** Chains of markers *)

Lemma chain_le lo ms hi : chain lo ms hi -> lo <= hi.
Proof.
  revert lo. induction ms as [|p ms IH]; intros lo; simpl; [lia|].
  destruct (p =? NoPos); [auto|]. intros [? H%IH]. lia.
Qed.

Lemma chain_weaken lo lo' ms hi hi' :
  lo' <= lo -> hi <= hi' -> chain lo ms hi -> chain lo' ms hi'.
Proof.
  revert lo lo'. induction ms as [|p ms IH]; intros lo lo' Hlo Hhi; simpl; [lia|].
  destruct (p =? NoPos); [eauto|]. intros [? H]. split; [lia|]. eapply IH; eauto. lia.
Qed.

Lemma chain_app lo ms1 mid ms2 hi :
  chain lo ms1 mid -> chain mid ms2 hi -> chain lo (ms1 ++ ms2) hi.
Proof.
  revert lo. induction ms1 as [|p ms1 IH]; intros lo; simpl.
  - intros Hle H. eapply chain_weaken; [exact Hle|reflexivity|exact H].
  - destruct (p =? NoPos); [auto|]. intros [? H1] H2. split; [assumption|]. auto.
Qed.

Lemma chain_one lo p hi : lo <= p <= hi -> chain lo [p] hi.
Proof. intros [? ?]. simpl. destruct (p =? NoPos); simpl; lia. Qed.

Lemma chain_unset lo hi : lo <= hi -> chain lo [NoPos] hi.
Proof. intros ?. simpl. assumption. Qed.

Lemma chain_sorted lo ms hi :
  chain lo ms hi ->
  StronglySorted Z.le (List.filter (fun p => negb (p =? NoPos)) ms) /\
  Forall (fun p => lo <= p <= hi) (List.filter (fun p => negb (p =? NoPos)) ms).
Proof.
  revert lo. induction ms as [|p ms IH]; intros lo; simpl.
  - intros _. split; constructor.
  - destruct (p =? NoPos); simpl; [auto|].
    intros [Hp H]. destruct (IH _ H) as [Hs Hb]. pose proof (chain_le _ _ _ H).
    split.
    + constructor; [assumption|]. eapply Forall_impl; [exact Hb|]. simpl. intros; lia.
    + constructor; [lia|]. eapply Forall_impl; [exact Hb|]. simpl. intros; lia.
Qed.

(** ** fixExprPos: what it keeps and what it renumbers *)

Lemma sameCtx_refl f : sameCtx f f.
Proof. repeat split. Qed.

Lemma sameCtx_trans f1 f2 f3 : sameCtx f1 f2 -> sameCtx f2 f3 -> sameCtx f1 f3.
Proof. unfold sameCtx. intuition congruence. Qed.

Lemma sameCtx_incPos f : sameCtx f (incPos f).
Proof. repeat split. Qed.

Lemma sameCtx_decPos f : sameCtx f (decPos f).
Proof. repeat split. Qed.

Lemma sameCtx_addLines n f : sameCtx f (addLines n f).
Proof. repeat split. Qed.

Create HintDb filler.

#[local] Hint Resolve sameCtx_refl sameCtx_incPos sameCtx_decPos sameCtx_addLines : filler.

Lemma fixEach_keeps_shape step es :
  Forall (keeps_shape step) es ->
  forall f,
    sameCtx f (fixEach step es f).2 /\
    List.map shape (fixEach step es f).1 = List.map shape es /\
    pos f <= pos (fixEach step es f).2 /\ lines f <= lines (fixEach step es f).2 /\
    length (fixEach step es f).1 = length es.
Proof.
  induction 1 as [|e es He _ IH]; intros f; simpl.
  - repeat split; lia.
  - destruct (He f) as (Hc & Hs & Hp & Hl).
    destruct (step e f) as [e' f1]; simpl in *.
    destruct (IH f1) as (Hc' & Hs' & Hp' & Hl' & Hn).
    destruct (fixEach step es f1) as [es' f2]; simpl in *.
    split; [eapply sameCtx_trans; eassumption|].
    split; [congruence|]. lia.
Qed.

Ltac fix_step :=
  match goal with
  | H : keeps_shape fixExprPos ?x |- context [fixExprPos ?x ?f] =>
      let H' := fresh "H" in
      pose proof (H f) as H'; destruct H' as (? & ? & ? & ?);
      destruct (fixExprPos x f) as [? ?]; simpl in *
  end.

Ltac ctx_solve :=
  unfold sameCtx in *; simpl in *; intuition (try congruence; try lia).

Lemma keeps_shape_incPos e :
  keeps_shape fixExprPos e -> keeps_shape (fun e f => fixExprPos e (incPos f)) e.
Proof.
  intros H f. destruct (H (incPos f)) as (Hc & Hs & Hp & Hl).
  simpl in *. ctx_solve.
Qed.

Lemma fixExprPos_keeps_shape e : keeps_shape fixExprPos e.
Proof.
  induction e using Expr_nested_ind; intros f; simpl;
    repeat fix_step; try solve [ctx_solve].
  - (* CallExpr *)
    destruct (fixEach_keeps_shape fixExprPos args H f0) as (? & ? & ? & ? & ?).
    destruct (fixEach fixExprPos args f0) as [? ?]; simpl in *. ctx_solve.
  - (* CompositeLit *)
    assert (Hs : Forall (keeps_shape (fun e f => fixExprPos e (incPos f))) elts)
      by (eapply Forall_impl; [exact H|]; apply keeps_shape_incPos).
    destruct (fixEach_keeps_shape _ elts Hs f0) as (? & ? & ? & ? & ?).
    destruct (fixEach _ elts f0) as [? ?]; simpl in *.
    destruct (0 <? Z.of_nat (length l)) eqn:E; simpl; ctx_solve.
Qed.

Lemma chain_cons lo p rest hi : lo <= p -> chain p rest hi -> chain lo (p :: rest) hi.
Proof.
  intros Hlo H. simpl. destruct (p =? NoPos); [|auto].
  eapply chain_weaken; [exact Hlo|reflexivity|exact H].
Qed.

Lemma chain_nil lo hi : lo <= hi -> chain lo [] hi.
Proof. intros H. exact H. Qed.

Lemma chain_skip lo rest hi : chain lo rest hi -> chain lo (NoPos :: rest) hi.
Proof. intros H. exact H. Qed.

#[local] Arguments chain : simpl never.

Ltac chain_tac :=
  simpl;
  repeat first
    [ eassumption
    | apply chain_cons; [simpl; lia|]
    | eapply chain_app; [eassumption|]
    | apply chain_nil; simpl; lia ].

Lemma fixEach_renumbers step es :
  Forall (renumbers step) es ->
  forallb walked es = true ->
  forall f, chain (pos f) (flat_map markers (fixEach step es f).1)
                  (pos (fixEach step es f).2).
Proof.
  induction 1 as [|e es He _ IH]; intros Hw f; simpl in *; [apply chain_nil; lia|].
  apply andb_true_iff in Hw as [Hw1 Hw2].
  specialize (He Hw1 f). destruct (step e f) as [e' f1]; simpl in *.
  specialize (IH Hw2 f1). destruct (fixEach step es f1) as [es' f2]; simpl in *.
  eapply chain_app; eassumption.
Qed.

Ltac renum_step :=
  match goal with
  | H : renumbers fixExprPos ?x, Hw : walked ?x = true |- context [fixExprPos ?x ?f] =>
      let H' := fresh "Hc" in
      pose proof (H Hw f) as H'; pose proof (chain_le _ _ _ H');
      destruct (fixExprPos x f) as [? ?]; simpl in *
  end.

Lemma fixExprPos_renumbers e : renumbers fixExprPos e.
Proof.
  induction e using Expr_nested_ind; intros Hw f; simpl in Hw;
    rewrite ?andb_true_iff in Hw; try discriminate;
    repeat match goal with H : _ /\ _ |- _ => destruct H end;
    simpl; repeat renum_step; try solve [chain_tac].
  - (* CallExpr *)
    match goal with Hell : (ell =? NoPos) = true |- _ => apply Z.eqb_eq in Hell; subst ell end.
    match goal with Hargs : forallb walked args = true |- _ =>
      pose proof (fixEach_renumbers fixExprPos args H Hargs f0) as Hc' end.
    pose proof (chain_le _ _ _ Hc').
    destruct (fixEach fixExprPos args f0) as [? ?]; simpl in *. chain_tac.
  - (* CompositeLit *)
    assert (Hs : Forall (renumbers (fun e f => fixExprPos e (incPos f))) elts).
    { eapply Forall_impl; [exact H|]. intros x Hx Hwx g.
      eapply chain_weaken; [| |apply (Hx Hwx (incPos g))]; simpl; lia. }
    pose proof (fixEach_renumbers _ elts Hs H1 f0) as Hc'.
    pose proof (chain_le _ _ _ Hc').
    destruct (fixEach _ elts f0) as [? ?]; simpl in *.
    destruct (0 <? Z.of_nat (length l)); simpl; chain_tac.
  - (* Ellipsis *)
    destruct e; try discriminate. chain_tac.
Qed.

(** ** Running the monad backwards *)

Lemma bind_Done {A B : Type} (m : result A) (k : A -> result B) (b : B) :
  m ≫= k = Done b -> exists a, m = Done a /\ k a = Done b.
Proof. destruct m as [a| | |]; simpl; try discriminate. eauto. Qed.

Tactic Notation "bind_inv" hyp(H) "as" simple_intropattern(pat) ident(E) :=
  apply bind_Done in H as (pat & E & H); simpl in H.

Lemma forEach_app {A St : Type} (body : St -> A -> result St) xs ys st :
  forEach body (xs ++ ys) st = forEach body xs st ≫= forEach body ys.
Proof.
  revert st. induction xs as [|x xs IH]; intros st; simpl; [reflexivity|].
  destruct (body st x); simpl; auto.
Qed.

(** A loop invariant over the part of the list already visited. *)
Lemma forEach_ind {A St : Type} (body : St -> A -> result St)
    (I : list A -> St -> Prop) xs st st' :
  I [] st ->
  (forall pre x s s',
     In x xs -> I pre s -> body s x = Done s' -> I (pre ++ [x]) s') ->
  forEach body xs st = Done st' ->
  I xs st'.
Proof.
  intros H0 Hstep.
  assert (G : forall suf pre s,
             xs = pre ++ suf -> I pre s -> forEach body suf s = Done st' -> I xs st').
  { induction suf as [|x suf IH]; intros pre s Hxs Hpre Hrun; simpl in Hrun.
    - injection Hrun as <-. rewrite app_nil_r in Hxs. subst xs. exact Hpre.
    - bind_inv Hrun as a E. apply (IH (pre ++ [x]) a).
      + rewrite <- app_assoc. exact Hxs.
      + eapply Hstep; eauto. subst xs. apply in_or_app. right. left. reflexivity.
      + exact Hrun. }
  intros Hrun. apply (G xs [] st eq_refl H0 Hrun).
Qed.

(** The same, with the place of the round in the list. *)
Lemma forEach_ind_at {A St : Type} (body : St -> A -> result St)
    (I : list A -> St -> Prop) xs st st' :
  I [] st ->
  (forall pre x post s s',
     xs = pre ++ x :: post -> I pre s -> body s x = Done s' -> I (pre ++ [x]) s') ->
  forEach body xs st = Done st' ->
  I xs st'.
Proof.
  intros H0 Hstep.
  assert (G : forall suf pre s,
             xs = pre ++ suf -> I pre s -> forEach body suf s = Done st' -> I xs st').
  { induction suf as [|x suf IH]; intros pre s Hxs Hpre Hrun; simpl in Hrun.
    - injection Hrun as <-. rewrite app_nil_r in Hxs. subst xs. exact Hpre.
    - bind_inv Hrun as a E. apply (IH (pre ++ [x]) a).
      + rewrite <- app_assoc. exact Hxs.
      + eapply Hstep; eauto.
      + exact Hrun. }
  intros Hrun. apply (G xs [] st eq_refl H0 Hrun).
Qed.

Lemma times_ind {St : Type} (body : St -> result St) (I : nat -> St -> Prop) n st st' :
  I O st ->
  (forall i s s', I i s -> body s = Done s' -> I (S i) s') ->
  times n body st = Done st' ->
  I n st'.
Proof.
  intros H0 Hstep.
  assert (G : forall i s, I i s -> times n body s = Done st' -> I (i + n)%nat st').
  { induction n as [|n IH]; intros i s Hi Hrun; simpl in Hrun.
    - injection Hrun as <-. rewrite Nat.add_0_r. exact Hi.
    - bind_inv Hrun as a E. replace (i + S n)%nat with (S i + n)%nat by lia.
      eapply IH; [|exact Hrun]. eapply Hstep; eauto. }
  intros Hrun. apply (G O st H0 Hrun).
Qed.

#[local] Arguments zeroBody u typeString zero' info visited f /.

Section Properties.

Variable u : Universe.
Variable typeString : Package -> Type_ -> string * bool.

Local Abbreviation zero := (zero u typeString).
Local Abbreviation zeroElem := (zeroElem u).
Local Abbreviation yieldsNil := (yieldsNil u typeString).

Lemma arrayTypeName_None_iff pk info elem len p q :
  match arrayTypeName typeString pk info elem len q with
  | None => true
  | Some _ => false
  end =
  match arrayTypeName typeString pk info elem len p with
  | None => true
  | Some _ => false
  end.
Proof.
  unfold arrayTypeName. destruct (negb (hideType info)); [|reflexivity].
  destruct (typeString pk elem) as [tn [|]]; reflexivity.
Qed.

Lemma arrayTypeName_chain pk info elem len p ty :
  arrayTypeName typeString pk info elem len p = Some ty -> chain p (markers ty) p.
Proof.
  unfold arrayTypeName. destruct (negb (hideType info)).
  - destruct (typeString pk elem) as [tn [|]]; simpl; intros H; [|discriminate].
    injection H as <-. simpl. apply chain_cons; [lia|]. apply chain_nil. lia.
  - intros H. injection H as <-. apply chain_nil. lia.
Qed.

Lemma zeroBasic_isNil k p : isNil (zeroBasic k p) = isNil (zeroBasic k NoPos).
Proof. destruct k; reflexivity. Qed.

(** [zero] returns nil exactly on the paths [yieldsNil] lists, and then it
    has not touched the filler. *)
Lemma zero_isNil fuel : forall info visited f e f',
  zero fuel info visited f = Done (e, f') ->
  isNil e = yieldsNil fuel (pkg f) info /\ (isNil e = true -> f' = f).
Proof.
  induction fuel as [|fuel IH]; intros [t nm h p] visited f e f' H;
    [discriminate|].
  destruct t; simpl in H |- *.
  - injection H as <- <-. split; [apply zeroBasic_isNil|reflexivity].
  - injection H as <- <-. split; [reflexivity|discriminate].
  - injection H as <- <-. split; [reflexivity|discriminate].
  - destruct (typeString (pkg f) t1) as [kn [|]]; simpl in *;
      [|injection H as <- <-; split; reflexivity].
    destruct (typeString (pkg f) t2) as [vn [|]]; simpl in *;
      [|injection H as <- <-; split; reflexivity].
    bind_inv H as [k f1] Ek. bind_inv H as [v f2] Ev.
    injection H as <- <-. split; [reflexivity|discriminate].
  - injection H as <- <-. split; [reflexivity|discriminate].
  - injection H as <- <-. split; [reflexivity|discriminate].
  - rewrite (arrayTypeName_None_iff (pkg f) _ t len (pos f) NoPos).
    destruct (arrayTypeName typeString (pkg f) _ t len (pos f)) as [ty|];
      [|injection H as <- <-; split; reflexivity].
    bind_inv H as [elts f1] Eloop. injection H as <- <-.
    split; [reflexivity|discriminate].
  - apply IH in H. exact H.
  - destruct (isStruct (Underlying u t)).
    + apply IH in H. exact H.
    + injection H as <- <-. split; [reflexivity|discriminate].
  - destruct (structTypeName typeString (pkg f) _ s) as [ty|];
      [|injection H as <- <-; split; reflexivity].
    destruct (seen s visited).
    + injection H as <- <-. split; [reflexivity|discriminate].
    + bind_inv H as [[[elts lines] f1] w] Eloop. injection H as <- <-.
      split; [reflexivity|discriminate].
  - discriminate.
Qed.

Lemma ctxAfter_refl f : ctxAfter f f.
Proof. unfold ctxAfter. intuition lia. Qed.

Lemma ctxAfter_trans f1 f2 f3 : ctxAfter f1 f2 -> ctxAfter f2 f3 -> ctxAfter f1 f3.
Proof. unfold ctxAfter. intuition (try congruence; try lia). Qed.

Lemma fixExprPos_ctxAfter e f : ctxAfter f (fixExprPos e f).2.
Proof.
  destruct (fixExprPos_keeps_shape e f) as ((? & ? & ?) & _ & ? & ?).
  unfold ctxAfter. intuition.
Qed.

Ltac ctxa := unfold ctxAfter in *; simpl in *; intuition (try congruence; try lia).

Lemma zero_ctxAfter fuel : forall info visited f e f',
  zero fuel info visited f = Done (e, f') -> ctxAfter f f'.
Proof.
  induction fuel as [|fuel IH]; intros [t nm h p] visited f e f' H;
    [discriminate|].
  destruct t; simpl in H;
    try (injection H as <- <-; apply ctxAfter_refl); try discriminate.
  - (* Map *)
    destruct (typeString (pkg f) t1) as [kn [|]]; simpl in *;
      [|injection H as <- <-; apply ctxAfter_refl].
    destruct (typeString (pkg f) t2) as [vn [|]]; simpl in *;
      [|injection H as <- <-; apply ctxAfter_refl].
    bind_inv H as [k f1] Ek. bind_inv H as [v f2] Ev.
    injection H as <- <-. apply IH in Ek, Ev. ctxa.
  - (* Array *)
    assert (Hloop : forall elts f1,
      times len (zeroElem (zero fuel) t visited) ([], f) = Done (elts, f1) ->
      ctxAfter f f1).
    { intros elts f1 Hrun.
      change (ctxAfter f (elts, f1).2). revert Hrun.
      apply times_ind with (I := fun _ st => ctxAfter f st.2); [apply ctxAfter_refl|].
      intros i [es g] s' Hi Hb. unfold zeroElem in Hb. bind_inv Hb as [v g'] Ev.
      apply IH in Ev.
      destruct (isNil v); simpl in Hb; injection Hb as <-; simpl in *; ctxa. }
    destruct (arrayTypeName typeString (pkg f) _ t len (pos f)) as [ty|];
      [|injection H as <- <-; apply ctxAfter_refl].
    bind_inv H as [elts f1] Eloop. injection H as <- <-.
    apply Hloop in Eloop. ctxa.
  - (* Named *) apply IH in H. exact H.
  - (* Pointer *)
    destruct (isStruct (Underlying u t)).
    + apply IH in H. exact H.
    + injection H as <- <-; apply ctxAfter_refl.
  - (* Struct *)
    destruct (structTypeName typeString (pkg f) _ s) as [ty|];
      [|injection H as <- <-; apply ctxAfter_refl].
    destruct (seen s visited); [injection H as <- <-; apply ctxAfter_refl|].
    bind_inv H as [[[elts n] f1] w] E.
    assert (Hloop : ctxAfter (setFirst false f) (elts, n, f1, w).1.2);
      [|injection H as <- <-; destruct (0 <? n) eqn:Hn;
        [apply Z.ltb_lt in Hn|]; ctxa].
    revert E.
    apply forEach_ind with (I := fun _ st => ctxAfter (setFirst false f) st.1.2);
      [apply ctxAfter_refl|].
    intros pre x [[[es ls] g] w0] s' _ Hi Hb. unfold zeroField in Hb.
      destruct (lookup_ok (existing g) (Name x)) as [kv ok].
      destruct (first f && ok).
      * pose proof (fixExprPos_ctxAfter (current w0 (Name x) kv) (incPos g)) as Hf.
        destruct (fixExprPos _ (incPos g)) as [kv' g']. injection Hb as <-.
        simpl in *. ctxa.
      * destruct (negb ok && negb _ || Exported x); [|injection Hb as <-; exact Hi].
        bind_inv Hb as [v g'] Ev. pose proof Ev as Hn.
        apply IH in Ev. apply zero_isNil in Hn as [_ Hn].
        destruct (isNil v); simpl in Hb; injection Hb as <-; simpl in *.
        -- specialize (Hn eq_refl). subst g'. ctxa.
        -- ctxa.
Qed.

(** ** Markers climb *)

Lemma chain_lower lo lo' ms hi : lo' <= lo -> chain lo ms hi -> chain lo' ms hi.
Proof. intros H. apply chain_weaken; [exact H|reflexivity]. Qed.

Lemma chain_raise lo ms hi hi' : hi <= hi' -> chain lo ms hi -> chain lo ms hi'.
Proof. intros H. apply chain_weaken; [reflexivity|exact H]. Qed.

Ltac chain_tac2 :=
  simpl; rewrite <- ?app_assoc, ?app_nil_r; simpl;
  repeat first
    [ eassumption
    | match goal with
      | |- chain _ (?p :: _) _ =>
          let p' := eval compute in p in
          match p' with 0 => apply chain_skip end
      end
    | match goal with
      | |- chain _ (_ :: _) _ => apply chain_cons; [simpl; lia|]
      end
    | eapply chain_app; [eassumption|]
    | eapply chain_app; [eapply chain_lower; [|eassumption]; simpl; lia|]
    | eapply chain_weaken; [| |eassumption]; simpl; lia
    | apply chain_nil; simpl; lia ].

Lemma renumberable_after f f' :
  ctxAfter f f' -> renumberable u f -> renumberable u f'.
Proof.
  intros (_ & He & Hf & _) [H|H]; [left|right].
  - destruct Hf; congruence.
  - rewrite He. exact H.
Qed.

Lemma ctxAfter_incPos f : ctxAfter f (incPos f).
Proof. ctxa. Qed.

Lemma structTypeName_chain pk info s ty lo :
  structTypeName typeString pk info s = Some ty -> chain lo (markers ty) lo.
Proof.
  unfold structTypeName. destruct (hideType info), (name info);
    repeat match goal with
           | |- context [typeString ?a ?b] => destruct (typeString a b) as [? [|]]
           end; simpl; intros H; try discriminate; injection H as <-;
    chain_tac2.
Qed.

Lemma lookup_ok_Some m nm kv : lookup_ok m nm = (kv, true) -> m !! nm = Some kv.
Proof.
  unfold lookup_ok. destruct (m !! nm); intros H; [|discriminate].
  congruence.
Qed.

(** The elements of the field loop once a node is written. *)
Lemma entry_insert_same ex w nm c : entry ex (<[nm := c]> w) (Users nm) = c.
Proof. unfold entry, node, current. rewrite lookup_insert_eq. reflexivity. Qed.

Lemma entry_insert_other ex w nm c e :
  w !! nm = None -> fromWritten w e -> entry ex (<[nm := c]> w) e = entry ex w e.
Proof.
  intros Hn He. destruct e as [kv|m]; [reflexivity|]. simpl in *.
  unfold node, current. rewrite lookup_insert_ne; [reflexivity|].
  intros ->. rewrite Hn in He. destruct He as [? He]. discriminate He.
Qed.

Lemma entries_insert_other ex w nm c es :
  w !! nm = None -> Forall (fromWritten w) es ->
  List.map (entry ex (<[nm := c]> w)) es = List.map (entry ex w) es.
Proof.
  intros Hn Hes. apply map_ext_in. intros e He. apply entry_insert_other; [exact Hn|].
  rewrite Forall_forall in Hes. apply Hes. apply list_elem_of_In. exact He.
Qed.

Lemma fromWritten_insert w nm c e : fromWritten w e -> fromWritten (<[nm := c]> w) e.
Proof.
  destruct e as [kv|m]; [auto|]. simpl. intros H.
  destruct (decide (nm = m)) as [->|Hne].
  - rewrite lookup_insert_eq. eauto.
  - rewrite lookup_insert_ne by exact Hne. exact H.
Qed.

(** A name of one field is not the name of a field before it. *)
Lemma namesOneField_before nm s pre x post :
  namesOneField u nm -> StructFields u s = pre ++ x :: post -> Name x = nm ->
  ~ In nm (List.map Name pre).
Proof.
  intros H Hs Hx Hin. specialize (H s). rewrite Hs, List.filter_app, length_app in H.
  simpl in H. rewrite Hx, String.eqb_refl in H. simpl in H.
  apply in_map_iff in Hin as (y & Hy & Hin).
  assert (Hy' : In y (List.filter (fun x => String.eqb (Name x) nm) pre)).
  { apply filter_In. split; [exact Hin|]. rewrite Hy. apply String.eqb_refl. }
  destruct (List.filter _ pre); [contradiction|]. simpl in H. lia.
Qed.

Lemma zero_chain fuel : forall info visited f e f',
  renumberable u f ->
  zero fuel info visited f = Done (e, f') ->
  chain (pos f) (markers e) (pos f').
Proof.
  induction fuel as [|fuel IH]; intros [t nm h p] visited f e f' Hr H;
    [discriminate|].
  destruct t; simpl in H;
    try (injection H as <- <-; chain_tac2); try discriminate.
  - (* Basic *) destruct k; chain_tac2.
  - (* Map *)
    destruct (typeString (pkg f) t1) as [kn [|]]; simpl in *;
      [|injection H as <- <-; chain_tac2].
    destruct (typeString (pkg f) t2) as [vn [|]]; simpl in *;
      [|injection H as <- <-; chain_tac2].
    bind_inv H as [k f1] Ek. bind_inv H as [v f2] Ev. injection H as <- <-.
    pose proof (zero_ctxAfter _ _ _ _ _ _ Ek) as Hk.
    assert (Hr1 : renumberable u f1)
      by (eapply renumberable_after; [|exact Hr]; ctxa).
    apply (IH _ _ _ _ _ (renumberable_after _ _ (ctxAfter_incPos f) Hr)) in Ek.
    apply (IH _ _ _ _ _ Hr1) in Ev.
    pose proof (chain_le _ _ _ Ek). pose proof (chain_le _ _ _ Ev). simpl in *.
    chain_tac2.
  - (* Array *)
    assert (Hloop : forall elts f1,
      times len (zeroElem (zero fuel) t visited) ([], f) = Done (elts, f1) ->
      chain (pos f) (flat_map markers elts) (pos f1)).
    { intros elts f1 Hrun.
      enough (G : chain (pos f) (flat_map markers (elts, f1).1) (pos (elts, f1).2)
                  /\ ctxAfter f (elts, f1).2) by apply G.
      revert Hrun.
      apply times_ind with
        (I := fun _ st => chain (pos f) (flat_map markers st.1) (pos st.2)
                          /\ ctxAfter f st.2).
      - split; [chain_tac2|apply ctxAfter_refl].
      - intros i [es g] s' [Hc Hg] Hb. unfold zeroElem in Hb.
        bind_inv Hb as [v g'] Ev.
        pose proof (zero_ctxAfter _ _ _ _ _ _ Ev) as Hv.
        assert (Hrg : renumberable u (incPos g))
          by (eapply renumberable_after; [|exact Hr]; ctxa).
        apply (IH _ _ _ _ _ Hrg) in Ev.
        pose proof (chain_le _ _ _ Ev).
        destruct (isNil v); simpl in Hb; injection Hb as <-; simpl in *.
        + split; [chain_tac2|ctxa].
        + split; [rewrite flat_map_app; chain_tac2|ctxa]. }
    destruct (arrayTypeName typeString (pkg f) _ t len (pos f)) as [ty|] eqn:Hty;
      [|injection H as <- <-; chain_tac2].
    apply arrayTypeName_chain in Hty.
    bind_inv H as [elts f1] Eloop. injection H as <- <-.
    apply Hloop in Eloop. pose proof (chain_le _ _ _ Eloop). chain_tac2.
  - (* Named *) apply (IH _ _ _ _ _ Hr) in H. exact H.
  - (* Pointer *)
    destruct (isStruct (Underlying u t)).
    + apply (IH _ _ _ _ _ Hr) in H. exact H.
    + injection H as <- <-. chain_tac2.
  - (* Struct *)
    destruct (structTypeName typeString (pkg f) _ s) as [ty|] eqn:Hty;
      [|injection H as <- <-; chain_tac2].
    pose proof (structTypeName_chain _ _ _ _ (pos f) Hty) as Hcty.
    destruct (seen s visited); [injection H as <- <-; chain_tac2|].
    bind_inv H as [[[elts n] f1] w] E.
    pose (ents := fun st : list elt * Z * filler * gmap string Expr =>
                    List.map (entry (existing f) st.2) st.1.1.1).
    assert (Hloop : chain (pos f) (flat_map markers (ents (elts, n, f1, w))) (pos f1)
                    /\ ctxAfter (setFirst false f) f1).
    { enough (G : (chain (pos f) (flat_map markers (ents (elts, n, f1, w)))
                         (pos (elts, n, f1, w).1.2)
                   /\ ctxAfter (setFirst false f) (elts, n, f1, w).1.2)
                  /\ (forall nm0, is_Some ((elts, n, f1, w).2 !! nm0) ->
                                 In nm0 (List.map Name (StructFields u s)))
                  /\ Forall (fromWritten (elts, n, f1, w).2) (elts, n, f1, w).1.1.1)
        by apply G.
      revert E.
      apply forEach_ind_at with
        (I := fun pre st =>
                (chain (pos f) (flat_map markers (ents st)) (pos st.1.2)
                 /\ ctxAfter (setFirst false f) st.1.2)
                /\ (forall nm0, is_Some (st.2 !! nm0) -> In nm0 (List.map Name pre))
                /\ Forall (fromWritten st.2) st.1.1.1).
      - split; [split; [chain_tac2|apply ctxAfter_refl]|].
        split; [|constructor]. intros nm0 [c Hc]. cbn [fst snd] in Hc. rewrite lookup_empty in Hc.
        discriminate Hc.
      - intros pre x post [[[es ls] g] w0] s' Hsplit [[Hc Hg] [Hin Hes]] Hb.
        unfold ents in *. cbn [fst snd] in *.
        assert (Hpre : forall nm0, In nm0 (List.map Name pre) ->
                                   In nm0 (List.map Name (pre ++ [x]))).
        { intros nm0 Hnm. rewrite List.map_app. apply in_or_app. left. exact Hnm. }
        unfold zeroField in Hb.
        destruct (lookup_ok (existing g) (Name x)) as [kv ok] eqn:Hkv.
        destruct (first f && ok) eqn:Hfo.
        + apply andb_true_iff in Hfo as [Hf ->]. apply lookup_ok_Some in Hkv.
          assert (Hw : walked kv = true /\ namesOneField u (Name x)).
          { destruct Hr as [Hr|Hr]; [congruence|]. apply (Hr (Name x)).
            destruct Hg as (_ & Hex & _). simpl in Hex. rewrite <- Hex. exact Hkv. }
          destruct Hw as [Hw Hone].
          assert (Hnew : w0 !! Name x = None).
          { destruct (w0 !! Name x) as [c|] eqn:Hl; [|reflexivity].
            exfalso. apply (namesOneField_before _ _ _ _ _ Hone Hsplit eq_refl).
            apply Hin. eauto. }
          unfold current in Hb. rewrite Hnew in Hb.
          pose proof (fixExprPos_renumbers kv Hw (incPos g)) as Hk.
          pose proof (fixExprPos_ctxAfter kv (incPos g)) as Hf'.
          destruct (fixExprPos kv (incPos g)) as [kv' g']. injection Hb as <-.
          cbn [fst snd] in *. pose proof (chain_le _ _ _ Hk).
          split; [split|split].
          * rewrite List.map_app, (entries_insert_other _ _ _ _ _ Hnew Hes).
            cbn [List.map]. rewrite entry_insert_same, flat_map_app.
            simpl in *. chain_tac2.
          * ctxa.
          * intros nm0 [c Hl]. destruct (decide (Name x = nm0)) as [<-|Hne].
            -- rewrite List.map_app. apply in_or_app. right. left. reflexivity.
            -- rewrite lookup_insert_ne in Hl by exact Hne. apply Hpre, Hin. eauto.
          * apply Forall_app. split.
            -- eapply Forall_impl; [exact Hes|]. intros e0. apply fromWritten_insert.
            -- constructor; [|constructor]. simpl. rewrite lookup_insert_eq. eauto.
        + destruct (negb ok && negb _ || Exported x);
            [|injection Hb as <-; cbn [fst snd];
              split; [split; assumption|split; [intros nm0 Hnm; apply Hpre, Hin, Hnm|exact Hes]]].
          bind_inv Hb as [v g'] Ev.
          pose proof (zero_ctxAfter _ _ _ _ _ _ Ev) as Hv.
          assert (Hrg : renumberable u (incPos g)) by (left; ctxa).
          apply (IH _ _ _ _ _ Hrg) in Ev.
          pose proof (chain_le _ _ _ Ev).
          destruct (isNil v); simpl in Hb; injection Hb as <-; cbn [fst snd] in *.
          * split; [split; [simpl in *; chain_tac2|ctxa]|].
            split; [intros nm0 Hnm; apply Hpre, Hin, Hnm|exact Hes].
          * split; [split; [|ctxa]|].
            -- rewrite List.map_app, flat_map_app. simpl in *. chain_tac2.
            -- split; [intros nm0 Hnm; apply Hpre, Hin, Hnm|].
               apply Forall_app. split; [exact Hes|]. constructor; [exact I|constructor]. }
    destruct Hloop as [Hc Hg]. pose proof (chain_le _ _ _ Hc). unfold ents in Hc.
    assert (Hex : existing f1 = existing f) by (destruct Hg as (_ & Hex & _); exact Hex).
    simpl in *.
    injection H as <- <-. destruct (0 <? n); simpl; rewrite Hex; chain_tac2.
Qed.

(** ** The entries of the literal being filled *)

Lemma collectExisting_Done elts : forall m m',
  collectExisting elts m = Done m' ->
  (forall nm kv, m' !! nm = Some kv -> m !! nm = Some kv \/ In kv elts) /\
  (keyed m -> keyed m').
Proof.
  induction elts as [|e elts IH]; intros m m' H; simpl in H.
  - injection H as <-. split; auto.
  - destruct e; try discriminate. destruct e1; try discriminate.
    apply IH in H as [Hin Hk]. split.
    + intros nm kv Hl. apply Hin in Hl as [Hl|Hl]; [|right; right; exact Hl].
      apply lookup_insert_Some in Hl as [[_ <-]|[_ Hl]]; [right; left|left]; auto.
    + intros Hm. apply Hk. intros nm kv Hl.
      apply lookup_insert_Some in Hl as [[<- <-]|[_ Hl]]; [reflexivity|auto].
Qed.

Lemma collectExisting_Panic elts : forall m,
  Exists (fun e => entryName e = None) elts ->
  collectExisting elts m = Panic TypeAssertion.
Proof.
  induction elts as [|e elts IH]; intros m H; [inversion H|].
  simpl. destruct e; try reflexivity. destruct e1; try reflexivity.
  apply IH. inversion H as [? ? Hhd|]; [discriminate Hhd|assumption].
Qed.

(** C10.  A literal with an entry that is not a key/value pair keyed by a
    plain identifier (a positional entry, or a key of another form) makes
    [zeroValue] panic on a failed type assertion while it fills
    [f.existing]: no filled literal and no error value is returned. *)
Theorem zeroValue_panics_on_unkeyed_entry fuel pk lit_Elts info :
  Exists (fun e => entryName e = None) lit_Elts ->
  zeroValue u typeString fuel pk lit_Elts info = Panic TypeAssertion.
Proof.
  intros H. unfold zeroValue. rewrite (collectExisting_Panic _ _ H). reflexivity.
Qed.

(** C4 (amended).  Markers are assigned in pre-order, in the order the tokens
    are printed.  When every entry of the literal being filled is built from
    the node kinds [fixExprPos] walks through completely, and is keyed by a
    name that at most one field of a struct has, the set position markers of
    the synthesized expression (the colons of key/value pairs aside), read
    in the order the tokens are printed, never decrease and start at 1.
    Every call of [zero] leaves the counter at least where it found it, and
    the markers of the value a call below the outermost struct level returns,
    read in the same order, never decrease and lie between the counter the
    call found and the counter it left: a sub-expression is numbered after
    what is printed before it and before what is printed after it.  Inside
    the field loop the counter does step back by one after a field whose
    value is nil. *)
Theorem markers_climb fuel pk lit_Elts info e n :
  Forall (fun kv => walked kv = true) lit_Elts ->
  Forall (fun kv => forall nm, entryName kv = Some nm -> namesOneField u nm) lit_Elts ->
  zeroValue u typeString fuel pk lit_Elts info = Done (e, n) ->
  StronglySorted Z.le (validMarkers e) /\
  Forall (fun p => 1 <= p) (validMarkers e) /\
  (forall fuel' info' visited f r f',
     zero fuel' info' visited f = Done (r, f') -> pos f <= pos f') /\
  (forall fuel' info' visited f r f',
     first f = false ->
     zero fuel' info' visited f = Done (r, f') ->
     StronglySorted Z.le (validMarkers r) /\
     Forall (fun p => pos f <= p <= pos f') (validMarkers r)).
Proof.
  intros Hw Hone H. unfold zeroValue in H. bind_inv H as m Em.
  bind_inv H as [e' f'] Ez. injection H as <- <-.
  apply collectExisting_Done in Em as [Hin Hk].
  assert (Hkeyed : keyed m).
  { apply Hk. intros nm kv Hl. rewrite lookup_empty in Hl. discriminate. }
  apply zero_chain in Ez.
  - apply chain_sorted in Ez as [Hs Hb]. split; [exact Hs|]. split; [|split].
    + eapply Forall_impl; [exact Hb|]. simpl. intros; lia.
    + intros fuel' info' visited f r f'' Hz. apply zero_ctxAfter in Hz. ctxa.
    + intros fuel' info' visited f r f'' Hf Hz. apply zero_chain in Hz; [|left; exact Hf].
      apply chain_sorted in Hz. exact Hz.
  - right. simpl. intros nm kv Hl. pose proof (Hkeyed nm kv Hl) as Hnm.
    apply Hin in Hl as [Hl|Hl].
    + rewrite lookup_empty in Hl. discriminate.
    + rewrite Forall_forall in Hw, Hone. apply list_elem_of_In in Hl. split.
      * apply Hw. exact Hl.
      * apply (Hone kv Hl). exact Hnm.
Qed.

(** ** Which fields get an entry *)

Lemma entryName_shape e : entryName (shape e) = entryName e.
Proof. destruct e; try reflexivity. destruct e1; reflexivity. Qed.

Lemma fixExprPos_entryName e f : entryName (fixExprPos e f).1 = entryName e.
Proof.
  rewrite <- entryName_shape, <- (entryName_shape e).
  destruct (fixExprPos_keeps_shape e f) as (_ & -> & _). reflexivity.
Qed.

Lemma lookup_ok_true m nm kv : lookup_ok m nm = (kv, true) <-> m !! nm = Some kv.
Proof.
  unfold lookup_ok. destruct (m !! nm); split; intros H; try discriminate; congruence.
Qed.

Lemma lookup_ok_false m nm kv : lookup_ok m nm = (kv, false) -> m !! nm = None.
Proof. unfold lookup_ok. destruct (m !! nm); intros H; [discriminate|reflexivity]. Qed.

Lemma lookup_ok_None m nm : m !! nm = None -> lookup_ok m nm = (Nil, false).
Proof. unfold lookup_ok. intros ->. reflexivity. Qed.

(** One round of the field loop leaves the context as [zero] does. *)
Lemma zeroField_ctxAfter fuel fst imp visited es n g w x es' n' g' w' :
  zeroField (zero fuel) fst imp visited (es, n, g, w) x = Done (es', n', g', w') ->
  ctxAfter g g'.
Proof.
  intros Hb. unfold zeroField in Hb.
  destruct (lookup_ok (existing g) (Name x)) as [kv ok].
  destruct (fst && ok).
  - pose proof (fixExprPos_ctxAfter (current w (Name x) kv) (incPos g)) as Hf.
    destruct (fixExprPos _ (incPos g)) as [kv' g0]. injection Hb as <- <- <- <-.
    simpl in *. ctxa.
  - destruct (negb ok && negb imp || Exported x);
      [|injection Hb as <- <- <- <-; apply ctxAfter_refl].
    bind_inv Hb as [v g0] Ev. pose proof Ev as Hn.
    apply zero_ctxAfter in Ev. apply zero_isNil in Hn as [_ Hn].
    destruct (isNil v); simpl in Hb; injection Hb as <- <- <- <-; simpl in *.
    + specialize (Hn eq_refl). subst g0. ctxa.
    + ctxa.
Qed.

(** One round of the field loop keeps track of the nodes it writes. *)
Lemma zeroField_tracks zero' fst imp visited es n g w x es' n' g' w' :
  zeroField zero' fst imp visited (es, n, g, w) x = Done (es', n', g', w') ->
  tracks (existing g) w es -> tracks (existing g) w' es'.
Proof.
  intros Hb [Hw Hes]. unfold zeroField in Hb.
  destruct (lookup_ok (existing g) (Name x)) as [kv ok] eqn:Hkv.
  destruct (fst && ok) eqn:Hfo.
  - apply andb_true_iff in Hfo as [_ ->]. apply lookup_ok_true in Hkv.
    assert (Hs : shape (fixExprPos (current w (Name x) kv) (incPos g)).1 = shape kv).
    { destruct (fixExprPos_keeps_shape (current w (Name x) kv) (incPos g))
        as (_ & -> & _).
      unfold current. destruct (w !! Name x) as [c|] eqn:Hl; [|reflexivity].
      destruct (Hw _ _ Hl) as (kv0 & Hkv0 & Hc). congruence. }
    destruct (fixExprPos _ (incPos g)) as [kv' g0]. injection Hb as <- <- <- <-.
    split.
    + intros nm c Hl. apply lookup_insert_Some in Hl as [[<- <-]|[_ Hl]]; eauto.
    + apply Forall_app. split.
      * eapply Forall_impl; [exact Hes|]. intros e. apply fromWritten_insert.
      * constructor; [|constructor]. simpl. rewrite lookup_insert_eq. eauto.
  - destruct (negb ok && negb imp || Exported x);
      [|injection Hb as <- <- <- <-; split; assumption].
    bind_inv Hb as [v g0] Ev.
    destruct (isNil v); simpl in Hb; injection Hb as <- <- <- <-.
    + split; assumption.
    + split; [exact Hw|]. apply Forall_app. split; [exact Hes|].
      constructor; [exact I|constructor].
Qed.

Lemma entries_made ex w ex' w' es :
  Forall made es -> List.map (entry ex w) es = List.map (entry ex' w') es.
Proof.
  intros Hm. apply map_ext_in. intros e He. rewrite Forall_forall in Hm.
  apply list_elem_of_In in He. specialize (Hm e He). destruct e; [reflexivity|].
  contradiction.
Qed.

Lemma tracks_empty ex : tracks ex ∅ [].
Proof.
  split; [|constructor]. intros nm c Hl. rewrite lookup_empty in Hl. discriminate.
Qed.

(** The entries of the literal are keyed as the elements of the loop are. *)
Lemma entries_names ex w es :
  keyed ex -> tracks ex w es ->
  List.map entryName (List.map (entry ex w) es) = List.map eltName es.
Proof.
  intros Hk [Hw Hes]. rewrite List.map_map. apply map_ext_in. intros e He.
  rewrite Forall_forall in Hes. apply list_elem_of_In in He. specialize (Hes e He).
  destruct e as [kv|nm]; [reflexivity|]. simpl in *. destruct Hes as [c Hc].
  unfold node, current. rewrite Hc. destruct (Hw _ _ Hc) as (kv & Hkv & Hs).
  rewrite <- entryName_shape, Hs, entryName_shape. apply Hk. exact Hkv.
Qed.

(** The names of the entries of a struct literal [zero] returns. *)
Lemma zero_entry_names fuel info s visited f ty lb elts rb f' :
  typ info = Struct s ->
  seen s visited = false ->
  keyed (existing f) ->
  (first f = true \/
   forall field, In field (StructFields u s) -> existing f !! Name field = None) ->
  zero (S fuel) info visited f = Done (CompositeLit ty lb elts rb, f') ->
  List.map entryName elts =
  List.map (fun field => Some (Name field))
           (List.filter (keeps u typeString fuel f info) (StructFields u s)).
Proof.
  intros Ht Hseen Hkeyed Hlevel H. simpl in H. rewrite Ht in H.
  destruct (structTypeName typeString (pkg f) info s) as [ty'|]; [|discriminate].
  rewrite Hseen in H. bind_inv H as [[[es n] g] w] E.
  enough (G : (ctxAfter (setFirst false f) (es, n, g, w).1.2 /\
               tracks (existing f) (es, n, g, w).2 (es, n, g, w).1.1.1) /\
              List.map eltName (es, n, g, w).1.1.1 =
              List.map (fun field => Some (Name field))
                (List.filter (keeps u typeString fuel f info) (StructFields u s))).
  { destruct G as [[Hg Htr] Hes]. cbn [fst snd] in *.
    assert (Hex : existing g = existing f) by (destruct Hg as (_ & Hg & _); exact Hg).
    assert (Helts : elts = List.map (entry (existing f) w) es).
    { destruct (0 <? n); simpl in H; rewrite Hex in H; congruence. }
    subst elts. rewrite (entries_names _ _ _ Hkeyed Htr). exact Hes. }
  clear H. revert E.
  apply forEach_ind with
    (I := fun pre st =>
            (ctxAfter (setFirst false f) st.1.2 /\ tracks (existing f) st.2 st.1.1.1) /\
            List.map eltName st.1.1.1 =
            List.map (fun field => Some (Name field))
                     (List.filter (keeps u typeString fuel f info) pre)).
  { split; [split; [apply ctxAfter_refl|apply tracks_empty]|reflexivity]. }
  intros pre x [[[es0 n0] g0] w0] [[[es1 n1] g1] w1] Hin [[Hg Htr] Hes] Hb.
  cbn [fst snd] in *.
  assert (Hex : existing g0 = existing f) by (destruct Hg as (_ & Hg & _); exact Hg).
  assert (Hpk : pkg g0 = pkg f) by (destruct Hg as (Hg & _); exact Hg).
  split; [split|].
  { eapply ctxAfter_trans; [exact Hg|eapply zeroField_ctxAfter; exact Hb]. }
  { rewrite <- Hex. eapply zeroField_tracks; [exact Hb|]. rewrite Hex. exact Htr. }
  rewrite List.filter_app, List.map_app. simpl.
  unfold zeroField in Hb. unfold keeps at 2.
  destruct (lookup_ok (existing g0) (Name x)) as [kv ok] eqn:Hkv.
  rewrite Hex in Hkv. destruct ok.
  - (* the user wrote an entry of this name *)
    apply lookup_ok_true in Hkv. rewrite Hkv.
    destruct Hlevel as [Hfst|Hnone];
      [|rewrite (Hnone x Hin) in Hkv; discriminate].
    rewrite Hfst in Hb. simpl in Hb.
    destruct (fixExprPos _ (incPos g0)) as [kv' g']. injection Hb as <- <- <- <-.
    simpl in *. rewrite List.map_app, Hes. reflexivity.
  - apply lookup_ok_false in Hkv. rewrite Hkv.
    rewrite andb_false_r in Hb. simpl in Hb. unfold visible.
    destruct (negb (isImported u (pkg f) (name info)) || Exported x); simpl.
    + bind_inv Hb as [v g'] Ev. apply zero_isNil in Ev as [Ev _]. simpl in Ev.
      rewrite Hpk in Ev. unfold fieldInfo. rewrite <- Ev.
      destruct (isNil v); simpl in *; injection Hb as <- <- <- <-.
      * rewrite app_nil_r. exact Hes.
      * rewrite List.map_app, Hes. reflexivity.
    + injection Hb as <- <- <- <-. rewrite app_nil_r. exact Hes.
Qed.

(** C1 (amended).  At any level of the descent, for a struct that is not
    among its ancestors: provided the level is the outermost one, or none of
    its fields has the name of an entry of the literal being filled, the
    emitted literal has exactly one key/value entry, in field order, for each
    field the user wrote an entry for (outermost level) and for each other
    field that is visible (struct of the literal's package or unnamed, or
    field exported) and whose value is not nil; no other field gets an entry
    or a placeholder. *)
Theorem entries_follow_fields fuel info s visited f ty lb elts rb f' :
  typ info = Struct s ->
  seen s visited = false ->
  keyed (existing f) ->
  (first f = true \/
   forall field, In field (StructFields u s) -> existing f !! Name field = None) ->
  zero (S fuel) info visited f = Done (CompositeLit ty lb elts rb, f') ->
  List.map entryName elts =
  List.map (fun field => Some (Name field))
           (List.filter (keeps u typeString fuel f info) (StructFields u s)).
Proof. apply zero_entry_names. Qed.

(** ** Structs that are their own ancestors *)

(** A struct found among its ancestors is rendered with its type name and no
    entries, at once and without touching the filler. *)
Lemma zero_seen fuel info s visited f ty :
  typ info = Struct s ->
  seen s visited = true ->
  structTypeName typeString (pkg f) info s = Some ty ->
  zero (S fuel) info visited f = Done (CompositeLit ty (pos f) [] NoPos, f).
Proof. intros Ht Hs Hty. simpl. rewrite Ht, Hty, Hs. reflexivity. Qed.

(** ** The arms of [zero], one call at a time *)

Lemma zero_Named_eq fuel n nm h p visited f :
  zero (S fuel) (mkLitInfo (Named n) nm h p) visited f =
  zero fuel (mkLitInfo (Underlying u (Named n))
                       (if isStruct (Underlying u (Named n)) then Some n else nm) h p)
       visited f.
Proof. reflexivity. Qed.

Lemma zero_Map_eq fuel key elem nm h p visited f kn vn :
  typeString (pkg f) key = (kn, true) ->
  typeString (pkg f) elem = (vn, true) ->
  zero (S fuel) (mkLitInfo (Map key elem) nm h p) visited f =
  '(k, f1) ← zero fuel (mkLitInfo key nm true false) visited (incPos f);
  '(v, f2) ← zero fuel (mkLitInfo elem nm true false) visited f1;
  Done (CompositeLit (MapType (pos f) (NewIdent kn) (NewIdent vn)) (pos f)
                     [KeyValueExpr k (pos f2) v] (pos f2 + 1),
        addLines 2 (incPos f2)).
Proof. intros Hk Hv. simpl. rewrite Hk. simpl. rewrite Hv. reflexivity. Qed.

Lemma zero_Array_eq fuel info elem len visited f ty :
  typ info = Array elem len ->
  arrayTypeName typeString (pkg f) info elem len (pos f) = Some ty ->
  zero (S fuel) info visited f =
  '(elts, f1) ← times len (zeroElem (zero fuel) elem visited) ([], f);
  Done (CompositeLit ty (pos f) elts (pos f1 + 1),
        incPos (addLines (Z.of_nat (length elts) + 2) f1)).
Proof. intros Ht Hty. simpl. rewrite Ht, Hty. reflexivity. Qed.

Lemma zero_Struct_eq fuel info s visited f ty :
  typ info = Struct s ->
  structTypeName typeString (pkg f) info s = Some ty ->
  seen s visited = false ->
  zero (S fuel) info visited f =
  '(elts, n, f1, w) ←
    forEach (zeroField (zero fuel) (first f) (isImported u (pkg f) (name info))
                       (visited ++ [s]))
            (StructFields u s) ([], 0, setFirst false f, ∅);
  Done (CompositeLit ty (pos f) (List.map (entry (existing f1) w) elts)
          (pos (if 0 <? n then incPos (addLines (n + 2) f1) else f1)),
        if 0 <? n then incPos (addLines (n + 2) f1) else f1).
Proof.
  intros Ht Hty Hs. simpl. rewrite Ht, Hty, Hs.
  destruct (forEach _ _ _) as [[[[elts n] f1] w]| | |]; try reflexivity.
  simpl. destruct (0 <? n); reflexivity.
Qed.

Lemma forEach_zeroField_ctxAfter fuel fst imp visited fields st st' :
  forEach (zeroField (zero fuel) fst imp visited) fields st = Done st' ->
  ctxAfter st.1.2 st'.1.2.
Proof.
  apply forEach_ind with (I := fun _ s => ctxAfter st.1.2 s.1.2); [apply ctxAfter_refl|].
  intros pre x [[[es n] g] w] [[[es' n'] g'] w'] _ Hg Hb. simpl in *.
  eapply ctxAfter_trans; [exact Hg|]. eapply zeroField_ctxAfter. exact Hb.
Qed.

Lemma forEach_zeroField_tracks fuel fst imp visited fields st st' :
  forEach (zeroField (zero fuel) fst imp visited) fields st = Done st' ->
  tracks (existing st.1.2) st.2 st.1.1.1 ->
  tracks (existing st.1.2) st'.2 st'.1.1.1.
Proof.
  intros H Ht.
  enough (G : ctxAfter st.1.2 st'.1.2 /\ tracks (existing st.1.2) st'.2 st'.1.1.1)
    by apply G.
  revert H.
  apply forEach_ind with
    (I := fun _ s => ctxAfter st.1.2 s.1.2 /\ tracks (existing st.1.2) s.2 s.1.1.1);
    [split; [apply ctxAfter_refl|exact Ht]|].
  intros pre x [[[es n] g] w] [[[es' n'] g'] w'] _ [Hg Htr] Hb. simpl in *.
  assert (Hex : existing g = existing st.1.2) by (destruct Hg as (_ & Hg & _); exact Hg).
  split; [eapply ctxAfter_trans; [exact Hg|]; eapply zeroField_ctxAfter; exact Hb|].
  rewrite <- Hex. eapply zeroField_tracks; [exact Hb|]. rewrite Hex. exact Htr.
Qed.

(** The local [lines] of the field loop counts the entries appended. *)
Lemma zeroField_counts zero' fst imp visited es n g w x es' n' g' w' :
  zeroField zero' fst imp visited (es, n, g, w) x = Done (es', n', g', w') ->
  n = Z.of_nat (length es) -> n' = Z.of_nat (length es').
Proof.
  intros Hb Hn. unfold zeroField in Hb.
  destruct (lookup_ok (existing g) (Name x)) as [kv ok].
  destruct (fst && ok).
  - destruct (fixExprPos _ (incPos g)) as [kv' g0]. injection Hb as <- <- <- <-.
    rewrite length_app. simpl. lia.
  - destruct (negb ok && negb imp || Exported x);
      [|injection Hb as <- <- <- <-; exact Hn].
    bind_inv Hb as [v g0] Ev.
    destruct (isNil v); simpl in Hb; injection Hb as <- <- <- <-; [exact Hn|].
    rewrite length_app. simpl. lia.
Qed.

Lemma forEach_zeroField_counts zero' fst imp visited fields f elts n f1 w :
  forEach (zeroField zero' fst imp visited) fields ([], 0, f, ∅) = Done (elts, n, f1, w) ->
  n = Z.of_nat (length elts).
Proof.
  intros H.
  change ((elts, n, f1, w).1.1.2 = Z.of_nat (length (elts, n, f1, w).1.1.1)). revert H.
  apply forEach_ind with (I := fun _ st => st.1.1.2 = Z.of_nat (length st.1.1.1));
    [reflexivity|].
  intros pre x [[[es0 n0] g0] w0] [[[es1 n1] g1] w1] _ Hn Hb. simpl in Hn |- *.
  eapply zeroField_counts; eassumption.
Qed.

(** C5 (amended).  When a literal closes, the line accumulator grows, over
    its value once the entries are synthesized, by exactly 2 for a map
    literal (which always has one entry); by the number of emitted elements
    plus 2 for an array literal, also when no element was emitted; by the
    number of entries plus 2 for a struct literal with at least one entry and
    by nothing for a struct literal without entries; and likewise by the
    number of elements plus 2, or nothing when there is none, for a composite
    literal inside a reused entry. *)
Theorem lines_added_on_closing :
  (forall fuel info key elem visited f kn vn k f1 v f2,
     typ info = Map key elem ->
     typeString (pkg f) key = (kn, true) ->
     typeString (pkg f) elem = (vn, true) ->
     zero fuel (mkLitInfo key (name info) true false) visited (incPos f) = Done (k, f1) ->
     zero fuel (mkLitInfo elem (name info) true false) visited f1 = Done (v, f2) ->
     exists ty lb colon rb f',
       zero (S fuel) info visited f =
         Done (CompositeLit ty lb [KeyValueExpr k colon v] rb, f') /\
       lines f' = lines f2 + 2) /\
  (forall fuel info elem len visited f ty elts f1,
     typ info = Array elem len ->
     arrayTypeName typeString (pkg f) info elem len (pos f) = Some ty ->
     times len (zeroElem (zero fuel) elem visited) ([], f) = Done (elts, f1) ->
     exists rb f',
       zero (S fuel) info visited f = Done (CompositeLit ty (pos f) elts rb, f') /\
       lines f' = lines f1 + (Z.of_nat (length elts) + 2)) /\
  (forall fuel info s visited f ty elts n f1 written,
     typ info = Struct s ->
     structTypeName typeString (pkg f) info s = Some ty ->
     seen s visited = false ->
     forEach (zeroField (zero fuel) (first f) (isImported u (pkg f) (name info))
                        (visited ++ [s]))
             (StructFields u s) ([], 0, setFirst false f, ∅) =
       Done (elts, n, f1, written) ->
     exists rb f',
       zero (S fuel) info visited f =
         Done (CompositeLit ty (pos f) (List.map (entry (existing f) written) elts) rb,
               f') /\
       lines f' = lines f1 +
                  (if 0 <? Z.of_nat (length elts) then Z.of_nat (length elts) + 2 else 0)) /\
  (forall ty lb elts rb f,
     let r1 := fixExprPos ty f in
     let r2 := fixEach (fun e f => fixExprPos e (incPos f)) elts r1.2 in
     lines (fixExprPos (CompositeLit ty lb elts rb) f).2 =
     lines r2.2 +
     (if 0 <? Z.of_nat (length elts) then Z.of_nat (length elts) + 2 else 0)).
Proof.
  repeat apply conj.
  - intros fuel [t nm h p] key elem visited f kn vn k f1 v f2 Ht Hk Hv Ek Ev.
    simpl in Ht. subst t. rewrite (zero_Map_eq _ _ _ _ _ _ _ _ kn vn Hk Hv).
    simpl in Ek, Ev. rewrite Ek. simpl. rewrite Ev. simpl.
    eexists _, _, _, _, _. split; reflexivity.
  - intros fuel info elem len visited f ty elts f1 Ht Hty Hloop.
    rewrite (zero_Array_eq _ _ _ _ _ _ _ Ht Hty), Hloop. simpl.
    eexists _, _. split; reflexivity.
  - intros fuel info s visited f ty elts n f1 written Ht Hty Hs Hloop.
    rewrite (zero_Struct_eq _ _ _ _ _ _ Ht Hty Hs), Hloop. simpl.
    pose proof (forEach_zeroField_ctxAfter _ _ _ _ _ _ _ Hloop) as (_ & Hex & _).
    simpl in Hex. rewrite Hex.
    apply forEach_zeroField_counts in Hloop. subst n.
    eexists _, _. split; [reflexivity|].
    destruct (0 <? Z.of_nat (length elts)); simpl; lia.
  - intros ty lb elts rb f r1 r2. subst r1 r2. simpl.
    destruct (fixExprPos ty f) as [ty' f1]. simpl.
    assert (Hall : Forall (keeps_shape (fun e f => fixExprPos e (incPos f))) elts).
    { apply Forall_forall. intros e _.
      apply keeps_shape_incPos, fixExprPos_keeps_shape. }
    destruct (fixEach_keeps_shape _ elts Hall f1) as (_ & _ & _ & _ & Hn).
    destruct (fixEach _ elts f1) as [elts' f2]. simpl in *. rewrite Hn.
    destruct (0 <? Z.of_nat (length elts)); simpl; lia.
Qed.

(** ** Values that are nil *)

Lemma bind_Done_eq {A B : Type} (a : A) (k : A -> result B) : Done a ≫= k = k a.
Proof. reflexivity. Qed.

Lemma forEach_cons {A St : Type} (body : St -> A -> result St) x xs st :
  forEach body (x :: xs) st = body st x ≫= forEach body xs.
Proof. reflexivity. Qed.

Lemma decPos_incPos f : decPos (incPos f) = f.
Proof.
  destruct f as [pk p l ex fst]. unfold decPos, incPos, setPos. simpl.
  f_equal. lia.
Qed.


(** A field that is not reused and whose value is nil leaves the loop state
    as it was. *)
Lemma zeroField_skips_nil zero' fst imp visited es n g w x :
  (fst = false \/ existing g !! Name x = None) ->
  zero' (fieldInfo x) visited (incPos g) = Done (Nil, incPos g) ->
  zeroField zero' fst imp visited (es, n, g, w) x = Done (es, n, g, w).
Proof.
  intros Hnew Hz. unfold zeroField.
  destruct (lookup_ok (existing g) (Name x)) as [kv ok] eqn:Hkv.
  assert (Hfo : fst && ok = false).
  { destruct Hnew as [->|Hnone]; [reflexivity|].
    rewrite (lookup_ok_None _ _ Hnone) in Hkv. injection Hkv as <- <-.
    apply andb_false_r. }
  rewrite Hfo. destruct (negb ok && negb imp || Exported x); [|reflexivity].
  unfold fieldInfo in Hz. rewrite Hz. simpl. rewrite decPos_incPos. reflexivity.
Qed.

(** On the paths [yieldsNil] lists, [zero] does return, with nil. *)
Lemma zero_yieldsNil fuel : forall info visited f,
  yieldsNil fuel (pkg f) info = true -> zero fuel info visited f = Done (Nil, f).
Proof.
  induction fuel as [|fuel IH]; intros [t nm h p] visited f H; [discriminate|].
  destruct t; simpl in H |- *; try discriminate.
  - destruct k; try discriminate; reflexivity.
  - destruct (typeString (pkg f) t1) as [kn [|]]; simpl in *; [|reflexivity].
    destruct (typeString (pkg f) t2) as [vn [|]]; simpl in *; [discriminate|reflexivity].
  - rewrite (arrayTypeName_None_iff (pkg f) _ t len (pos f) NoPos) in H.
    destruct (arrayTypeName typeString (pkg f) _ t len (pos f)); [discriminate|reflexivity].
  - apply IH. exact H.
  - destruct (isStruct (Underlying u t)); [apply IH; exact H|discriminate].
  - destruct (structTypeName typeString (pkg f) _ s); [discriminate|reflexivity].
Qed.

Lemma times_total {St : Type} (body : St -> result St) n :
  (forall s, exists s', body s = Done s') ->
  forall st, exists st', times n body st = Done st'.
Proof.
  intros Hb. induction n as [|n IH]; intros st; simpl; [eauto|].
  destruct (Hb st) as [s' ->]. simpl. apply IH.
Qed.

(** C7 (amended).  An array literal that [zero] returns for an array type
    of length N has exactly N elements when the value of the element type is
    not nil, and none when it is nil (a nil element is left out each time
    round); every element is a value [zero] returned for the element type
    with the type hidden.  And [zero] does return such a literal as soon as
    the type in front can be spelled and the calls for the elements return. *)
Theorem array_elements :
  (forall fuel info elem len visited f ty lb elts rb f',
     typ info = Array elem len ->
     zero (S fuel) info visited f = Done (CompositeLit ty lb elts rb, f') ->
     let elemInfo := mkLitInfo (Underlying u elem) (asNamed elem) true false in
     length elts = (if yieldsNil fuel (pkg f) elemInfo then 0 else len)%nat /\
     Forall (fun e => isNil e = false /\
                      exists g g', zero fuel elemInfo visited g = Done (e, g')) elts) /\
  (forall fuel info elem len visited f ty,
     typ info = Array elem len ->
     arrayTypeName typeString (pkg f) info elem len (pos f) = Some ty ->
     let elemInfo := mkLitInfo (Underlying u elem) (asNamed elem) true false in
     (forall g, exists r, zero fuel elemInfo visited g = Done r) ->
     exists elts rb f',
       zero (S fuel) info visited f = Done (CompositeLit ty (pos f) elts rb, f')).
Proof.
  split.
  - intros fuel info elem len visited f ty lb elts rb f' Ht H elemInfo.
    simpl in H. rewrite Ht in H.
    destruct (arrayTypeName typeString (pkg f) info elem len (pos f)) as [ty'|];
      [|discriminate].
    bind_inv H as [es g] Eloop. injection H as _ _ <- _ _.
    enough (G : ctxAfter f (es, g).2 /\
                length (es, g).1 =
                  (if yieldsNil fuel (pkg f) elemInfo then 0 else len)%nat /\
                Forall (fun e => isNil e = false /\
                          exists g g', zero fuel elemInfo visited g = Done (e, g'))
                       (es, g).1) by apply G.
    revert Eloop.
    apply times_ind with
      (I := fun i st =>
              ctxAfter f st.2 /\
              length st.1 = (if yieldsNil fuel (pkg f) elemInfo then 0 else i)%nat /\
              Forall (fun e => isNil e = false /\
                        exists g g', zero fuel elemInfo visited g = Done (e, g')) st.1).
    { split; [apply ctxAfter_refl|]. split; [destruct (yieldsNil _ _ _); reflexivity|].
      constructor. }
    intros i [es0 g0] [es1 g1] (Hg & Hlen & Hall) Hb. unfold zeroElem in Hb.
    bind_inv Hb as [v g'] Ev. fold elemInfo in Ev.
    pose proof (zero_ctxAfter _ _ _ _ _ _ Ev) as Hv.
    pose proof (zero_isNil _ _ _ _ _ _ Ev) as [Hn _]. simpl in Hn.
    assert (Hpk : pkg g0 = pkg f) by (destruct Hg as (Hg & _); exact Hg).
    rewrite Hpk in Hn. simpl in Hlen, Hall |- *.
    destruct (isNil v) eqn:Hv0; simpl in Hb; injection Hb as <- <-;
      rewrite <- Hn in *.
    + split; [ctxa|]. split; assumption.
    + split; [ctxa|]. split; [rewrite length_app; simpl; lia|].
      apply Forall_app. split; [exact Hall|]. constructor; [|constructor].
      split; [exact Hv0|eauto].
  - intros fuel info elem len visited f ty Ht Hty elemInfo Hret.
    rewrite (zero_Array_eq _ _ _ _ _ _ _ Ht Hty).
    destruct (times_total (zeroElem (zero fuel) elem visited) len) with (st := ([] : list Expr, f))
      as [[elts f1] ->].
    + intros [es g]. unfold zeroElem. fold elemInfo.
      destruct (Hret (incPos g)) as [[v g'] ->]. simpl.
      destruct (isNil v); simpl; eauto.
    + simpl. eauto.
Qed.

(** ** The order of the records *)

Lemma swap_Done {A : Type} (l : list A) i j x y :
  l !! i = Some x -> l !! j = Some y ->
  swap l i j = Done (<[j := x]> (<[i := y]> l)).
Proof. intros Hi Hj. unfold swap. rewrite Hi, Hj. reflexivity. Qed.

(** After the rounds [i = k - 1, ..., 0] the first and the last [k] elements
    have changed places, mirrored. *)
Lemma reverseFrom_lookup {A : Type} k : forall l : list A,
  (2 * k <= length l)%nat ->
  exists l', reverseFrom k l = Done l' /\ length l' = length l /\
    forall j, l' !! j =
              if decide (j < k \/ length l - k <= j < length l)%nat
              then l !! (length l - 1 - j)%nat else l !! j.
Proof.
  induction k as [|i IH]; intros l Hk.
  - exists l. split; [reflexivity|]. split; [reflexivity|]. intros j.
    destruct (decide _) as [[H|H]|H]; [lia|lia|reflexivity].
  - simpl.
    destruct (lookup_lt_is_Some_2 l i) as [x Hx]; [lia|].
    destruct (lookup_lt_is_Some_2 l (length l - 1 - i)) as [y Hy]; [lia|].
    rewrite (swap_Done _ _ _ _ _ Hx Hy). simpl.
    set (l1 := <[(length l - 1 - i)%nat := x]> (<[i := y]> l)).
    assert (Hlen : length l1 = length l) by (unfold l1; rewrite !length_insert; reflexivity).
    destruct (IH l1) as (l' & Hrun & Hlen' & Hl'); [lia|].
    exists l'. split; [exact Hrun|]. split; [lia|]. intros j.
    rewrite Hl', Hlen.
    assert (Hl1 : forall m, l1 !! m =
              if decide (m = length l - 1 - i)%nat then
                (if decide (m < length l)%nat then Some x else None)
              else if decide (m = i) then Some y else l !! m).
    { intros m. unfold l1. destruct (decide (m = length l - 1 - i)%nat) as [->|Hm].
      - destruct (decide _); [rewrite list_lookup_insert_eq; [reflexivity|]|lia].
        rewrite length_insert. lia.
      - rewrite list_lookup_insert_ne by lia.
        destruct (decide (m = i)) as [->|Hm'].
        + rewrite list_lookup_insert_eq; [reflexivity|lia].
        + rewrite list_lookup_insert_ne by lia. reflexivity. }
    rewrite !Hl1.
    repeat (destruct (decide _)); subst; try lia; try reflexivity;
      try congruence.
    replace (length l - 1 - (length l - 1 - i))%nat with i by lia.
    symmetry. exact Hx.
Qed.

Lemma reverseOuts_reverse {A : Type} (l : list A) : reverseOuts l = Done (reverse l).
Proof.
  unfold reverseOuts.
  destruct (reverseFrom_lookup (length l / 2) l) as (l' & -> & Hlen & Hl').
  { pose proof (Nat.Div0.mul_div_le (length l) 2). lia. }
  f_equal. apply list_eq. intros j.
  destruct (decide (j < length l)%nat) as [Hj|Hj].
  - rewrite reverse_lookup by exact Hj. rewrite Hl'.
    destruct (decide _) as [H|H]; f_equal; [lia|].
    pose proof (Nat.div_mod_eq (length l) 2).
    pose proof (Nat.mod_upper_bound (length l) 2). lia.
  - rewrite (proj2 (lookup_ge_None _ _)) by lia.
    symmetry. apply lookup_ge_None. rewrite length_reverse. lia.
Qed.

Lemma Forall_sublist {A : Type} (Q : A -> Prop) (l1 l2 : list A) :
  sublist l1 l2 -> Forall Q l2 -> Forall Q l1.
Proof.
  induction 1 as [|x l1 l2 _ IH|x l1 l2 _ IH]; intros H; [constructor| |].
  - apply Forall_cons in H as [Hx H]. constructor; auto.
  - apply Forall_cons in H as [_ H]. auto.
Qed.

Lemma StronglySorted_sublist {A : Type} (R : relation A) (l1 l2 : list A) :
  sublist l1 l2 -> StronglySorted R l2 -> StronglySorted R l1.
Proof.
  induction 1 as [|x l1 l2 Hsub IH|x l1 l2 _ IH]; intros H; [constructor| |].
  - apply StronglySorted_inv in H as [H Hx]. constructor; [auto|].
    eapply Forall_sublist; eassumption.
  - apply StronglySorted_inv in H as [H _]. auto.
Qed.

Lemma StronglySorted_reverse {A : Type} (R : relation A) (l : list A) :
  StronglySorted R l -> StronglySorted (flip R) (reverse l).
Proof.
  induction 1 as [|x l _ IH Hx]; [constructor|].
  rewrite reverse_cons. apply StronglySorted_app_2; [|exact IH|repeat constructor].
  intros a b Ha Hb. apply list_elem_of_singleton in Hb as ->.
  rewrite Forall_forall in Hx. apply Hx. apply elem_of_reverse. exact Ha.
Qed.

Section DriverProperties.

Variable format_Node : Z -> Expr -> error + string.
Variable PathEnclosingInterval : File -> Pos -> Pos -> list Node.

Local Abbreviation visit := (visitLit u typeString format_Node).

Lemma Inspect_eq {St : Type} (visit : Node -> St -> result (St * bool)) n st :
  Inspect visit n st =
  match visit n st with
  | Done (st, true) => forEach (fun st c => Inspect visit c st) (children n) st
  | Done (st, false) => Done st
  | Fail e => Fail e
  | Panic p => Panic p
  | OutOfFuel => OutOfFuel
  end.
Proof. destruct n; reflexivity. Qed.

(** The visitor appends at most one record, for the literal it is called on. *)
Lemma visitLit_outs fuel pk line n st st1 b :
  visit fuel pk line n st = Done (st1, b) ->
  outs st1 = outs st \/
  exists lit cs out,
    n = CompositeLitNode lit cs /\ outs st1 = outs st ++ [out] /\
    Start out = litStartOff lit /\ b = false.
Proof.
  intros H. destruct n as [lit cs|ty cs|cs]; simpl in H;
    try (injection H as <- <-; left; reflexivity).
  destruct (negb _); [injection H as <- <-; left; reflexivity|].
  destruct (Underlying u (litType lit));
    try (injection H as <- <-; left; reflexivity).
  bind_inv H as [newlit n] Ez. unfold prepareOutput in H.
  destruct (format_Node n newlit) as [e|code]; injection H as <- <-.
  - left. reflexivity.
  - right. eexists _, _, _. repeat split.
Qed.

Lemma Inspect_outs fuel pk line n : forall st st',
  Inspect (visit fuel pk line) n st = Done st' ->
  exists extra,
    outs st' = outs st ++ extra /\
    sublist (List.map Start extra) (List.map litStartOff (literals n)).
Proof.
  assert (Hkids : forall cs,
    Forall (fun c => forall st st',
              Inspect (visit fuel pk line) c st = Done st' ->
              exists extra,
                outs st' = outs st ++ extra /\
                sublist (List.map Start extra) (List.map litStartOff (literals c))) cs ->
    forall st st',
      forEach (fun st c => Inspect (visit fuel pk line) c st) cs st = Done st' ->
      exists extra,
        outs st' = outs st ++ extra /\
        sublist (List.map Start extra)
                (List.map litStartOff (flat_map literals cs))).
  { induction 1 as [|c cs Hc _ IH]; intros st st' H; simpl in H.
    - injection H as <-. exists []. rewrite app_nil_r. split; [reflexivity|constructor].
    - bind_inv H as st1 E1. apply Hc in E1 as (x1 & Hx1 & Hs1).
      apply IH in H as (x2 & Hx2 & Hs2). exists (x1 ++ x2).
      split; [rewrite Hx2, Hx1, app_assoc; reflexivity|].
      simpl. rewrite !List.map_app. apply sublist_app; assumption. }
  induction n as [lit cs IH|ty cs IH|cs IH] using Node_nested_ind;
    intros st st' H; rewrite Inspect_eq in H;
    destruct (visit fuel pk line _ st) as [[st1 b]| | |] eqn:Ev; try discriminate;
    apply visitLit_outs in Ev as [Ho|(lit' & cs' & out & Hn & Ho & Hs & ->)];
    try discriminate Hn.
  - destruct b.
    + apply (Hkids _ IH) in H as (x & Hx & Hsub). exists x.
      split; [congruence|]. simpl. apply sublist_cons. exact Hsub.
    + injection H as <-. exists []. rewrite app_nil_r.
      split; [exact Ho|apply sublist_nil_l].
  - injection Hn as <- <-. injection H as <-. exists [out].
    split; [exact Ho|]. simpl. rewrite Hs. apply sublist_skip, sublist_nil_l.
  - destruct b.
    + apply (Hkids _ IH) in H as (x & Hx & Hsub). exists x.
      split; [congruence|exact Hsub].
    + injection H as <-. exists []. rewrite app_nil_r.
      split; [exact Ho|apply sublist_nil_l].
  - destruct b.
    + apply (Hkids _ IH) in H as (x & Hx & Hsub). exists x.
      split; [congruence|exact Hsub].
    + injection H as <-. exists []. rewrite app_nil_r.
      split; [exact Ho|apply sublist_nil_l].
Qed.

(** C9.  A query by offset that succeeds writes exactly one record.  A
    query by line that succeeds writes the records the traversal collected
    (one per struct literal it stopped at, possibly many), in the reverse of
    the order in which it collected them: as the traversal meets the
    literals of the file by increasing start offset, the record of the
    literal that starts last comes first and that of the literal that starts
    first comes last. *)
Theorem query_records :
  (forall fuel files path pk offset records,
     byOffset u typeString format_Node PathEnclosingInterval fuel files path pk offset
     = Done records ->
     length records = 1%nat) /\
  (forall fuel files path pk line records,
     byLine u typeString format_Node fuel files path pk line = Done records ->
     exists f st,
       lastFile files path None = Some f /\
       Inspect (visit fuel pk line) (fileAST f) (mkLineState [] None None) = Done st /\
       records = reverse (outs st) /\
       sublist (List.map Start (outs st))
               (List.map litStartOff (literals (fileAST f))) /\
       (StronglySorted Z.lt (List.map litStartOff (literals (fileAST f))) ->
        StronglySorted (flip Z.lt) (List.map Start records))).
Proof.
  split.
  - intros fuel files path pk offset records H. unfold byOffset in H.
    bind_inv H as [f p] E1. bind_inv H as [lit info] E2.
    bind_inv H as [newlit n] E3.
    destruct (prepareOutput _ _ _ _ _) as [e|out]; [discriminate|].
    injection H as <-. reflexivity.
  - intros fuel files path pk line records H. unfold byLine in H.
    destruct (lastFile files path None) as [f|] eqn:Ef; [|discriminate].
    bind_inv H as st Ei. destruct (err st); [discriminate|].
    destruct (length (outs st) =? 0)%nat; [discriminate|].
    rewrite reverseOuts_reverse in H. injection H as <-.
    exists f, st. split; [reflexivity|]. split; [exact Ei|]. split; [reflexivity|].
    apply Inspect_outs in Ei as (x & Hx & Hsub). simpl in Hx. subst x.
    split; [exact Hsub|]. intros Hsorted.
    change (List.map Start (reverse (outs st))) with (Start <$> reverse (outs st)).
    rewrite fmap_reverse. apply StronglySorted_reverse.
    eapply StronglySorted_sublist; eassumption.
Qed.

End DriverProperties.

(** ** Depth: more never hurts, and a guarded program needs finitely much *)

Lemma agrees_bind {A B : Type} (m m' : result A) (k k' : A -> result B) :
  agrees m m' -> (forall a, agrees (k a) (k' a)) -> agrees (m ≫= k) (m' ≫= k').
Proof.
  unfold agrees. intros Hm Hk H. destruct m as [a| | |]; simpl in *.
  - rewrite Hm by discriminate. simpl. apply Hk. exact H.
  - rewrite Hm by discriminate. reflexivity.
  - rewrite Hm by discriminate. reflexivity.
  - contradiction.
Qed.

Lemma agrees_refl {X : Type} (g : result X) : agrees g g.
Proof. intros _. reflexivity. Qed.

Lemma forEach_agrees {A St : Type} (body body' : St -> A -> result St) xs :
  (forall st x, agrees (body st x) (body' st x)) ->
  forall st, agrees (forEach body xs st) (forEach body' xs st).
Proof.
  intros Hb. induction xs as [|x xs IH]; intros st; simpl; [apply agrees_refl|].
  apply agrees_bind; [apply Hb|exact IH].
Qed.

Lemma times_agrees {St : Type} (body body' : St -> result St) n :
  (forall st, agrees (body st) (body' st)) ->
  forall st, agrees (times n body st) (times n body' st).
Proof.
  intros Hb. induction n as [|n IH]; intros st; simpl; [apply agrees_refl|].
  apply agrees_bind; [apply Hb|exact IH].
Qed.

Lemma zeroBody_agrees zero' zero'' :
  (forall info visited f, agrees (zero' info visited f) (zero'' info visited f)) ->
  forall info visited f,
    agrees (zeroBody u typeString zero' info visited f)
           (zeroBody u typeString zero'' info visited f).
Proof.
  intros Hz info visited f. unfold zeroBody.
  destruct (typ info); try apply agrees_refl.
  - destruct (typeString (pkg f) t1) as [kn [|]]; simpl; [|apply agrees_refl].
    destruct (typeString (pkg f) t2) as [vn [|]]; simpl; [|apply agrees_refl].
    apply agrees_bind; [apply Hz|]. intros [k f1].
    apply agrees_bind; [apply Hz|]. intros [v f2]. apply agrees_refl.
  - destruct (arrayTypeName _ _ _ _ _ _); [|apply agrees_refl].
    apply agrees_bind; [|intros [elts f1]; apply agrees_refl].
    apply times_agrees. intros [es g]. unfold zeroElem.
    apply agrees_bind; [apply Hz|]. intros [v g']. apply agrees_refl.
  - apply Hz.
  - destruct (isStruct _); [apply Hz|apply agrees_refl].
  - destruct (structTypeName _ _ _ _); [|apply agrees_refl].
    destruct (seen s visited); [apply agrees_refl|].
    apply agrees_bind; [|intros [[[elts n] f1] w]; apply agrees_refl].
    apply forEach_agrees. intros [[[es n] g] w] x. unfold zeroField.
    destruct (lookup_ok _ _) as [kv ok]. destruct (first f && ok); [apply agrees_refl|].
    destruct (_ || _); [|apply agrees_refl].
    apply agrees_bind; [apply Hz|]. intros [v g']. apply agrees_refl.
Qed.

Lemma zero_S_agrees fuel : forall info visited f,
  agrees (zero fuel info visited f) (zero (S fuel) info visited f).
Proof.
  induction fuel as [|fuel IH]; intros info visited f; [intros H; contradiction|].
  apply (zeroBody_agrees (zero fuel) (zero (S fuel)) IH).
Qed.

(** More depth does not change a result. *)
Lemma zero_more_fuel fuel extra info visited f :
  zero fuel info visited f <> OutOfFuel ->
  zero (fuel + extra) info visited f = zero fuel info visited f.
Proof.
  intros H. induction extra as [|extra IH].
  - rewrite Nat.add_0_r. reflexivity.
  - rewrite Nat.add_succ_r. rewrite <- IH. apply zero_S_agrees. rewrite IH. exact H.
Qed.

Lemma zero_le_fuel fuel fuel' info visited f :
  (fuel <= fuel')%nat ->
  zero fuel info visited f <> OutOfFuel ->
  zero fuel' info visited f <> OutOfFuel.
Proof.
  intros Hle H. replace fuel' with (fuel + (fuel' - fuel))%nat by lia.
  rewrite zero_more_fuel; assumption.
Qed.

Lemma bind_returns {A B : Type} (m : result A) (k : A -> result B) :
  m <> OutOfFuel -> (forall a, k a <> OutOfFuel) -> m ≫= k <> OutOfFuel.
Proof. intros Hm Hk. destruct m; simpl; [apply Hk|discriminate..|contradiction]. Qed.

Lemma forEach_returns {A St : Type} (body : St -> A -> result St) xs :
  (forall st x, In x xs -> body st x <> OutOfFuel) ->
  forall st, forEach body xs st <> OutOfFuel.
Proof.
  induction xs as [|x xs IH]; intros Hb st; simpl; [discriminate|].
  apply bind_returns; [apply Hb; left; reflexivity|].
  apply IH. intros st' y Hy. apply Hb. right. exact Hy.
Qed.

Lemma times_returns {St : Type} (body : St -> result St) n :
  (forall st, body st <> OutOfFuel) -> forall st, times n body st <> OutOfFuel.
Proof.
  intros Hb. induction n as [|n IH]; intros st; simpl; [discriminate|].
  apply bind_returns; [apply Hb|exact IH].
Qed.

(** The body returns when the calls it makes do. *)
Lemma zeroBody_returns zero' info visited :
  (forall c, In c (calls u info visited) -> forall f, zero' c.1 c.2 f <> OutOfFuel) ->
  forall f, zeroBody u typeString zero' info visited f <> OutOfFuel.
Proof.
  intros Hc f. unfold zeroBody. unfold calls in Hc.
  destruct (typ info); try discriminate.
  - destruct (typeString (pkg f) t1) as [kn [|]]; simpl; [|discriminate].
    destruct (typeString (pkg f) t2) as [vn [|]]; simpl; [|discriminate].
    apply bind_returns; [apply (Hc (_, _)); left; reflexivity|]. intros [k f1].
    apply bind_returns; [apply (Hc (_, _)); right; left; reflexivity|].
    intros [v f2]. discriminate.
  - destruct (arrayTypeName _ _ _ _ _ _); [|discriminate].
    apply bind_returns; [|intros [elts f1]; discriminate].
    apply times_returns. intros [es g]. unfold zeroElem.
    apply bind_returns; [apply (Hc (_, _)); left; reflexivity|].
    intros [v g']. destruct (negb (isNil v)); discriminate.
  - apply (Hc (_, _)). left. reflexivity.
  - destruct (isStruct (Underlying u t)); [|discriminate].
    apply (Hc (_, _)). left. reflexivity.
  - destruct (structTypeName _ _ _ _); [|discriminate].
    destruct (seen s visited); [discriminate|].
    apply bind_returns; [|intros [[[elts n] f1] w]; discriminate].
    apply forEach_returns. intros [[[es n] g] w] x Hx. unfold zeroField.
    destruct (lookup_ok _ _) as [kv ok].
    destruct (first f && ok); [destruct (fixExprPos _ _); discriminate|].
    destruct (_ || _); [|discriminate].
    apply bind_returns.
    + apply (Hc (fieldInfo x, visited ++ [s])). apply in_map_iff. exists x. auto.
    + intros [v g']. destruct (negb (isNil v)); discriminate.
Qed.

Lemma uniform_fuel (cs : list (litInfo * list StructId)) :
  (forall c, In c cs -> exists fuel, forall f, zero fuel c.1 c.2 f <> OutOfFuel) ->
  exists fuel, forall c, In c cs -> forall f, zero fuel c.1 c.2 f <> OutOfFuel.
Proof.
  induction cs as [|c cs IH]; intros H.
  - exists O. intros c Hc. exact (match Hc with end).
  - destruct (H c (or_introl eq_refl)) as [n1 H1].
    destruct IH as [n2 H2]; [intros c' Hc'; apply H; right; exact Hc'|].
    exists (Nat.max n1 n2). intros c' [<-|Hc'] f.
    + eapply zero_le_fuel; [|apply H1]. lia.
    + eapply zero_le_fuel; [|apply (H2 c' Hc')]. lia.
Qed.

Lemma seen_false s visited : seen s visited = false -> ~ In s visited.
Proof.
  induction visited as [|t visited IH]; simpl; [auto|].
  destruct (Nat.eqb_spec s t); [discriminate|]. intros H [Heq|Hin]; [congruence|].
  apply IH; assumption.
Qed.

Lemma length_le_bound (l : list nat) bound :
  NoDup l -> Forall (fun s => (s < bound)%nat) l -> (length l <= bound)%nat.
Proof.
  intros Hnd Hall.
  assert (Hincl : incl l (seq 0 bound)).
  { intros x Hx. apply in_seq. rewrite Forall_forall in Hall.
    specialize (Hall x (proj2 (list_elem_of_In _ _) Hx)). lia. }
  apply NoDup_ListNoDup in Hnd.
  pose proof (NoDup_incl_length Hnd Hincl) as Hlen.
  rewrite length_seq in Hlen. exact Hlen.
Qed.

Lemma height_le rank t h :
  (height rank t <= h)%nat <-> Forall (fun n => (rank n < h)%nat) (exposed t).
Proof.
  unfold height. rewrite list_max_le. rewrite List.Forall_map. reflexivity.
Qed.

Lemma height_Underlying rank n :
  structGuarded u rank -> (height rank (NamedUnderlying u n) <= rank n)%nat.
Proof.
  intros Hg. destruct (isStruct (NamedUnderlying u n)) eqn:Hs.
  - destruct (NamedUnderlying u n); try discriminate. unfold height. simpl. lia.
  - apply height_le. apply Hg. exact Hs.
Qed.

Lemma zero_halts rank bound :
  structGuarded u rank ->
  structsBounded u bound ->
  forall info visited,
    structsBelow bound (typ info) ->
    Forall (fun s => (s < bound)%nat) visited ->
    NoDup visited ->
    exists fuel, forall f, zero fuel info visited f <> OutOfFuel.
Proof.
  intros Hg [Hbn Hbf].
  enough (G : forall a visited,
             (bound - length visited <= a)%nat ->
             Forall (fun s => (s < bound)%nat) visited ->
             NoDup visited ->
             forall h sz info,
               (height rank (typ info) <= h)%nat ->
               (typeSize (typ info) <= sz)%nat ->
               structsBelow bound (typ info) ->
               exists fuel, forall f, zero fuel info visited f <> OutOfFuel).
  { intros info visited Hb Hv Hnd. eapply G; eauto. }
  induction a as [a IHa] using lt_wf_ind. intros visited Ha Hv Hnd.
  induction h as [h IHh] using lt_wf_ind.
  induction sz as [|sz IHsz]; intros info Hh Hsz Hb.
  { destruct (typ info); simpl in Hsz; lia. }
  assert (Hcalls : forall c, In c (calls u info visited) ->
            exists fuel, forall f, zero fuel c.1 c.2 f <> OutOfFuel).
  { unfold calls. destruct (typ info) eqn:Ht;
      try (intros c Hc; exact (match Hc with end)).
    - (* Map *)
      simpl in Hb, Hsz. destruct Hb as [Hb1 Hb2].
      apply height_le in Hh. simpl in Hh. apply Forall_app in Hh as [Hh1 Hh2].
      intros c [<-|[<-|Hc]]; [| |exact (match Hc with end)]; simpl; apply IHsz; simpl;
        try (apply height_le; assumption); try assumption; lia.
    - (* Array *)
      simpl in Hb, Hsz. intros c [<-|Hc]; [|exact (match Hc with end)]. simpl.
      destruct t; simpl;
        try (apply IHsz; simpl in *; try assumption; try lia; fail).
      apply height_le in Hh. simpl in Hh. apply Forall_cons in Hh as [Hh _].
      apply (IHh (rank n)) with (sz := typeSize (NamedUnderlying u n));
        [exact Hh|apply height_Underlying; exact Hg|reflexivity|apply Hbn].
    - (* Named *)
      intros c [<-|Hc]; [|exact (match Hc with end)]. simpl.
      apply height_le in Hh. simpl in Hh. apply Forall_cons in Hh as [Hh _].
      apply (IHh (rank n)) with (sz := typeSize (NamedUnderlying u n));
        [exact Hh|apply height_Underlying; exact Hg|reflexivity|apply Hbn].
    - (* Pointer *)
      destruct (isStruct (Underlying u t)); [|intros c Hc; exact (match Hc with end)].
      intros c [<-|Hc]; [|exact (match Hc with end)]. simpl. simpl in Hb, Hsz. apply IHsz; simpl; try assumption; lia.
    - (* Struct *)
      destruct (seen s visited) eqn:Hseen; [intros c Hc; exact (match Hc with end)|].
      intros c Hc. apply in_map_iff in Hc as (x & <- & Hx). simpl.
      apply seen_false in Hseen. simpl in Hb.
      assert (Hv' : Forall (fun s => (s < bound)%nat) (visited ++ [s])).
      { apply Forall_app. split; [exact Hv|]. constructor; [exact Hb|constructor]. }
      assert (Hnd' : NoDup (visited ++ [s])).
      { apply NoDup_app. split; [exact Hnd|]. split; [|apply NoDup_singleton].
        intros y Hy Hy'. apply list_elem_of_singleton in Hy' as ->.
        apply Hseen. apply list_elem_of_In. exact Hy. }
      pose proof (length_le_bound _ _ Hnd' Hv') as Hlen. rewrite length_app in Hlen.
      simpl in Hlen.
      apply (IHa (bound - length (visited ++ [s]))%nat)
        with (h := height rank (VarType x)) (sz := typeSize (VarType x));
        try reflexivity; try assumption.
      + rewrite length_app. simpl. lia.
      + apply (Hbf s x Hx). }
  apply uniform_fuel in Hcalls as [fuel Hfuel].
  exists (S fuel). intros f. simpl. apply zeroBody_returns. exact Hfuel.
Qed.

(** The guard at work: in a program with finitely many struct types in which
    every cycle of the type graph passes through a struct, the descent
    returns (a value or a panic) for every type at some depth, whatever the
    filler. *)
Theorem zero_returns rank bound :
  structGuarded u rank ->
  structsBounded u bound ->
  forall info visited,
    structsBelow bound (typ info) ->
    Forall (fun s => (s < bound)%nat) visited ->
    NoDup visited ->
    exists fuel, forall f, zero fuel info visited f <> OutOfFuel.
Proof. apply zero_halts. Qed.

End Properties.

(** * Further properties *)

(** ** Runs that neither panic nor fail *)

Lemma bind_quiet {A B : Type} (m : result A) (k : A -> result B) :
  quiet m -> (forall a, quiet (k a)) -> quiet (m ≫= k).
Proof. destruct m; simpl; auto. Qed.

Lemma forEach_quiet {A St : Type} (body : St -> A -> result St) xs :
  (forall st x, In x xs -> quiet (body st x)) ->
  forall st, quiet (forEach body xs st).
Proof.
  induction xs as [|x xs IH]; intros Hb st; simpl; [exact I|].
  apply bind_quiet; [apply Hb; left; reflexivity|].
  apply IH. intros st' y Hy. apply Hb. right. exact Hy.
Qed.

Lemma times_quiet {St : Type} (body : St -> result St) n :
  (forall st, quiet (body st)) -> forall st, quiet (times n body st).
Proof.
  intros Hb. induction n as [|n IH]; intros st; simpl; [exact I|].
  apply bind_quiet; [apply Hb|exact IH].
Qed.

(** ** Runs that end alike *)

Lemma bind_related {A B : Type} (R : A -> A -> Prop) (Q : B -> B -> Prop)
    (m m' : result A) (k k' : A -> result B) :
  related R m m' ->
  (forall a b, R a b -> related Q (k a) (k' b)) ->
  related Q (m ≫= k) (m' ≫= k').
Proof.
  destruct m, m'; simpl; try contradiction; auto.
Qed.

Lemma forEach_related {A St : Type} (R : St -> St -> Prop)
    (body body' : St -> A -> result St) xs :
  (forall st st' x, In x xs -> R st st' -> related R (body st x) (body' st' x)) ->
  forall st st', R st st' -> related R (forEach body xs st) (forEach body' xs st').
Proof.
  induction xs as [|x xs IH]; intros Hb st st' HR; simpl; [exact HR|].
  eapply bind_related; [apply Hb; [left; reflexivity|exact HR]|].
  intros a b Hab. apply IH; [|exact Hab].
  intros s s' y Hy. apply Hb. right. exact Hy.
Qed.

Lemma times_related {St : Type} (R : St -> St -> Prop) (body body' : St -> result St) n :
  (forall st st', R st st' -> related R (body st) (body' st')) ->
  forall st st', R st st' -> related R (times n body st) (times n body' st').
Proof.
  intros Hb. induction n as [|n IH]; intros st st' HR; simpl; [exact HR|].
  eapply bind_related; [apply Hb; exact HR|]. intros a b Hab. apply IH. exact Hab.
Qed.

Lemma sameNames_incPos f g : sameNames f g -> sameNames (incPos f) (incPos g).
Proof. unfold sameNames. simpl. intuition congruence. Qed.

Lemma sameNames_decPos f g : sameNames f g -> sameNames (decPos f) (decPos g).
Proof. unfold sameNames. simpl. intuition congruence. Qed.

Lemma sameNames_addLines n f g : sameNames f g -> sameNames (addLines n f) (addLines n g).
Proof. unfold sameNames. simpl. intuition congruence. Qed.

Lemma sameNames_setFirst f g :
  sameNames f g -> sameNames (setFirst false f) (setFirst false g).
Proof. unfold sameNames. simpl. intuition congruence. Qed.

Lemma sameNames_lookup f g nm :
  sameNames f g ->
  (lookup_ok (existing f) nm).2 = (lookup_ok (existing g) nm).2.
Proof.
  intros (_ & _ & _ & _ & _ & Hn). specialize (Hn nm). unfold lookup_ok.
  destruct (existing f !! nm), (existing g !! nm); simpl; try reflexivity.
  - destruct Hn as [_ Hn]. discriminate Hn. reflexivity.
  - destruct Hn as [Hn _]. discriminate Hn. reflexivity.
Qed.

(** ** The entries on file *)

Lemma find_snoc {A : Type} (p : A -> bool) (l : list A) (x : A) :
  List.find p (l ++ [x]) =
  match List.find p l with
  | Some y => Some y
  | None => if p x then Some x else None
  end.
Proof.
  induction l as [|y l IH]; simpl; [reflexivity|]. destruct (p y); auto.
Qed.

Lemma collectExisting_lookup elts : forall m m' nm,
  collectExisting elts m = Done m' ->
  m' !! nm = match lastEntry nm elts with
             | Some e => Some e
             | None => m !! nm
             end.
Proof.
  induction elts as [|e elts IH]; intros m m' nm H; simpl in H.
  - injection H as <-. reflexivity.
  - destruct e as [| | | | | | | | |key colon value| | | | | | | |]; try discriminate.
    destruct key as [| | | | | | |p k| | | | | | | | | |]; try discriminate.
    rewrite (IH _ _ nm H). unfold lastEntry. simpl. rewrite find_snoc.
    destruct (List.find _ (rev elts)); [reflexivity|]. simpl.
    destruct (decide (k = nm)) as [->|Hne].
    + rewrite lookup_insert_eq. rewrite bool_decide_eq_true_2; reflexivity.
    + rewrite lookup_insert_ne by exact Hne.
      rewrite bool_decide_eq_false_2; [reflexivity|congruence].
Qed.

Lemma collectExisting_all_keyed elts : forall m m',
  collectExisting elts m = Done m' -> Forall (fun e => entryName e <> None) elts.
Proof.
  induction elts as [|e elts IH]; intros m m' H; simpl in H; [constructor|].
  destruct e; try discriminate. destruct e1; try discriminate.
  constructor; [discriminate|]. eapply IH. exact H.
Qed.

Lemma collectExisting_returns elts : forall m,
  Forall (fun e => entryName e <> None) elts ->
  exists m', collectExisting elts m = Done m'.
Proof.
  induction elts as [|e elts IH]; intros m H; simpl; [eauto|].
  apply Forall_cons in H as [He H].
  destruct e; try (exfalso; apply He; reflexivity).
  destruct e1; try (exfalso; apply He; reflexivity).
  apply IH. exact H.
Qed.

(** The loop that files the entries of the literal returns exactly when
    every entry is a key/value pair keyed by an identifier; each name then
    holds the last entry written under it, and no other name holds
    anything. *)
Theorem existing_holds_last_entries elts :
  (Forall (fun e => entryName e <> None) elts ->
   exists m, collectExisting elts ∅ = Done m) /\
  (forall m,
     collectExisting elts ∅ = Done m ->
     Forall (fun e => entryName e <> None) elts /\
     forall nm, m !! nm = lastEntry nm elts).
Proof.
  split; [apply collectExisting_returns|].
  intros m H. split; [eapply collectExisting_all_keyed; exact H|].
  intros nm. rewrite (collectExisting_lookup _ _ _ nm H).
  destruct (lastEntry nm elts); [reflexivity|apply lookup_empty].
Qed.

(** ** Renumbering twice, and renumbering what has no literal inside *)

Lemma fixEach_again step es :
  Forall (renumbersAgain step) es ->
  forall f g, fixEach step (fixEach step es f).1 g = fixEach step es g.
Proof.
  induction 1 as [|e es He _ IH]; intros f g; simpl; [reflexivity|].
  specialize (He f g).
  destruct (step e f) as [e' f1]. simpl in He.
  specialize (IH f1). destruct (fixEach step es f1) as [es' f2]. simpl in *.
  rewrite He. destruct (step e g) as [e'' g1]. rewrite IH. reflexivity.
Qed.

Lemma fixEach_length step es : forall f, length (fixEach step es f).1 = length es.
Proof.
  induction es as [|e es IH]; intros f; simpl; [reflexivity|].
  destruct (step e f) as [e' f1]. specialize (IH f1).
  destruct (fixEach step es f1) as [es' f2]. simpl in *. congruence.
Qed.

Lemma again_eq x f g x' f1 :
  renumbersAgain fixExprPos x -> fixExprPos x f = (x', f1) ->
  fixExprPos x' g = fixExprPos x g.
Proof. intros H E. specialize (H f g). rewrite E in H. exact H. Qed.

Lemma fixExprPos_again e : renumbersAgain fixExprPos e.
Proof.
  induction e using Expr_nested_ind; intros f g; simpl; try reflexivity.
  - destruct (fixExprPos e1 f) as [x' f1] eqn:E1.
    destruct (fixExprPos e2 f1) as [y' f2] eqn:E2. simpl.
    rewrite (again_eq _ _ g _ _ IHe1 E1). destruct (fixExprPos e1 g) as [x'' g1].
    rewrite (again_eq _ _ g1 _ _ IHe2 E2). reflexivity.
  - destruct (fixExprPos e f) as [x' f1] eqn:E1.
    pose proof (fixEach_again fixExprPos args H f1) as Ha.
    destruct (fixEach fixExprPos args f1) as [args' f2]. simpl in *.
    rewrite (again_eq _ _ g _ _ IHe E1). destruct (fixExprPos e g) as [x'' g1].
    rewrite Ha. reflexivity.
  - destruct (fixExprPos e f) as [x' f1] eqn:E1.
    assert (Hstep : Forall (renumbersAgain (fun e f => fixExprPos e (incPos f))) elts).
    { eapply Forall_impl; [exact H|]. intros x Hx f0 g0. apply Hx. }
    pose proof (fixEach_again _ elts Hstep f1) as Ha.
    pose proof (fixEach_length (fun e f => fixExprPos e (incPos f)) elts f1) as Hl.
    destruct (fixEach _ elts f1) as [elts' f2]. simpl in *.
    rewrite (again_eq _ _ g _ _ IHe E1). destruct (fixExprPos e g) as [x'' g1].
    rewrite Ha. reflexivity.
  - destruct (fixExprPos e1 f) as [x' f1] eqn:E1.
    destruct (fixExprPos e2 f1) as [y' f2] eqn:E2. simpl.
    rewrite (again_eq _ _ g _ _ IHe1 E1). destruct (fixExprPos e1 g) as [x'' g1].
    rewrite (again_eq _ _ g1 _ _ IHe2 E2). reflexivity.
  - destruct (fixExprPos e1 f) as [x' f1] eqn:E1.
    destruct (fixExprPos e2 f1) as [y' f2] eqn:E2. simpl.
    rewrite (again_eq _ _ g _ _ IHe1 E1). destruct (fixExprPos e1 g) as [x'' g1].
    rewrite (again_eq _ _ g1 _ _ IHe2 E2). reflexivity.
  - destruct (fixExprPos e f) as [x' f1] eqn:E1. simpl.
    rewrite (again_eq _ _ g _ _ IHe E1). reflexivity.
  - destruct (fixExprPos e1 f) as [x' f1] eqn:E1.
    destruct (fixExprPos e2 f1) as [lo' f2] eqn:E2.
    destruct (fixExprPos e3 f2) as [hi' f3] eqn:E3.
    destruct (fixExprPos e4 f3) as [mx' f4] eqn:E4. simpl.
    rewrite (again_eq _ _ g _ _ IHe1 E1). destruct (fixExprPos e1 g) as [x'' g1].
    rewrite (again_eq _ _ g1 _ _ IHe2 E2). destruct (fixExprPos e2 g1) as [lo'' g2].
    rewrite (again_eq _ _ g2 _ _ IHe3 E3). destruct (fixExprPos e3 g2) as [hi'' g3].
    rewrite (again_eq _ _ g3 _ _ IHe4 E4). reflexivity.
  - destruct (fixExprPos e f) as [x' f1] eqn:E1. simpl.
    rewrite (again_eq _ _ g _ _ IHe E1). reflexivity.
  - destruct (fixExprPos e f) as [x' f1] eqn:E1. simpl.
    rewrite (again_eq _ _ g _ _ IHe E1). reflexivity.
Qed.

(** The renumbering pass does not read the markers it writes: renumbering an
    entry that was renumbered before, from whatever filler, gives what
    renumbering the original entry gives, expression and filler. *)
Theorem renumbering_forgets_old_markers e f g :
  fixExprPos (fixExprPos e f).1 g = fixExprPos e g.
Proof. apply fixExprPos_again. Qed.

Lemma one_line_eq x f :
  onOneLine fixExprPos x -> litFree x = true ->
  exists x', fixExprPos x f = (x', f) /\
             (walked x = true -> Forall (fun p => p = pos f) (markers x')).
Proof.
  intros H Hl. destruct (H Hl f) as [Hf Hm].
  destruct (fixExprPos x f) as [x' f1]. simpl in *. subst f1. eauto.
Qed.

Lemma fixEach_onOneLine es :
  Forall (onOneLine fixExprPos) es -> forallb litFree es = true ->
  forall f,
    exists es', fixEach fixExprPos es f = (es', f) /\
      (forallb walked es = true -> Forall (fun p => p = pos f) (flat_map markers es')).
Proof.
  induction 1 as [|e es He _ IH]; intros Hl f; simpl in *.
  - eexists. split; [reflexivity|]. intros _. constructor.
  - apply andb_prop in Hl as [Hl1 Hl2].
    destruct (one_line_eq e f He Hl1) as (e' & -> & Hm1).
    destruct (IH Hl2 f) as (es' & -> & Hm2).
    eexists. split; [reflexivity|]. intros Hw. apply andb_prop in Hw as [Hw1 Hw2].
    simpl. apply Forall_app. auto.
Qed.

Ltac one_line IH Hl :=
  let x' := fresh "x'" in
  let Hm := fresh "Hm" in
  match type of IH with
  | onOneLine _ ?x =>
      match goal with
      | |- context [fixExprPos x ?f] =>
          destruct (one_line_eq x f IH Hl) as (x' & -> & Hm)
      end
  end.

Lemma fixExprPos_onOneLine e : onOneLine fixExprPos e.
Proof.
  induction e using Expr_nested_ind; intros Hl f; simpl in Hl |- *;
    try discriminate;
    try solve [split; [reflexivity|];
               first [discriminate | intros _; repeat constructor]].
  - apply andb_prop in Hl as [Hl1 Hl2]. one_line IHe1 Hl1. one_line IHe2 Hl2.
    split; [reflexivity|]. intros Hw. apply andb_prop in Hw as [Hw1 Hw2]. simpl.
    apply Forall_app. split; [auto|]. constructor; [reflexivity|auto].
  - apply andb_prop in Hl as [Hl1 Hl2]. one_line IHe Hl1.
    destruct (fixEach_onOneLine args H Hl2 f) as (args' & -> & Hm2).
    split; [reflexivity|]. intros Hw. apply andb_prop in Hw as [Hw Hw3].
    apply andb_prop in Hw as [Hw1 Hw2]. simpl. rewrite Hw3.
    apply Forall_app. split; [auto|]. constructor; [reflexivity|].
    apply Forall_app. split; [auto|]. constructor; [reflexivity|constructor].
  - split; [reflexivity|]. intros Hw. destruct e; try discriminate.
    simpl. constructor; [reflexivity|constructor].
  - apply andb_prop in Hl as [Hl1 Hl2]. one_line IHe1 Hl1. one_line IHe2 Hl2.
    split; [reflexivity|]. intros Hw. apply andb_prop in Hw as [Hw1 Hw2]. simpl.
    apply Forall_app. split; [auto|]. constructor; [reflexivity|].
    apply Forall_app. split; [auto|]. constructor; [reflexivity|constructor].
  - apply andb_prop in Hl as [Hl1 Hl2]. one_line IHe1 Hl1. one_line IHe2 Hl2.
    split; [reflexivity|]. intros Hw. apply andb_prop in Hw as [Hw1 Hw2]. simpl.
    apply Forall_app. auto.
  - one_line IHe Hl. split; [reflexivity|]. intros Hw. simpl.
    apply Forall_app. split; [auto|]. constructor; [reflexivity|constructor].
  - apply andb_prop in Hl as [Hl Hl4]. apply andb_prop in Hl as [Hl Hl3].
    apply andb_prop in Hl as [Hl1 Hl2].
    one_line IHe1 Hl1. one_line IHe2 Hl2. one_line IHe3 Hl3. one_line IHe4 Hl4.
    split; [reflexivity|]. intros Hw.
    apply andb_prop in Hw as [Hw Hw4]. apply andb_prop in Hw as [Hw Hw3].
    apply andb_prop in Hw as [Hw1 Hw2]. simpl.
    repeat (first [apply Forall_app; split | constructor; [reflexivity|] | constructor]);
      auto.
  - one_line IHe Hl. split; [reflexivity|]. intros Hw. simpl.
    constructor; [reflexivity|auto].
  - one_line IHe Hl. split; [reflexivity|]. intros Hw. simpl.
    constructor; [reflexivity|auto].
Qed.

(** An entry without a composite literal is put on one line: renumbering it
    leaves the filler as it was, counters included, and every marker of an
    entry the pass walks through completely (the colons apart) becomes the
    current position. *)
Theorem entry_without_literal_is_one_line e f :
  litFree e = true ->
  (fixExprPos e f).2 = f /\
  (walked e = true -> Forall (fun p => p = pos f) (markers (fixExprPos e f).1)).
Proof. intros Hl. apply fixExprPos_onOneLine. exact Hl. Qed.

(** ** The reversal loop *)

(** The loop that reverses the records in place never indexes out of range
    and leaves the list reversed, whatever its length. *)
Theorem reversal_loop_reverses {A : Type} (l : list A) :
  reverseOuts l = Done (reverse l).
Proof. apply reverseOuts_reverse. Qed.

(** ** Runs that report no error *)

Lemma bind_tame {A B : Type} (m : result A) (k : A -> result B) :
  tame m -> (forall a, tame (k a)) -> tame (m ≫= k).
Proof. destruct m; simpl; auto. Qed.

Lemma forEach_tame {A St : Type} (body : St -> A -> result St) xs :
  (forall st x, tame (body st x)) -> forall st, tame (forEach body xs st).
Proof.
  intros Hb. induction xs as [|x xs IH]; intros st; simpl; [exact I|].
  apply bind_tame; [apply Hb|exact IH].
Qed.

Lemma times_tame {St : Type} (body : St -> result St) n :
  (forall st, tame (body st)) -> forall st, tame (times n body st).
Proof.
  intros Hb. induction n as [|n IH]; intros st; simpl; [exact I|].
  apply bind_tame; [apply Hb|exact IH].
Qed.

Lemma tame_unfailing {A : Type} (r : result A) : tame r -> unfailing r.
Proof. destruct r; simpl; auto. Qed.

Lemma bind_unfailing {A B : Type} (m : result A) (k : A -> result B) :
  unfailing m -> (forall a, unfailing (k a)) -> unfailing (m ≫= k).
Proof. destruct m; simpl; auto. Qed.

Lemma forEach_unfailing {A St : Type} (body : St -> A -> result St) xs :
  (forall st x, unfailing (body st x)) -> forall st, unfailing (forEach body xs st).
Proof.
  intros Hb. induction xs as [|x xs IH]; intros st; simpl; [exact I|].
  apply bind_unfailing; [apply Hb|exact IH].
Qed.

Lemma times_unfailing {St : Type} (body : St -> result St) n :
  (forall st, unfailing (body st)) -> forall st, unfailing (times n body st).
Proof.
  intros Hb. induction n as [|n IH]; intros st; simpl; [exact I|].
  apply bind_unfailing; [apply Hb|exact IH].
Qed.

(** ** The descent and the drivers *)

Section MoreProperties.

Variable u : Universe.
Variable typeString : Package -> Type_ -> string * bool.

Local Abbreviation zero := (zero u typeString).

(** *** Types of the handled kinds *)

Lemma handled_Underlying t :
  handledUniverse u -> handled t -> handled (Underlying u t).
Proof. intros [Hn _] Ht. destruct t; simpl; auto. Qed.

Lemma zero_quiet fuel :
  handledUniverse u ->
  forall info visited f, handled (typ info) -> quiet (zero fuel info visited f).
Proof.
  intros Hu. pose proof Hu as [Hn Hf].
  induction fuel as [|fuel IH]; intros [t nm h p] visited f Ht; [exact I|].
  destruct t; simpl in Ht |- *; try exact I; try contradiction.
  - destruct Ht as [Hk Hv].
    destruct (typeString (pkg f) t1) as [kn [|]]; simpl; [|exact I].
    destruct (typeString (pkg f) t2) as [vn [|]]; simpl; [|exact I].
    apply bind_quiet; [apply IH; exact Hk|]. intros [k f1].
    apply bind_quiet; [apply IH; exact Hv|]. intros [v f2]. exact I.
  - destruct (arrayTypeName _ _ _ _ _ _); [|exact I].
    apply bind_quiet; [|intros [elts f1]; exact I].
    apply times_quiet. intros [es g]. unfold zeroElem.
    apply bind_quiet; [apply IH; apply handled_Underlying; assumption|].
    intros [v g']. destruct (negb (isNil v)); exact I.
  - apply IH. apply Hn.
  - destruct (isStruct (Underlying u t)) eqn:Hs; [|exact I].
    apply IH. simpl. destruct t; simpl in Hs |- *; try discriminate; exact I.
  - destruct (structTypeName _ _ _ _); [|exact I].
    destruct (seen s visited); [exact I|].
    apply bind_quiet; [|intros [[[elts n] f1] w]; exact I].
    apply forEach_quiet. intros [[[es n] g] w] x Hx. unfold zeroField.
    destruct (lookup_ok _ _) as [kv ok].
    destruct (first f && ok); [destruct (fixExprPos _ _); exact I|].
    destruct (_ || _); [|exact I].
    apply bind_quiet; [apply IH; apply (Hf s x Hx)|].
    intros [v g']. destruct (negb (isNil v)); exact I.
Qed.

(** The entry point neither panics nor reports an error when every entry of
    the literal is keyed by a field name and every type of the program is of
    a kind the switch of [zero] handles; and it returns an expression and a
    line count, the same at every depth that is enough, when moreover the
    program has finitely many struct types and every cycle of its type graph
    passes through a struct. *)
Theorem zeroValue_panics_only_on_unhandled pk lit_Elts info :
  handledUniverse u ->
  handled (typ info) ->
  Forall (fun e => entryName e <> None) lit_Elts ->
  (forall fuel, quiet (zeroValue u typeString fuel pk lit_Elts info)) /\
  (forall rank bound,
     structGuarded u rank ->
     structsBounded u bound ->
     structsBelow bound (typ info) ->
     exists fuel e n,
       forall fuel', (fuel <= fuel')%nat ->
         zeroValue u typeString fuel' pk lit_Elts info = Done (e, n)).
Proof.
  intros Hu Ht Hk. unfold zeroValue.
  destruct (collectExisting_returns lit_Elts ∅ Hk) as [m ->]. simpl. split.
  - intros fuel.
    pose proof (zero_quiet fuel Hu info [] (mkFiller pk 1 0 m true) Ht) as Hq.
    destruct (zero fuel info [] _) as [[e f]| | |]; simpl in *; auto.
  - intros rank bound Hg Hb Hbelow.
    destruct (zero_halts u typeString rank bound Hg Hb info [] Hbelow) as [fuel Hfuel];
      [constructor|constructor|].
    specialize (Hfuel (mkFiller pk 1 0 m true)).
    pose proof (zero_quiet fuel Hu info [] (mkFiller pk 1 0 m true) Ht) as Hq.
    destruct (zero fuel info [] _) as [[e f]| | |] eqn:Ez; simpl in Hq;
      try contradiction.
    exists fuel, e, (lines f). intros fuel' Hle.
    replace fuel' with (fuel + (fuel' - fuel))%nat by lia.
    rewrite zero_more_fuel by (rewrite Ez; discriminate). rewrite Ez. reflexivity.
Qed.

(** ** Map types *)

(** A map type whose key and value types can be spelled is filled with a
    literal of one key/value entry, typed with both spelled names, whose key
    and value are whatever the calls of [zero] for the key and value types
    return, nil included, and whose colon is at the counter the second call
    leaves; when either name cannot be spelled [zero] returns nil and leaves
    the filler as it was; and a field of such a map type that is not a
    reused user entry adds nothing to the struct literal, the loop going on
    over the fields after it as if the field were not there. *)
Theorem map_field_default :
  (forall fuel info key elem visited f kn vn k f1 v f2,
     typ info = Map key elem ->
     typeString (pkg f) key = (kn, true) ->
     typeString (pkg f) elem = (vn, true) ->
     zero fuel (mkLitInfo key (name info) true false) visited (incPos f) = Done (k, f1) ->
     zero fuel (mkLitInfo elem (name info) true false) visited f1 = Done (v, f2) ->
     zero (S fuel) info visited f =
     Done (CompositeLit (MapType (pos f) (NewIdent kn) (NewIdent vn)) (pos f)
                        [KeyValueExpr k (pos f2) v] (pos f2 + 1),
           addLines 2 (incPos f2))) /\
  (forall fuel info key elem visited f,
     typ info = Map key elem ->
     snd (typeString (pkg f) key) = false \/ snd (typeString (pkg f) elem) = false ->
     zero (S fuel) info visited f = Done (Nil, f)) /\
  (forall fuel fst imp visited fields1 field fields2 key elem st,
     VarType field = Map key elem ->
     snd (typeString (pkg st.1.2) key) = false \/
     snd (typeString (pkg st.1.2) elem) = false ->
     fst = false \/ existing st.1.2 !! Name field = None ->
     forEach (zeroField (zero (S fuel)) fst imp visited) (fields1 ++ field :: fields2) st =
     forEach (zeroField (zero (S fuel)) fst imp visited) (fields1 ++ fields2) st).
Proof.
  assert (Hnil : forall fuel info key elem visited f,
     typ info = Map key elem ->
     snd (typeString (pkg f) key) = false \/ snd (typeString (pkg f) elem) = false ->
     zero (S fuel) info visited f = Done (Nil, f)).
  { intros fuel info key elem visited f Ht Hts. simpl. rewrite Ht.
    destruct (typeString (pkg f) key) as [kn [|]]; simpl in *; [|reflexivity].
    destruct (typeString (pkg f) elem) as [vn [|]]; simpl in *; [|reflexivity].
    destruct Hts; discriminate. }
  repeat apply conj.
  - intros fuel [t nm h p] key elem visited f kn vn k f1 v f2 Ht Hk Hv Ek Ev.
    simpl in Ht. subst t. rewrite (zero_Map_eq u typeString _ _ _ _ _ _ _ _ kn vn Hk Hv).
    simpl in Ek, Ev. rewrite Ek. simpl. rewrite Ev. reflexivity.
  - exact Hnil.
  - intros fuel fst imp visited fields1 field fields2 key elem st Ht Hts Hnew.
    rewrite !forEach_app.
    destruct (forEach _ fields1 st) as [[[[es n] g] w]| | |] eqn:E1; try reflexivity.
    apply (forEach_zeroField_ctxAfter u typeString) in E1 as (Hpk & Hex & _).
    simpl in Hpk, Hex. rewrite <- Hpk in Hts. rewrite <- Hex in Hnew.
    rewrite !bind_Done_eq, forEach_cons.
    rewrite (zeroField_skips_nil _ _ _ _ _ _ _ _ _ Hnew); [reflexivity|].
    apply (Hnil fuel (fieldInfo field) key elem); [exact Ht|exact Hts].
Qed.

(** ** Which results are nil, and what a call leaves of the filler *)

(** [zero] returns nil exactly on the paths that [return nil]: a basic type
    of an invalid or untyped kind, a map whose key or value type cannot be
    spelled, an array or struct whose type is shown and cannot be spelled,
    each reached directly or through a named type or a pointer to a struct;
    never for a channel, interface, function, slice or other pointer type.
    A call that returns nil has not touched the filler. *)
Theorem nil_results fuel info visited f e f' :
  zero fuel info visited f = Done (e, f') ->
  isNil e = yieldsNil u typeString fuel (pkg f) info /\ (isNil e = true -> f' = f).
Proof. apply zero_isNil. Qed.

(** A call of [zero] never changes the package or the entries of the user,
    never sets the one-shot flag [first] again once it is consumed, and
    never lowers the line count. *)
Theorem zero_keeps_context fuel info visited f e f' :
  zero fuel info visited f = Done (e, f') ->
  pkg f' = pkg f /\ existing f' = existing f /\
  (first f' = first f \/ first f' = false) /\ lines f <= lines f'.
Proof.
  intros H. apply zero_ctxAfter in H. unfold ctxAfter in H. intuition.
Qed.

(** ** Types that are not spelled again *)

Lemma zero_elided fuel : forall info visited f e f',
  hideType info = true ->
  zero fuel info visited f = Done (e, f') -> elided e.
Proof.
  induction fuel as [|fuel IH]; intros [t nm h p] visited f e f' Hh H;
    [discriminate|].
  simpl in Hh. subst h.
  destruct t; simpl in H; try (injection H as <- <-; exact I); try discriminate.
  - destruct k; injection H as <- <-; exact I.
  - destruct (typeString (pkg f) t1) as [kn [|]]; simpl in *;
      [|injection H as <- <-; exact I].
    destruct (typeString (pkg f) t2) as [vn [|]]; simpl in *;
      [|injection H as <- <-; exact I].
    bind_inv H as [k f1] Ek. bind_inv H as [v f2] Ev. injection H as <- <-. exact I.
  - unfold arrayTypeName in H. simpl in H.
    bind_inv H as [elts f1] E. injection H as <- <-. exact I.
  - apply IH in H; [exact H|reflexivity].
  - destruct (isStruct (Underlying u t)).
    + apply IH in H; [exact H|reflexivity].
    + injection H as <- <-. exact I.
  - unfold structTypeName in H. simpl in H.
    destruct (seen s visited); [injection H as <- <-; exact I|].
    bind_inv H as [[[elts n] f1] w] E. injection H as <- <-. exact I.
Qed.

(** Inside an array or map literal the type is not repeated: every element
    of a synthesized array literal, and the key and the value of the entry
    of a synthesized map literal, is a plain value or a composite literal
    without a type in front (a map literal apart, which always spells its
    type). *)
Theorem element_types_are_elided fuel info visited f e f' :
  zero fuel info visited f = Done (e, f') ->
  match typ info with
  | Array _ _ =>
      e = Nil \/ exists ty lb elts rb, e = CompositeLit ty lb elts rb /\ Forall elided elts
  | Map _ _ =>
      e = Nil \/
      exists ty lb k colon v rb,
        e = CompositeLit ty lb [KeyValueExpr k colon v] rb /\ elided k /\ elided v
  | _ => hideType info = true -> elided e
  end.
Proof.
  intros H.
  destruct (typ info) eqn:Ht; try (intros Hh; eapply zero_elided; eassumption).
  - destruct fuel as [|fuel]; [discriminate|]. simpl in H. rewrite Ht in H.
    destruct (typeString (pkg f) t1) as [kn [|]]; simpl in *;
      [|injection H as <- <-; left; reflexivity].
    destruct (typeString (pkg f) t2) as [vn [|]]; simpl in *;
      [|injection H as <- <-; left; reflexivity].
    bind_inv H as [k f1] Ek. bind_inv H as [v f2] Ev. injection H as <- <-.
    right. eexists _, _, _, _, _, _. split; [reflexivity|].
    split; eapply zero_elided; try eassumption; reflexivity.
  - destruct fuel as [|fuel]; [discriminate|]. simpl in H. rewrite Ht in H.
    destruct (arrayTypeName _ _ _ _ _ _) as [ty|];
      [|injection H as <- <-; left; reflexivity].
    bind_inv H as [elts f1] E. injection H as <- <-.
    right. eexists _, _, _, _. split; [reflexivity|].
    change (Forall elided (elts, f1).1). revert E.
    apply times_ind with (I := fun _ st => Forall elided st.1); [constructor|].
    intros i [es g] s' Hi Hb. unfold zeroElem in Hb. bind_inv Hb as [v g'] Ev.
    apply zero_elided in Ev; [|reflexivity].
    destruct (isNil v); simpl in Hb; injection Hb as <-; simpl in *; [exact Hi|].
    apply Forall_app. split; [exact Hi|]. constructor; [exact Ev|constructor].
Qed.

(** The value of a pointer-typed field: [&T{...}] for a pointer to a named
    struct type [T]; a struct literal without [&] for a pointer to an unnamed
    struct type; the identifier [nil], with the filler untouched, for every
    other pointer. *)
Theorem pointer_values fuel info elem visited f e f' :
  typ info = Pointer elem -> name info = None -> hideType info = false ->
  zero fuel info visited f = Done (e, f') ->
  match elem with
  | Named n =>
      if isStruct (NamedUnderlying u n) then
        e = Nil \/
        exists tn lb elts rb,
          typeString (pkg f) (Named n) = (tn, true) /\
          e = CompositeLit (NewIdent ("&" +:+ tn)) lb elts rb
      else e = Ident (pos f) "nil" /\ f' = f
  | Struct s =>
      e = Nil \/
      exists tn lb elts rb,
        typeString (pkg f) (Struct s) = (tn, true) /\
        e = CompositeLit (NewIdent tn) lb elts rb
  | _ => e = Ident (pos f) "nil" /\ f' = f
  end.
Proof.
  destruct info as [t nm h p]. simpl. intros -> -> -> H.
  destruct fuel as [|fuel]; [discriminate|]. simpl in H.
  assert (Hstruct : forall fl s nm' f0 e0 f0',
    zero fl (mkLitInfo (Struct s) nm' false true) visited f0 = Done (e0, f0') ->
    e0 = Nil \/
    exists ty lb elts rb,
      structTypeName typeString (pkg f0) (mkLitInfo (Struct s) nm' false true) s = Some ty /\
      e0 = CompositeLit ty lb elts rb).
  { intros fl s nm' f0 e0 f0' H0. destruct fl as [|fl]; [discriminate|].
    simpl in H0.
    destruct (structTypeName _ _ _ _) as [ty|];
      [|injection H0 as <- <-; left; reflexivity].
    destruct (seen s visited).
    - injection H0 as <- <-. right. eauto 6.
    - bind_inv H0 as [[[elts n] f1] w] E. injection H0 as <- <-. right. eauto 6. }
  destruct elem; simpl in H; try (injection H as <- <-; split; reflexivity).
  - destruct (isStruct (NamedUnderlying u n)) eqn:Hs;
      [|injection H as <- <-; split; reflexivity].
    destruct fuel as [|fuel1]; [discriminate|]. simpl in H. rewrite Hs in H.
    destruct (NamedUnderlying u n) eqn:Hn; try discriminate.
    apply Hstruct in H as [->|(ty & lb & elts & rb & Hty & ->)]; [left; reflexivity|].
    right. unfold structTypeName in Hty. simpl in Hty.
    destruct (typeString (pkg f) (Named n)) as [tn [|]]; simpl in Hty; [|discriminate].
    injection Hty as <-. eauto 6.
  - apply Hstruct in H as [->|(ty & lb & elts & rb & Hty & ->)]; [left; reflexivity|].
    right. unfold structTypeName in Hty. simpl in Hty.
    destruct (typeString (pkg f) (Struct s)) as [tn [|]]; simpl in Hty; [|discriminate].
    injection Hty as <-. eauto 6.
Qed.

(** ** Below the outermost level *)

Lemma zero_sameNames fuel : forall info visited f g,
  sameNames f g ->
  related sameValue (zero fuel info visited f) (zero fuel info visited g).
Proof.
  induction fuel as [|fuel IH]; intros [t nm h p] visited f g Hfg; [exact I|].
  pose proof Hfg as (Hpkg & Hpos & Hlines & Hf & Hg & Hnames).
  destruct t; simpl; rewrite <- ?Hpkg, <- ?Hpos;
    try (split; [reflexivity|exact Hfg]); try reflexivity.
  - (* Map *)
    destruct (typeString (pkg f) t1) as [kn [|]]; simpl;
      [|split; [reflexivity|exact Hfg]].
    destruct (typeString (pkg f) t2) as [vn [|]]; simpl;
      [|split; [reflexivity|exact Hfg]].
    eapply bind_related; [apply IH; apply sameNames_incPos; exact Hfg|].
    intros [k f1] [k' g1] [Hk H1]. simpl in Hk, H1. subst k'.
    eapply bind_related; [apply IH; exact H1|].
    intros [v f2] [v' g2] [Hv H2]. simpl in Hv, H2. subst v'.
    pose proof H2 as (_ & Hp2 & _).
    simpl. rewrite Hp2. split; [reflexivity|].
    apply sameNames_addLines, sameNames_incPos. exact H2.
  - (* Array *)
    destruct (arrayTypeName _ _ _ _ _ _) as [ty|];
      [|split; [reflexivity|exact Hfg]].
    eapply bind_related with
      (R := fun a b : list Expr * filler => a.1 = b.1 /\ sameNames a.2 b.2).
    + apply times_related; [|split; [reflexivity|exact Hfg]].
      intros [es f1] [es' g1] [He H1]. simpl in He, H1. subst es'.
      unfold zeroElem.
      eapply bind_related; [apply IH; apply sameNames_incPos; exact H1|].
      intros [v f2] [v' g2] [Hv H2]. simpl in Hv, H2. subst v'.
      destruct (negb (isNil v)); split; simpl; auto.
    + intros [es f1] [es' g1] [He H1]. simpl in He, H1. subst es'.
      pose proof H1 as (_ & Hp1 & _). simpl. rewrite Hp1.
      split; [reflexivity|]. apply sameNames_incPos, sameNames_addLines. exact H1.
  - (* Named *) apply IH. exact Hfg.
  - (* Pointer *)
    destruct (isStruct (Underlying u t)); [apply IH; exact Hfg|].
    split; [reflexivity|exact Hfg].
  - (* Struct *)
    destruct (structTypeName _ _ _ _) as [ty|];
      [|split; [reflexivity|exact Hfg]].
    destruct (seen s visited); [split; [reflexivity|exact Hfg]|].
    rewrite Hf, Hg.
    eapply bind_related with
      (R := fun a b : list elt * Z * filler * gmap string Expr =>
              a.1.1 = b.1.1 /\ Forall made a.1.1.1 /\ sameNames a.1.2 b.1.2).
    + apply forEach_related;
        [|split; [reflexivity|split; [constructor|apply sameNames_setFirst; exact Hfg]]].
      intros [[[es n] f1] w] [[[es' n'] g1] w'] x _ (He & Hm & H1). simpl in He, Hm, H1.
      injection He as <- <-. unfold zeroField.
      pose proof (sameNames_lookup f1 g1 (Name x) H1) as Hok.
      destruct (lookup_ok (existing f1) (Name x)) as [kv ok].
      destruct (lookup_ok (existing g1) (Name x)) as [kv' ok'].
      simpl in Hok. subst ok'. simpl.
      destruct (negb ok && negb _ || Exported x);
        [|split; [reflexivity|split]; simpl; auto].
      pose proof (sameNames_incPos _ _ H1) as H1'.
      pose proof H1' as (_ & Hp1 & _). simpl in Hp1. simpl. rewrite Hp1.
      eapply bind_related; [apply IH; exact H1'|].
      intros [v f2] [v' g2] [Hv H2]. simpl in Hv, H2. subst v'.
      destruct (negb (isNil v)); (split; [reflexivity|split]); simpl; auto.
      * apply Forall_app. split; [exact Hm|]. constructor; [exact I|constructor].
      * apply sameNames_decPos. exact H2.
    + intros [[[es n] f1] w] [[[es' n'] g1] w'] (He & Hm & H1). simpl in He, Hm, H1.
      injection He as <- <-. simpl.
      pose proof (entries_made (existing f1) w (existing g1) w' es Hm) as Hes.
      destruct (0 <? n).
      * pose proof H1 as (_ & Hp1 & _). simpl. rewrite Hp1, Hes.
        split; [reflexivity|]. apply sameNames_incPos, sameNames_addLines. exact H1.
      * pose proof H1 as (_ & Hp1 & _). rewrite Hp1, Hes. split; [reflexivity|exact H1].
Qed.

(** Once the outermost struct level has consumed the one-shot flag, the
    descent reads of the entries of the user only which names they have: two
    fillers that differ in the values filed under those names give the same
    expression, the same counters and the same outcome.  No expression of the
    user is ever copied below the outermost level. *)
Theorem nested_levels_read_names_only fuel info visited f g :
  sameNames f g ->
  match zero fuel info visited f, zero fuel info visited g with
  | Done (e, f'), Done (e', g') => e = e' /\ sameNames f' g'
  | Fail a, Fail b => a = b
  | Panic p, Panic q => p = q
  | OutOfFuel, OutOfFuel => True
  | _, _ => False
  end.
Proof.
  intros H. pose proof (zero_sameNames fuel info visited f g H) as Hr.
  unfold related, sameValue in Hr.
  destruct (zero fuel info visited f) as [[e f']| | |],
           (zero fuel info visited g) as [[e' g']| | |]; simpl in *; auto.
Qed.

(** ** Structs of plain fields *)

Lemma scalarZero_not_nil t p : scalar u t = true -> isNil (scalarZero u t p) = false.
Proof.
  unfold scalar, scalarZero. destruct (Underlying u t); try reflexivity; try discriminate.
  intros H. rewrite (zeroBasic_isNil k p). destruct (isNil (zeroBasic k NoPos));
    [discriminate|reflexivity].
Qed.

Lemma zero_plain fuel t nm h p visited f :
  match t with Named _ => False | _ => True end ->
  scalar u t = true ->
  zero (S fuel) (mkLitInfo t nm h p) visited f = Done (scalarZero u t (pos f), f).
Proof.
  intros Hn Hs. unfold scalar, scalarZero in *.
  destruct t; simpl in *; try discriminate; try reflexivity; try contradiction.
  destruct (isStruct (Underlying u t)); [discriminate|reflexivity].
Qed.

Lemma zero_scalar fuel t nm h p visited f :
  scalar u t = true ->
  zero (S (S fuel)) (mkLitInfo t nm h p) visited f = Done (scalarZero u t (pos f), f).
Proof.
  intros Hs. destruct t; try (apply zero_plain; [exact I|exact Hs]).
  rewrite zero_Named_eq. unfold scalar, scalarZero in *. simpl in *.
  destruct (NamedUnderlying u n) eqn:Hn; simpl in *; try discriminate; try reflexivity.
  destruct (isStruct (Underlying u t)); [discriminate|reflexivity].
Qed.

Lemma zeroField_scalar fuel fst imp visited es k g w x :
  existing g !! Name x = None ->
  negb imp || Exported x = true ->
  scalar u (VarType x) = true ->
  zeroField (zero (S (S fuel))) fst imp visited (es, k, g, w) x =
  Done (es ++ [Made (KeyValueExpr (Ident (pos g + 1) (Name x)) NoPos
                                  (scalarZero u (VarType x) (pos g + 1)))],
        k + 1, incPos g, w).
Proof.
  intros Hnone Hvis Hs. unfold zeroField.
  rewrite (lookup_ok_None _ _ Hnone), andb_false_r. simpl negb.
  rewrite andb_true_l, Hvis.
  rewrite (zero_scalar fuel (VarType x) None false false visited (incPos g) Hs).
  simpl. rewrite (scalarZero_not_nil _ _ Hs). reflexivity.
Qed.

Lemma forEach_flat fuel fst info visited fields : forall es k g w,
  Forall (fun x => existing g !! Name x = None /\
                   visible u (pkg g) info x = true /\
                   scalar u (VarType x) = true) fields ->
  forEach (zeroField (zero (S (S fuel))) fst (isImported u (pkg g) (name info)) visited)
          fields (es, k, g, w) =
  Done (es ++ List.map Made (flatEntries u (pos g) fields), k + Z.of_nat (length fields),
        setPos (pos g + Z.of_nat (length fields)) g, w).
Proof.
  induction fields as [|x fields IH]; intros es k g w H.
  - simpl. rewrite app_nil_r, !Z.add_0_r. destruct g; reflexivity.
  - apply Forall_cons in H as [(Hnone & Hvis & Hs) H].
    rewrite forEach_cons, (zeroField_scalar _ _ _ _ _ _ _ _ _ Hnone Hvis Hs).
    rewrite bind_Done_eq.
    change (pkg g) with (pkg (incPos g)). rewrite IH.
    + rewrite <- app_assoc. simpl.
      replace (k + 1 + Z.of_nat (length fields))
        with (k + Z.pos (Pos.of_succ_nat (length fields))) by lia.
      replace (setPos (pos g + 1 + Z.of_nat (length fields)) (incPos g))
        with (setPos (pos g + Z.pos (Pos.of_succ_nat (length fields))) g)
        by (destruct g; unfold setPos, incPos; simpl; f_equal; lia).
      reflexivity.
    + eapply Forall_impl; [exact H|]. intros y Hy. exact Hy.
Qed.

Lemma entries_Made ex w es : List.map (entry ex w) (List.map Made es) = es.
Proof. rewrite List.map_map. simpl. apply List.map_id. Qed.

(** A struct of plain fields, none of them written by the user and all of
    them visible, is filled with one entry per field in field order: the
    literal opens at the current position, the entry of the i-th field, key
    and value, sits i positions later, and the literal closes one position
    after the last entry, with two lines more than it has entries; the
    one-shot flag is consumed. *)
Theorem struct_of_plain_fields fuel info s visited f ty :
  typ info = Struct s ->
  seen s visited = false ->
  structTypeName typeString (pkg f) info s = Some ty ->
  StructFields u s <> [] ->
  Forall (fun x => existing f !! Name x = None /\
                   visible u (pkg f) info x = true /\
                   scalar u (VarType x) = true) (StructFields u s) ->
  zero (S (S (S fuel))) info visited f =
  Done (CompositeLit ty (pos f) (flatEntries u (pos f) (StructFields u s))
          (pos f + Z.of_nat (length (StructFields u s)) + 1),
        mkFiller (pkg f) (pos f + Z.of_nat (length (StructFields u s)) + 1)
                 (lines f + (Z.of_nat (length (StructFields u s)) + 2))
                 (existing f) false).
Proof.
  intros Ht Hseen Hty Hne Hall.
  rewrite (zero_Struct_eq u typeString _ _ _ _ _ _ Ht Hty Hseen).
  change (pkg f) with (pkg (setFirst false f)).
  rewrite forEach_flat by exact Hall. rewrite bind_Done_eq, Z.add_0_l.
  assert (Hpos : (0 <? Z.of_nat (length (StructFields u s))) = true).
  { apply Z.ltb_lt. destruct (StructFields u s); [contradiction|simpl; lia]. }
  cbv beta iota. rewrite Hpos. simpl. rewrite entries_Made. reflexivity.
Qed.

Lemma zeroElem_scalar fuel elem visited es g :
  scalar u elem = true ->
  zeroElem u (zero (S fuel)) elem visited (es, g) =
  Done (es ++ [scalarZero u elem (pos g + 1)], incPos g).
Proof.
  intros Hs. unfold zeroElem.
  assert (Hu : match Underlying u elem with Named _ => False | _ => True end).
  { unfold scalar in Hs. destruct (Underlying u elem); try exact I. discriminate Hs. }
  assert (Hs' : scalar u (Underlying u elem) = true).
  { unfold scalar in *. destruct (Underlying u elem); simpl; try exact Hs. contradiction. }
  assert (Hz : scalarZero u (Underlying u elem) = scalarZero u elem).
  { unfold scalarZero. destruct (Underlying u elem); simpl; try reflexivity. contradiction. }
  rewrite (zero_plain fuel _ (asNamed elem) true false visited (incPos g) Hu Hs').
  rewrite bind_Done_eq, Hz. cbv beta iota.
  rewrite (scalarZero_not_nil elem _ Hs). reflexivity.
Qed.

Lemma times_flat fuel elem visited n : forall es g,
  scalar u elem = true ->
  times n (zeroElem u (zero (S fuel)) elem visited) (es, g) =
  Done (es ++ flatElements u elem (pos g) n, setPos (pos g + Z.of_nat n) g).
Proof.
  induction n as [|n IH]; intros es g Hs.
  - simpl. rewrite app_nil_r, Z.add_0_r. destruct g; reflexivity.
  - change (times (S n) (zeroElem u (zero (S fuel)) elem visited) (es, g))
      with (zeroElem u (zero (S fuel)) elem visited (es, g)
            ≫= times n (zeroElem u (zero (S fuel)) elem visited)).
    rewrite (zeroElem_scalar _ _ _ _ _ Hs), bind_Done_eq, IH by exact Hs.
    rewrite <- app_assoc. simpl. f_equal. f_equal.
    destruct g; unfold setPos, incPos; simpl; f_equal; lia.
Qed.

(** An array of plain elements is filled with one element per index: the
    literal opens at the current position, the i-th element sits i positions
    later, the closing brace one position after the last element, and the
    line count grows by the length plus 2; nothing else of the filler
    changes. *)
Theorem array_of_plain_elements fuel info elem len visited f ty :
  typ info = Array elem len ->
  arrayTypeName typeString (pkg f) info elem len (pos f) = Some ty ->
  scalar u elem = true ->
  zero (S (S fuel)) info visited f =
  Done (CompositeLit ty (pos f) (flatElements u elem (pos f) len)
          (pos f + Z.of_nat len + 1),
        mkFiller (pkg f) (pos f + Z.of_nat len + 1) (lines f + (Z.of_nat len + 2))
                 (existing f) (first f)).
Proof.
  intros Ht Hty Hs.
  rewrite (zero_Array_eq u typeString _ _ _ _ _ _ _ Ht Hty).
  rewrite times_flat by exact Hs. rewrite bind_Done_eq. simpl.
  assert (Hlen : forall p n, length (flatElements u elem p n) = n).
  { intros p n. revert p. induction n as [|n IH]; intros p; simpl; [reflexivity|].
    rewrite IH. reflexivity. }
  rewrite Hlen. destruct f; reflexivity.
Qed.

(** ** Filling what is filled *)

Lemma zeroBasic_nil_any k p q : zeroBasic k p = Nil -> zeroBasic k q = Nil.
Proof. destruct k; simpl; intros H; try discriminate; reflexivity. Qed.

(** A nil result does not depend on the counters or on the entries. *)
Lemma zero_nil_stable fuel : forall info visited f f',
  zero fuel info visited f = Done (Nil, f') ->
  forall g, pkg g = pkg f -> zero fuel info visited g = Done (Nil, g).
Proof.
  induction fuel as [|fuel IH]; intros [t nm h p] visited f f' H g Hg; [discriminate|].
  destruct t; simpl in H |- *; rewrite ?Hg; try discriminate.
  - injection H as H _. rewrite (zeroBasic_nil_any k _ (pos g) H). reflexivity.
  - destruct (typeString (pkg f) t1) as [kn [|]]; simpl in *; [|reflexivity].
    destruct (typeString (pkg f) t2) as [vn [|]]; simpl in *; [|reflexivity].
    bind_inv H as [k f1] Ek. bind_inv H as [v f2] Ev. discriminate.
  - pose proof (arrayTypeName_None_iff typeString (pkg f) (mkLitInfo (Array t len) nm h p)
                  t len (pos f) (pos g)) as Hn.
    destruct (arrayTypeName typeString (pkg f) _ t len (pos f)) as [ty|].
    + bind_inv H as [elts f1] E. discriminate.
    + destruct (arrayTypeName typeString (pkg f) _ t len (pos g)); [discriminate|reflexivity].
  - eapply IH; eassumption.
  - destruct (isStruct (Underlying u t)); [eapply IH; eassumption|discriminate].
  - destruct (structTypeName typeString (pkg f) _ s) as [ty|]; [|reflexivity].
    destruct (seen s visited); [discriminate|].
    bind_inv H as [[[elts n] f1] w] E. discriminate.
Qed.

Lemma lastEntry_app_none nm a b :
  Forall (fun e => entryName e <> Some nm) b -> lastEntry nm (a ++ b) = lastEntry nm a.
Proof.
  intros Hb. unfold lastEntry. rewrite rev_app_distr.
  apply List.Forall_rev in Hb. induction Hb as [|e b' He _ IH]; [reflexivity|].
  simpl. rewrite bool_decide_eq_false_2 by exact He. exact IH.
Qed.

Lemma lastEntry_none nm a :
  Forall (fun e => entryName e <> Some nm) a -> lastEntry nm a = None.
Proof. intros H. rewrite <- (app_nil_l a). rewrite lastEntry_app_none by exact H. reflexivity. Qed.

Lemma lastEntry_snoc nm a e :
  entryName e = Some nm -> lastEntry nm (a ++ [e]) = Some e.
Proof.
  intros He. unfold lastEntry. rewrite rev_app_distr. simpl.
  rewrite bool_decide_eq_true_2 by exact He. reflexivity.
Qed.

Lemma zeroField_invisible zero' fst imp visited es n g w x :
  existing g !! Name x = None -> negb imp || Exported x = false ->
  zeroField zero' fst imp visited (es, n, g, w) x = Done (es, n, g, w).
Proof.
  intros Hl Hc. unfold zeroField. rewrite (lookup_ok_None _ _ Hl), andb_false_r.
  simpl negb. rewrite andb_true_l, Hc. reflexivity.
Qed.

Lemma zeroField_reuses zero' imp visited es n g w x kv :
  existing g !! Name x = Some kv ->
  zeroField zero' true imp visited (es, n, g, w) x =
  Done (es ++ [Users (Name x)], n + 1,
        (fixExprPos (current w (Name x) kv) (incPos g)).2,
        <[Name x := (fixExprPos (current w (Name x) kv) (incPos g)).1]> w).
Proof.
  intros Hkv. unfold zeroField. rewrite (proj2 (lookup_ok_true _ _ _) Hkv). simpl.
  destruct (fixExprPos _ (incPos g)) as [kv' g']. reflexivity.
Qed.

Lemma existing_fixExprPos e f : existing (fixExprPos e f).2 = existing f.
Proof. destruct (fixExprPos_keeps_shape e f) as ((_ & H & _) & _). exact H. Qed.

Lemma pkg_fixExprPos e f : pkg (fixExprPos e f).2 = pkg f.
Proof. destruct (fixExprPos_keeps_shape e f) as ((H & _) & _). exact H. Qed.

Lemma lastEntry_app nm a b :
  lastEntry nm (a ++ b) =
  match lastEntry nm b with
  | Some e => Some e
  | None => lastEntry nm a
  end.
Proof.
  unfold lastEntry. rewrite rev_app_distr.
  induction (rev b) as [|e l IH]; simpl; [reflexivity|].
  destruct (bool_decide (entryName e = Some nm)); [reflexivity|exact IH].
Qed.

(** In a literal whose entries have distinct names, the last entry under a
    name is the entry of that name. *)
Lemma lastEntry_names elts : forall names,
  List.map entryName elts = List.map Some names ->
  List.NoDup names ->
  List.map (fun nm => lastEntry nm elts) names = List.map Some elts /\
  (forall nm, ~ In nm names -> lastEntry nm elts = None).
Proof.
  induction elts as [|e elts IH]; intros [|n names] Hn Hnd; try discriminate.
  - split; [reflexivity|]. intros nm _. reflexivity.
  - simpl in Hn. injection Hn as He Hn.
    apply List.NoDup_cons_iff in Hnd as [Hfresh Hnd].
    destruct (IH names Hn Hnd) as [Hin Hout].
    assert (Hone : forall nm, lastEntry nm [e] = if bool_decide (n = nm) then Some e else None).
    { intros nm. unfold lastEntry. simpl. rewrite He.
      destruct (decide (n = nm)) as [->|Hne].
      - rewrite !bool_decide_eq_true_2; reflexivity.
      - rewrite !bool_decide_eq_false_2; [reflexivity|exact Hne|congruence]. }
    split.
    + simpl. f_equal.
      * change (e :: elts) with ([e] ++ elts). rewrite lastEntry_app, (Hout n Hfresh).
        rewrite Hone, bool_decide_eq_true_2; reflexivity.
      * rewrite <- Hin. apply map_ext_in. intros nm Hnm.
        change (e :: elts) with ([e] ++ elts). rewrite lastEntry_app.
        destruct (lastEntry nm elts) as [x|] eqn:Hx; [reflexivity|].
        exfalso.
        assert (Hsome : In (lastEntry nm elts) (List.map Some elts)).
        { rewrite <- Hin. apply in_map_iff. exists nm. split; [reflexivity|exact Hnm]. }
        rewrite Hx in Hsome. apply in_map_iff in Hsome as (y & Hy & _). discriminate.
    + intros nm Hnm. change (e :: elts) with ([e] ++ elts). rewrite lastEntry_app.
      rewrite (Hout nm) by (intros Hc; apply Hnm; right; exact Hc).
      rewrite Hone, bool_decide_eq_false_2; [reflexivity|].
      intros ->. apply Hnm. left. reflexivity.
Qed.

Lemma NoDup_map_filter {A B : Type} (f : A -> B) (p : A -> bool) l :
  List.NoDup (List.map f l) -> List.NoDup (List.map f (List.filter p l)).
Proof.
  induction l as [|x l IH]; simpl; intros H; [constructor|].
  apply List.NoDup_cons_iff in H as [Hx H]. destruct (p x); simpl; [|auto].
  constructor; [|auto]. intros Hin. apply Hx.
  apply in_map_iff in Hin as (y & Hy & Hin). apply filter_In in Hin as [Hin _].
  apply in_map_iff. exists y. split; assumption.
Qed.

(** The field loop over a literal that was filled: every field with an
    entry reuses it, every other field is left out as before. *)
Lemma forEach_zeroField_refill fuel info visited fields : forall es n g w,
  Forall (fun x => existing g !! Name x = None ->
                   visible u (pkg g) info x = false \/
                   yieldsNil u typeString fuel (pkg g) (fieldInfo x) = true) fields ->
  exists n' g' w',
    forEach (zeroField (zero fuel) true (isImported u (pkg g) (name info)) visited)
            fields (es, n, g, w) =
    Done (es ++ flat_map (fun x => match existing g !! Name x with
                                   | Some _ => [Users (Name x)]
                                   | None => []
                                   end) fields, n', g', w').
Proof.
  induction fields as [|x fields IH]; intros es n g w H.
  - exists n, g, w. simpl. rewrite app_nil_r. reflexivity.
  - apply Forall_cons in H as [Hx H]. rewrite forEach_cons. simpl flat_map.
    destruct (existing g !! Name x) as [kv|] eqn:Hl.
    + rewrite (zeroField_reuses _ _ _ _ _ _ _ _ _ Hl).
      pose proof (existing_fixExprPos (current w (Name x) kv) (incPos g)) as Hex.
      pose proof (pkg_fixExprPos (current w (Name x) kv) (incPos g)) as Hpk.
      destruct (fixExprPos _ (incPos g)) as [kv' g0]. simpl in Hex, Hpk.
      rewrite bind_Done_eq. cbn [fst snd].
      destruct (IH (es ++ [Users (Name x)]) (n + 1) g0 (<[Name x := kv']> w))
        as (n' & g' & w' & Hrun).
      { rewrite Hex, Hpk. exact H. }
      rewrite Hex, Hpk in Hrun. rewrite Hrun, <- app_assoc. eauto.
    + assert (Hskip : zeroField (zero fuel) true (isImported u (pkg g) (name info))
                                visited (es, n, g, w) x = Done (es, n, g, w)).
      { destruct (Hx eq_refl) as [Hv|Hy].
        - apply zeroField_invisible; [exact Hl|exact Hv].
        - apply zeroField_skips_nil; [right; exact Hl|].
          apply zero_yieldsNil. exact Hy. }
      rewrite Hskip, bind_Done_eq. apply IH. exact H.
Qed.

(** The entries of a literal read in field order. *)
Lemma entries_in_field_order {A : Type} (m : gmap string Expr) (k : Var -> bool)
    (g : Expr -> A) fields : forall elts,
  List.map (fun nm => m !! nm) (List.map Name (List.filter k fields)) = List.map Some elts ->
  (forall x, In x fields -> k x = false -> m !! Name x = None) ->
  flat_map (fun x => match m !! Name x with
                     | Some kv => [g kv]
                     | None => []
                     end) fields = List.map g elts.
Proof.
  induction fields as [|x fields IH]; intros elts He Hn; simpl in *.
  - destruct elts; [reflexivity|discriminate].
  - destruct (k x) eqn:Hk.
    + simpl in He. destruct elts as [|e elts]; [discriminate|].
      injection He as Hx He. rewrite Hx. simpl. f_equal. apply IH; [exact He|].
      intros y Hy. apply Hn. right. exact Hy.
    + rewrite (Hn x (or_introl eq_refl) Hk). simpl. apply IH; [exact He|].
      intros y Hy. apply Hn. right. exact Hy.
Qed.

(** Filling a literal that was filled changes position markers only: when
    the entries of a filled struct literal (whose fields have distinct
    names) are handed in as the entries of the user, every entry is taken
    over as it is, in field order, the fields left out the first time are
    left out again, and the result is the same literal up to its position
    markers. *)
Theorem refilling_changes_markers_only fuel pk lit_Elts info s e n :
  typ info = Struct s ->
  List.NoDup (List.map Name (StructFields u s)) ->
  zeroValue u typeString fuel pk lit_Elts info = Done (e, n) ->
  e <> Nil ->
  exists ty lb elts rb e' n',
    e = CompositeLit ty lb elts rb /\
    zeroValue u typeString fuel pk elts info = Done (e', n') /\
    shape e' = shape e.
Proof.
  intros Ht Hnd H Hnil. unfold zeroValue in H.
  bind_inv H as m0 Ec. bind_inv H as [e0 f1] Ez. injection H as -> _.
  destruct fuel as [|fuel]; [discriminate|].
  destruct (structTypeName typeString pk info s) as [ty|] eqn:Hty;
    [|simpl in Ez; rewrite Ht in Ez; simpl in Ez; rewrite Hty in Ez;
      injection Ez as <- _; contradiction].
  pose proof Ez as Ez'.
  rewrite (zero_Struct_eq u typeString fuel info s [] (mkFiller pk 1 0 m0 true) ty
             Ht Hty eq_refl) in Ez'.
  apply bind_Done in Ez' as ([[[es1 k] g1] w1] & Eloop & Ez'). injection Ez' as He _.
  set (elts := List.map (entry (existing g1) w1) es1) in He.
  assert (Hk0 : keyed m0).
  { apply (collectExisting_Done _ _ _ Ec). intros nm kv Hl.
    rewrite lookup_empty in Hl. discriminate. }
  set (f0 := mkFiller pk 1 0 m0 true) in *.
  set (keeps1 := keeps u typeString fuel f0 info).
  assert (Hnames : List.map entryName elts =
                   List.map Some (List.map Name (List.filter keeps1 (StructFields u s)))).
  { rewrite List.map_map. rewrite <- He in Ez.
    apply (zero_entry_names u typeString fuel info s [] f0 _ _ _ _ _ Ht eq_refl Hk0
             (or_introl eq_refl) Ez). }
  assert (Hkeyed : Forall (fun e => entryName e <> None) elts).
  { apply Forall_forall. intros x Hx Hnone. apply list_elem_of_In in Hx.
    apply (in_map entryName) in Hx. rewrite Hnames, Hnone in Hx.
    apply in_map_iff in Hx as (y & Hy & _). discriminate. }
  destruct (collectExisting_returns elts ∅ Hkeyed) as [m Hm].
  assert (Hlook : forall nm, m !! nm = lastEntry nm elts).
  { intros nm. rewrite (collectExisting_lookup _ _ _ nm Hm).
    destruct (lastEntry nm elts); [reflexivity|apply lookup_empty]. }
  destruct (lastEntry_names elts _ Hnames (NoDup_map_filter Name keeps1 _ Hnd))
    as [Hin Hout].
  assert (Hunkept : forall x, In x (StructFields u s) -> keeps1 x = false ->
                              m !! Name x = None).
  { intros x Hx Hkx. rewrite Hlook. apply Hout. intros Hc.
    apply in_map_iff in Hc as (y & Hy & Hyin). apply filter_In in Hyin as [Hyin Hky].
    assert (x = y); [|congruence].
    clear -Hnd Hx Hyin Hy. induction (StructFields u s) as [|z l IH]; [contradiction|].
    simpl in Hnd. apply List.NoDup_cons_iff in Hnd as [Hz Hnd].
    destruct Hx as [->|Hx], Hyin as [->|Hyin]; auto.
    - exfalso. apply Hz. apply in_map_iff. exists y. split; [exact Hy|exact Hyin].
    - exfalso. apply Hz. apply in_map_iff. exists x. split; [symmetry; exact Hy|exact Hx]. }
  set (g0 := setFirst false (mkFiller pk 1 0 m true)).
  destruct (forEach_zeroField_refill fuel info [s] (StructFields u s) [] 0 g0 ∅)
    as (n2 & g2 & w2 & Hrun).
  { apply Forall_forall. intros x Hx Hl. apply list_elem_of_In in Hx. simpl in Hl.
    destruct (keeps1 x) eqn:Hkx.
    - exfalso.
      assert (Hsome : In (m !! Name x) (List.map Some elts)).
      { rewrite <- Hin. rewrite List.map_map. apply in_map_iff. exists x.
        split; [symmetry; apply Hlook|]. apply filter_In. split; assumption. }
      rewrite Hl in Hsome. apply in_map_iff in Hsome as (y & Hy & _). discriminate.
    - unfold keeps1, keeps in Hkx. simpl in Hkx.
      destruct (m0 !! Name x); [discriminate|]. simpl.
      apply andb_false_iff in Hkx as [Hv|Hy]; [left; exact Hv|right].
      apply negb_false_iff in Hy. exact Hy. }
  simpl in Hrun.
  pose proof (forEach_zeroField_tracks u typeString _ _ _ _ _ _ _ Hrun (tracks_empty _))
    as [Hw Hes].
  pose proof (forEach_zeroField_ctxAfter u typeString _ _ _ _ _ _ _ Hrun) as (_ & Hex2 & _).
  simpl in Hw, Hes, Hex2.
  eexists ty, _, elts, _, _, _. split; [symmetry; exact He|].
  unfold zeroValue. rewrite Hm, bind_Done_eq.
  rewrite (zero_Struct_eq u typeString fuel info s [] (mkFiller pk 1 0 m true) ty
             Ht Hty eq_refl).
  simpl. fold g0. rewrite Hrun. simpl. split; [reflexivity|].
  rewrite <- He. simpl. f_equal. rewrite Hex2.
  rewrite <- (entries_in_field_order m keeps1 shape (StructFields u s) elts);
    [|rewrite <- Hin; apply map_ext; intros nm; apply Hlook|exact Hunkept].
  clear Hrun Hunkept Hin Hout Hnames Hnd Eloop. revert Hes.
  generalize (StructFields u s). intros fields.
  induction fields as [|x fields IH]; intros Hes; [reflexivity|]. simpl in *.
  destruct (m !! Name x) as [kv|] eqn:Hl; simpl in *; [|apply IH; exact Hes].
  apply Forall_cons in Hes as [[c Hc] Hes]. f_equal; [|apply IH; exact Hes].
  unfold node, current. rewrite Hc. destruct (Hw _ _ Hc) as (kv0 & Hkv0 & Hs).
  congruence.
Qed.

(** ** Entries taken over *)

(** At the outermost struct level an entry of the user is taken over, not
    made again: the entry the literal gets for a field the user wrote an
    entry for differs from what the user wrote in position markers only.
    And it is one node: when two fields have the name of one entry (two
    blank fields), the literal holds the same entry for both, with the
    markers it was given for the later field. *)
Theorem reused_entries_keep_shape fuel info s visited f ty lb elts rb f' :
  typ info = Struct s ->
  seen s visited = false ->
  first f = true ->
  keyed (existing f) ->
  zero (S fuel) info visited f = Done (CompositeLit ty lb elts rb, f') ->
  forall e nm kv,
    In e elts -> entryName e = Some nm -> existing f !! nm = Some kv ->
    shape e = shape kv /\
    (forall e', In e' elts -> entryName e' = Some nm -> e' = e).
Proof.
  intros Ht Hseen Hfirst Hkeyed H. simpl in H. rewrite Ht in H.
  destruct (structTypeName typeString (pkg f) info s) as [ty'|]; [|discriminate].
  rewrite Hseen, Hfirst in H. bind_inv H as [[[es n] g] w] E.
  pose (fresh := fun e : elt =>
          match e with
          | Made kv => forall nm, entryName kv = Some nm -> existing f !! nm = None
          | Users _ => True
          end).
  assert (G : (ctxAfter (setFirst false f) (es, n, g, w).1.2 /\
               tracks (existing f) (es, n, g, w).2 (es, n, g, w).1.1.1) /\
              Forall fresh (es, n, g, w).1.1.1).
  { revert E.
    apply forEach_ind with
      (I := fun _ st => (ctxAfter (setFirst false f) st.1.2 /\
                         tracks (existing f) st.2 st.1.1.1) /\
                        Forall fresh st.1.1.1).
    { split; [split; [apply ctxAfter_refl|apply tracks_empty]|constructor]. }
    intros pre x [[[es0 n0] g0] w0] [[[es1 n1] g1] w1] _ [[Hg Htr] Hfr] Hb.
    cbn [fst snd] in *.
    assert (Hex : existing g0 = existing f) by (destruct Hg as (_ & Hg & _); exact Hg).
    split; [split|].
    - eapply ctxAfter_trans; [exact Hg|].
      eapply (zeroField_ctxAfter u typeString); exact Hb.
    - rewrite <- Hex. eapply zeroField_tracks; [exact Hb|]. rewrite Hex. exact Htr.
    - unfold zeroField in Hb.
      destruct (lookup_ok (existing g0) (Name x)) as [kv0 ok] eqn:Hkv.
      rewrite Hex in Hkv. destruct ok; simpl in Hb.
      + destruct (fixExprPos _ (incPos g0)) as [kv' g']. injection Hb as <- _ _ _.
        apply Forall_app. split; [exact Hfr|]. constructor; [exact I|constructor].
      + apply lookup_ok_false in Hkv.
        destruct (negb _ || Exported x); [|injection Hb as <- _ _ _; exact Hfr].
        bind_inv Hb as [v gv] Ev.
        destruct (isNil v); simpl in Hb; injection Hb as <- _ _ _; [exact Hfr|].
        apply Forall_app. split; [exact Hfr|]. constructor; [|constructor].
        simpl. intros nm Hnm. injection Hnm as <-. exact Hkv. }
  destruct G as [[Hg [Hw Hes]] Hfr]. cbn [fst snd] in *.
  assert (Hex : existing g = existing f) by (destruct Hg as (_ & Hg & _); exact Hg).
  assert (Helts : elts = List.map (entry (existing f) w) es).
  { destruct (0 <? n); simpl in H; rewrite Hex in H; congruence. }
  subst elts. clear H E.
  assert (Hnode : forall e nm kv,
            In e (List.map (entry (existing f) w) es) -> entryName e = Some nm ->
            existing f !! nm = Some kv ->
            e = node (existing f) w nm /\ shape e = shape kv).
  { intros e nm kv He Hnm Hkv. apply in_map_iff in He as (e0 & <- & He0).
    apply list_elem_of_In in He0. rewrite Forall_forall in Hes, Hfr.
    specialize (Hes e0 He0). specialize (Hfr e0 He0).
    destruct e0 as [kv0|m]; simpl in *.
    - rewrite (Hfr nm Hnm) in Hkv. discriminate.
    - destruct Hes as [c Hc]. destruct (Hw _ _ Hc) as (kvm & Hkvm & Hs).
      unfold node, current in Hnm |- *. rewrite Hc in Hnm |- *.
      assert (m = nm).
      { rewrite <- entryName_shape, Hs, entryName_shape, (Hkeyed _ _ Hkvm) in Hnm.
        congruence. }
      subst m. rewrite Hc. split; [reflexivity|]. congruence. }
  intros e nm kv He Hnm Hkv. destruct (Hnode e nm kv He Hnm Hkv) as [-> Hs].
  split; [exact Hs|]. intros e' He' Hnm'.
  destruct (Hnode e' nm kv He' Hnm' Hkv) as [-> _]. reflexivity.
Qed.

(** ** The drivers *)

Lemma zero_tame fuel : forall info visited f, tame (zero fuel info visited f).
Proof.
  induction fuel as [|fuel IH]; intros [t nm h p] visited f; [exact I|].
  destruct t; simpl; try exact I; try reflexivity.
  - destruct (typeString (pkg f) t1) as [kn [|]]; simpl; [|exact I].
    destruct (typeString (pkg f) t2) as [vn [|]]; simpl; [|exact I].
    apply bind_tame; [apply IH|]. intros [k f1].
    apply bind_tame; [apply IH|]. intros [v f2]. exact I.
  - destruct (arrayTypeName _ _ _ _ _ _); [|exact I].
    apply bind_tame; [|intros [elts f1]; exact I].
    apply times_tame. intros [es g]. unfold zeroElem.
    apply bind_tame; [apply IH|]. intros [v g']. destruct (negb (isNil v)); exact I.
  - apply IH.
  - destruct (isStruct (Underlying u t)); [apply IH|exact I].
  - destruct (structTypeName _ _ _ _); [|exact I].
    destruct (seen s visited); [exact I|].
    apply bind_tame; [|intros [[[elts n] f1] w]; exact I].
    apply forEach_tame. intros [[[es n] g] w] x. unfold zeroField.
    destruct (lookup_ok _ _) as [kv ok].
    destruct (first f && ok); [destruct (fixExprPos _ _); exact I|].
    destruct (_ || _); [|exact I].
    apply bind_tame; [apply IH|].
    intros [v g']. destruct (negb (isNil v)); exact I.
Qed.

Lemma zero_unfailing fuel info visited f : unfailing (zero fuel info visited f).
Proof. apply tame_unfailing, zero_tame. Qed.

Lemma collectExisting_outcomes elts : forall m,
  match collectExisting elts m with
  | Done _ => Forall (fun e => entryName e <> None) elts
  | Panic p => p = TypeAssertion /\ Exists (fun e => entryName e = None) elts
  | _ => False
  end.
Proof.
  induction elts as [|e elts IH]; intros m; simpl; [constructor|].
  destruct e as [| | | | | | | | |key colon value| | | | | | | |];
    try (split; [reflexivity|left; reflexivity]).
  destruct key as [| | | | | | |p k| | | | | | | | | |];
    try (split; [reflexivity|left; reflexivity]).
  specialize (IH (<[k := KeyValueExpr (Ident p k) colon value]> m)).
  destruct (collectExisting elts _); try contradiction.
  - constructor; [discriminate|exact IH].
  - destruct IH as [-> IH]. split; [reflexivity|right; exact IH].
Qed.

(** How [zeroValue] can end: it never reports an error value; it panics on
    a failed type assertion exactly when some entry of the literal is not a
    key/value pair keyed by an identifier, and otherwise only on a type of a
    kind the switch of [zero] has no case for, never on an index. *)
Theorem zeroValue_outcomes fuel pk lit_Elts info :
  match zeroValue u typeString fuel pk lit_Elts info with
  | Done _ | OutOfFuel => Forall (fun e => entryName e <> None) lit_Elts
  | Fail _ => False
  | Panic TypeAssertion => Exists (fun e => entryName e = None) lit_Elts
  | Panic UnexpectedType => Forall (fun e => entryName e <> None) lit_Elts
  | Panic IndexOutOfRange => False
  end.
Proof.
  unfold zeroValue. pose proof (collectExisting_outcomes lit_Elts ∅) as Hc.
  destruct (collectExisting lit_Elts ∅) as [m| |p|]; try contradiction; simpl.
  - pose proof (zero_tame fuel info [] (mkFiller pk 1 0 m true)) as Hz.
    destruct (zero fuel info [] _) as [[e f]| |p|]; simpl in *; try contradiction;
      try exact Hc.
    subst p. exact Hc.
  - destruct Hc as [-> Hc]. exact Hc.
Qed.

Lemma collectExisting_unfailing elts : forall m, unfailing (collectExisting elts m).
Proof.
  induction elts as [|e elts IH]; intros m; simpl; [exact I|].
  destruct e; try exact I. destruct e1; try exact I. apply IH.
Qed.

Lemma zeroValue_unfailing fuel pk elts info :
  unfailing (zeroValue u typeString fuel pk elts info).
Proof.
  unfold zeroValue. apply bind_unfailing; [apply collectExisting_unfailing|].
  intros m. apply bind_unfailing; [apply zero_unfailing|]. intros [e f]. exact I.
Qed.

Section MoreDriverProperties.

Variable format_Node : Z -> Expr -> error + string.
Variable PathEnclosingInterval : File -> Pos -> Pos -> list Node.

Local Abbreviation visit := (visitLit u typeString format_Node).

(** *** findPos and findCompositeLit *)

(** [findPos] answers for the first file of the given name: for an offset
    that is not negative ([main] passes on positive ones only), the position
    of the offset in it when the offset is within the file (its size
    included), an error when it is beyond; and an error when no file has the
    name. *)
Theorem findPos_first_file files filename off :
  0 <= off ->
  match findPos files filename off with
  | Done (f, p) =>
      exists before after,
        files = before ++ f :: after /\
        Forall (fun g => fileName g <> filename) before /\
        fileName f = filename /\ off <= fileSize f /\ p = fileBase f + off
  | Fail e =>
      (Forall (fun g => fileName g <> filename) files /\
       e = errOther "could not find file") \/
      (exists before f after,
         files = before ++ f :: after /\
         Forall (fun g => fileName g <> filename) before /\
         fileName f = filename /\ fileSize f < off /\
         e = errOther "file size is smaller than given offset")
  | _ => False
  end.
Proof.
  intros _. induction files as [|f files IH]; simpl.
  - left. split; [constructor|reflexivity].
  - destruct (String.eqb_spec (fileName f) filename) as [Heq|Hne].
    + destruct (Z.ltb_spec (fileSize f) off) as [Hlt|Hge].
      * right. exists [], f, files. repeat split; auto.
      * exists [], files. repeat split; auto.
    + destruct (findPos files filename off) as [[g p]|e| |]; try contradiction.
      * destruct IH as (before & after & -> & Hb & Hn & Hs & ->).
        exists (f :: before), after. repeat split; auto.
      * destruct IH as [[Hall ->]|(before & g & after & -> & Hb & Hn & Hs & ->)].
        -- left. split; [constructor; assumption|reflexivity].
        -- right. exists (f :: before), g, after. repeat split; auto.
Qed.

Lemma findCompositeLit_skip pre path :
  Forall (fun n => isLit n = false) pre ->
  findCompositeLit u (pre ++ path) = findCompositeLit u path.
Proof.
  induction 1 as [|n pre Hn _ IH]; simpl; [reflexivity|].
  destruct n; [discriminate Hn|exact IH..].
Qed.

(** [findCompositeLit] looks at the innermost composite literal of the path
    only.  Without any literal on the path, and when the innermost literal
    is not of a struct type (even inside a struct literal), it reports that
    nothing was found; when it is of a struct type, that literal is returned
    with its struct type, its name if it has one, and the type hidden
    exactly when the node around it is an expression of an array, map or
    slice type. *)
Theorem findCompositeLit_innermost pre :
  Forall (fun n => isLit n = false) pre ->
  findCompositeLit u pre = Fail errNotFound /\
  (forall lit cs rest,
     structLit u lit = false ->
     findCompositeLit u (pre ++ CompositeLitNode lit cs :: rest) = Fail errNotFound) /\
  (forall lit cs parent rest s,
     Underlying u (litType lit) = Struct s ->
     findCompositeLit u (pre ++ CompositeLitNode lit cs :: parent :: rest) =
     Done (lit, mkLitInfo (Struct s) (asNamed (litType lit))
                          (hideTypeFor (nodeType parent)) false)).
Proof.
  intros Hpre. repeat apply conj.
  - rewrite <- (app_nil_r pre). rewrite findCompositeLit_skip by exact Hpre. reflexivity.
  - intros lit cs rest Hs. rewrite findCompositeLit_skip by exact Hpre.
    unfold structLit in Hs. simpl.
    destruct (Underlying u (litType lit)); try reflexivity. discriminate Hs.
  - intros lit cs parent rest s Hs. rewrite findCompositeLit_skip by exact Hpre.
    simpl. rewrite Hs. reflexivity.
Qed.

(** *** byOffset *)

(** A query by offset that writes a record has found the first file of the
    name and, on the path around the offset, a struct literal; the record
    carries the start and end offset of that literal, and its code is the
    printed zero value of the literal, with room for the lines counted. *)
Theorem byOffset_record fuel files path pk offset records :
  byOffset u typeString format_Node PathEnclosingInterval fuel files path pk offset
  = Done records ->
  exists f p lit info newlit lines code,
    findPos files path offset = Done (f, p) /\
    findCompositeLit u (PathEnclosingInterval f p p) = Done (lit, info) /\
    zeroValue u typeString fuel pk (litElts lit) info = Done (newlit, lines) /\
    format_Node lines newlit = inr code /\
    records = [mkOutput (litStartOff lit) (litEndOff lit) code].
Proof.
  intros H. unfold byOffset in H.
  bind_inv H as [f p] E1. bind_inv H as [lit info] E2. bind_inv H as [newlit n] E3.
  unfold prepareOutput in H.
  destruct (format_Node n newlit) as [e|code] eqn:Ef; [discriminate|].
  injection H as <-. eexists _, _, _, _, _, _, _. repeat split; eassumption.
Qed.

Lemma lastFile_none files path : forall acc,
  Forall (fun f => fileName f <> path) files -> lastFile files path acc = acc.
Proof.
  induction files as [|f files IH]; intros acc H; simpl; [reflexivity|].
  apply Forall_cons in H as [Hf H]. rewrite IH by exact H.
  destruct (String.eqb_spec (fileName f) path); [contradiction|reflexivity].
Qed.

Lemma findPos_none files path off :
  Forall (fun f => fileName f <> path) files ->
  findPos files path off = Fail (errOther "could not find file").
Proof.
  induction 1 as [|f files Hf _ IH]; simpl; [reflexivity|].
  destruct (String.eqb_spec (fileName f) path); [contradiction|exact IH].
Qed.

(** When no file of the initial package has the given name, both queries
    end with the error that the file could not be found, before anything is
    synthesized. *)
Theorem unknown_file_is_an_error files path :
  Forall (fun f => fileName f <> path) files ->
  (forall fuel pk offset,
     byOffset u typeString format_Node PathEnclosingInterval fuel files path pk offset
     = Fail (errOther "could not find file")) /\
  (forall fuel pk line,
     byLine u typeString format_Node fuel files path pk line
     = Fail (errOther "could not find file")).
Proof.
  intros H. split.
  - intros fuel pk offset. unfold byOffset. rewrite findPos_none by exact H. reflexivity.
  - intros fuel pk line. unfold byLine. rewrite lastFile_none by exact H. reflexivity.
Qed.

(** *** byLine *)

Lemma act_Done fuel pk line st lit st' :
  act u typeString format_Node fuel pk line st lit = Done st' ->
  (covers line lit = false /\ st' = st) \/
  (covers line lit = true /\ structLit u lit = false /\
   st' = mkLineState (outs st) (Some (Underlying u (litType lit))) (Some errNotFound)) \/
  (covers line lit = true /\ structLit u lit = true /\
   exists s newlit lines,
     Underlying u (litType lit) = Struct s /\
     zeroValue u typeString fuel pk (litElts lit)
       (mkLitInfo (Struct s) (asNamed (litType lit)) (hideTypeFor (prev st)) false)
     = Done (newlit, lines) /\
     st' = match format_Node lines newlit with
           | inl e => mkLineState (outs st) (prev st) (Some e)
           | inr code =>
               mkLineState (outs st ++ [mkOutput (litStartOff lit) (litEndOff lit) code])
                           (prev st) None
           end).
Proof.
  unfold act, visitLit, covers, structLit. intros H.
  destruct (_ && _); simpl in H; [|injection H as <-; left; auto].
  right. destruct (Underlying u (litType lit)) eqn:Hu;
    try (simpl in H; injection H as <-; left; auto).
  right. bind_inv H as [st1 b] E. bind_inv E as [nl n'] Ez.
  repeat split. exists s, nl, n'. split; [reflexivity|]. split; [exact Ez|].
  unfold prepareOutput in E.
  destruct (format_Node n' nl); injection E as <- <-; injection H as <-; reflexivity.
Qed.

Lemma forEach_flat_map {St : Type} (visit' : Node -> St -> result St)
    (act' : St -> LitSite -> result St) (sel : Node -> list LitSite) cs :
  Forall (fun c => forall st, visit' c st = forEach act' (sel c) st) cs ->
  forall st, forEach (fun st c => visit' c st) cs st = forEach act' (flat_map sel cs) st.
Proof.
  induction 1 as [|c cs Hc _ IH]; intros st; simpl; [reflexivity|].
  rewrite forEach_app, Hc. destruct (forEach act' (sel c) st); simpl; auto.
Qed.

(** The traversal is the visitor run over the literals met, in order. *)
Lemma Inspect_met fuel pk line n : forall st,
  Inspect (visit fuel pk line) n st =
  forEach (act u typeString format_Node fuel pk line) (met u line n) st.
Proof.
  induction n as [lit cs IH|ty cs IH|cs IH] using Node_nested_ind; intros st;
    rewrite Inspect_eq.
  - pose proof (forEach_flat_map (Inspect (visit fuel pk line))
                  (act u typeString format_Node fuel pk line) (met u line) cs IH) as Hk.
    simpl. unfold covers, structLit.
    destruct (_ && _) eqn:Hc; simpl; [|apply Hk].
    destruct (Underlying u (litType lit)) eqn:Hu; simpl;
      try (match goal with
           | |- forEach _ cs ?s = _ =>
               assert (Hact : act u typeString format_Node fuel pk line st lit = Done s)
                 by (unfold act, visitLit; rewrite Hc, Hu; reflexivity);
               rewrite Hact; simpl; apply Hk
           end).
    unfold act, visitLit. rewrite Hc, Hu. simpl.
    destruct (zeroValue u typeString fuel pk (litElts lit) _) as [[nl n']| | |]; simpl;
      try reflexivity.
    destruct (prepareOutput format_Node nl n' _ _); reflexivity.
  - simpl. apply (forEach_flat_map _ _ _ cs IH).
  - simpl. apply (forEach_flat_map _ _ _ cs IH).
Qed.

Lemma met_covers line n : Forall (fun lit => covers line lit = true) (met u line n).
Proof.
  assert (Hk : forall cs,
    Forall (fun c => Forall (fun lit => covers line lit = true) (met u line c)) cs ->
    Forall (fun lit => covers line lit = true) (flat_map (met u line) cs)).
  { induction 1; simpl; [constructor|]. apply Forall_app. auto. }
  induction n as [lit cs IH|ty cs IH|cs IH] using Node_nested_ind; simpl; auto.
  destruct (covers line lit) eqn:Hc; [|auto].
  destruct (structLit u lit); repeat constructor; auto.
Qed.

Lemma met_nil line n :
  Forall (fun lit => covers line lit = false) (literals n) -> met u line n = [].
Proof.
  assert (Hk : forall cs,
    Forall (fun c => Forall (fun lit => covers line lit = false) (literals c) ->
                     met u line c = []) cs ->
    Forall (fun lit => covers line lit = false) (flat_map literals cs) ->
    flat_map (met u line) cs = []).
  { induction 1 as [|c cs Hc _ IH]; simpl; [reflexivity|]. intros H.
    apply Forall_app in H as [H1 H2]. rewrite Hc, IH by assumption. reflexivity. }
  induction n as [lit cs IH|ty cs IH|cs IH] using Node_nested_ind; simpl; intros H; auto.
  apply Forall_cons in H as [Hc H]. rewrite Hc. auto.
Qed.

(** A query by line in a file without a composite literal that covers the
    line reports that nothing was found. *)
Theorem byLine_nothing_on_the_line fuel files path pk line f :
  lastFile files path None = Some f ->
  Forall (fun lit => covers line lit = false) (literals (fileAST f)) ->
  byLine u typeString format_Node fuel files path pk line = Fail errNotFound.
Proof.
  intros Hf Hc. unfold byLine. rewrite Hf, Inspect_met, (met_nil _ _ Hc). reflexivity.
Qed.

Lemma forEach_act_outs fuel pk line l : forall st st',
  forEach (act u typeString format_Node fuel pk line) l st = Done st' ->
  exists extra,
    outs st' = outs st ++ extra /\
    sublist (List.map recordExtent extra)
            (List.map litExtent (List.filter (structLit u) l)) /\
    ((forall lines e, exists code, format_Node lines e = inr code) ->
     Forall (fun lit => covers line lit = true) l ->
     List.map recordExtent extra = List.map litExtent (List.filter (structLit u) l)).
Proof.
  induction l as [|lit l IH]; intros st st' H; simpl in H.
  - injection H as <-. exists []. rewrite app_nil_r. repeat split; constructor.
  - bind_inv H as st1 E. apply IH in H as (x & Hx & Hsub & Heq).
    apply act_Done in E as [[Hc ->]|[(Hc & Hs & ->)|(Hc & Hs & s & nl & n & Hu & Ez & ->)]].
    + exists x. split; [exact Hx|]. simpl. split.
      * destruct (structLit u lit); [apply sublist_cons|]; exact Hsub.
      * intros Hfmt Hall. apply Forall_cons in Hall as [Hc' _]. congruence.
    + exists x. simpl in Hx. split; [exact Hx|]. simpl. rewrite Hs. split; [exact Hsub|].
      intros Hfmt Hall. apply Forall_cons in Hall as [_ Hall]. auto.
    + simpl. rewrite Hs. destruct (format_Node n nl) as [e|code] eqn:Ef; simpl in Hx.
      * exists x. split; [exact Hx|]. split; [apply sublist_cons; exact Hsub|].
        intros Hfmt _. destruct (Hfmt n nl) as [code Hcode]. congruence.
      * eexists (_ :: x). split; [rewrite Hx, <- app_assoc; reflexivity|]. simpl.
        split; [apply sublist_skip; exact Hsub|].
        intros Hfmt Hall. apply Forall_cons in Hall as [_ Hall]. f_equal. auto.
Qed.

(** The records of a query by line answer to struct literals that cover the
    line and are not inside another struct literal that covers it: read
    from last to first, their extents are extents of such literals, in the
    order of the traversal, each used at most once.  When the printer never
    fails there is exactly one record for each such literal. *)
Theorem byLine_records fuel files path pk line records :
  byLine u typeString format_Node fuel files path pk line = Done records ->
  exists f,
    lastFile files path None = Some f /\
    sublist (List.map recordExtent (reverse records))
            (List.map litExtent (List.filter (structLit u) (met u line (fileAST f)))) /\
    ((forall lines e, exists code, format_Node lines e = inr code) ->
     List.map recordExtent (reverse records) =
     List.map litExtent (List.filter (structLit u) (met u line (fileAST f)))).
Proof.
  intros H. unfold byLine in H.
  destruct (lastFile files path None) as [f|] eqn:Ef; [|discriminate].
  bind_inv H as st Ei. destruct (err st); [discriminate|].
  destruct (length (outs st) =? 0)%nat; [discriminate|].
  rewrite reverseOuts_reverse in H. injection H as <-. rewrite reverse_involutive.
  exists f. split; [reflexivity|].
  rewrite Inspect_met in Ei. apply forEach_act_outs in Ei as (x & Hx & Hsub & Heq).
  simpl in Hx. subst x. split; [exact Hsub|].
  intros Hfmt. apply Heq; [exact Hfmt|apply met_covers].
Qed.

Lemma forEach_act_unfailing fuel pk line l : forall st,
  unfailing (forEach (act u typeString format_Node fuel pk line) l st).
Proof.
  apply forEach_unfailing. intros st lit. unfold act, visitLit.
  destruct (negb _); [exact I|].
  destruct (Underlying u (litType lit)); try exact I. simpl.
  pose proof (zeroValue_unfailing fuel pk (litElts lit)
                (mkLitInfo (Struct s) (asNamed (litType lit)) (hideTypeFor (prev st)) false))
    as Hz.
  destruct (zeroValue _ _ _ _ _ _) as [[nl n]| | |]; simpl in *; try exact I; try contradiction.
  destruct (prepareOutput _ _ _ _ _); exact I.
Qed.

(** The error of a query by line is decided by the last literal the
    traversal acts on: when that literal covers the line and is not of a
    struct type, the query writes no record and, if it ends with an error,
    it is the error that nothing was found, also when struct literals on the
    line were filled before. *)
Theorem byLine_last_literal_decides fuel files path pk line f lit :
  lastFile files path None = Some f ->
  last (met u line (fileAST f)) = Some lit ->
  structLit u lit = false ->
  match byLine u typeString format_Node fuel files path pk line with
  | Done _ => False
  | Fail e => e = errNotFound
  | _ => True
  end.
Proof.
  intros Hf Hlast Hs. unfold byLine. rewrite Hf, Inspect_met.
  apply last_Some in Hlast as [l Hl]. rewrite Hl, forEach_app.
  pose proof (forEach_act_unfailing fuel pk line l (mkLineState [] None None)) as Hu.
  destruct (forEach _ l _) as [st1| | |]; simpl in *; try exact I; try contradiction.
  assert (Hc : covers line lit = true).
  { pose proof (met_covers line (fileAST f)) as Hall. rewrite Hl in Hall.
    apply Forall_app in Hall as [_ Hall]. apply Forall_cons in Hall as [Hc _]. exact Hc. }
  unfold act, visitLit. fold (covers line lit). rewrite Hc. simpl.
  unfold structLit in Hs.
  destruct (Underlying u (litType lit)); try discriminate; reflexivity.
Qed.

(** The type in front of a filled literal is left out whenever the literal
    met before it on the line is an array, map or slice literal, whether that
    literal is around it or beside it: when the literals the traversal acts
    on are such a literal followed by one struct literal, the query ends as
    the synthesis of that struct literal with the type hidden does, and its
    record is that zero value. *)
Theorem byLine_hides_type_after_collection fuel files path pk line f c lit s :
  lastFile files path None = Some f ->
  met u line (fileAST f) = [c; lit] ->
  structLit u c = false ->
  hideTypeFor (Some (Underlying u (litType c))) = true ->
  Underlying u (litType lit) = Struct s ->
  byLine u typeString format_Node fuel files path pk line =
  '(newlit, lines) ← zeroValue u typeString fuel pk (litElts lit)
                       (mkLitInfo (Struct s) (asNamed (litType lit)) true false);
  match format_Node lines newlit with
  | inl e => Fail e
  | inr code => Done [mkOutput (litStartOff lit) (litEndOff lit) code]
  end.
Proof.
  intros Hf Hmet Hc Hh Hs. unfold byLine. rewrite Hf, Inspect_met, Hmet.
  pose proof (met_covers line (fileAST f)) as Hall. rewrite Hmet in Hall.
  apply Forall_cons in Hall as [Hc1 Hall]. apply Forall_cons in Hall as [Hc2 _].
  unfold covers in Hc1, Hc2. unfold structLit in Hc.
  simpl. unfold act, visitLit. rewrite Hc1, Hc2. simpl.
  destruct (Underlying u (litType c)) eqn:Hu; try discriminate; simpl;
    rewrite Hs; simpl; rewrite ?Hh;
    (destruct (zeroValue u typeString fuel pk (litElts lit) _) as [[nl n]| | |];
     simpl; try reflexivity;
     unfold prepareOutput; destruct (format_Node n nl); reflexivity).
Qed.

(** *** main *)

Variable absPath : string -> error + string.
Variable load : string -> bool -> error + Program.

(** [main] ends with the usage text, before it looks at the file system,
    when neither an offset nor a line is given or the file name is empty.
    Once the program is loaded, a positive offset is tried first: its
    records are final, an error other than that nothing was found is fatal,
    and only when nothing was found at the offset (or no positive offset was
    given) a positive line is tried; without a positive line left to try,
    the run ends with the error that nothing was found. *)
Theorem main_tries_offset_then_line fuel filename modified offset line :
  let run := main u typeString format_Node PathEnclosingInterval absPath load
                  fuel filename modified offset line in
  ((offset = 0 /\ line = 0) \/ filename = EmptyString -> run = Usage) /\
  (forall path lprog pkg rest,
     (offset <> 0 \/ line <> 0) ->
     filename <> EmptyString ->
     absPath filename = inr path ->
     load path modified = inr lprog ->
     InitialPackages lprog = pkg :: rest ->
     let atOffset := byOffset u typeString format_Node PathEnclosingInterval fuel
                              (Files pkg) path (Pkg pkg) offset in
     let onLine := byLine u typeString format_Node fuel (Files pkg) path (Pkg pkg) line in
     (0 < offset ->
      (forall records, atOffset = Done records -> run = Returned records) /\
      (forall e, atOffset = Fail e -> e <> errNotFound -> run = Fatal e) /\
      (atOffset = Fail errNotFound -> 0 < line -> run = exitOf onLine) /\
      (atOffset = Fail errNotFound -> line <= 0 -> run = Fatal errNotFound)) /\
     (offset <= 0 -> 0 < line -> run = exitOf onLine) /\
     (offset <= 0 -> line <= 0 -> run = Fatal errNotFound)).
Proof.
  intros run. subst run. unfold main. split.
  - intros [[-> ->] | ->]; [reflexivity|].
    destruct (_ && _); reflexivity.
  - intros path lprog pkg rest Hflags Hname Hpath Hload Hpkgs. cbv zeta.
    assert (Hguard : (offset =? 0) && (line =? 0) || String.eqb filename EmptyString = false).
    { apply orb_false_intro.
      - apply andb_false_iff. destruct Hflags as [H|H]; [left|right]; apply Z.eqb_neq; exact H.
      - apply String.eqb_neq. exact Hname. }
    rewrite Hguard, Hpath, Hload, Hpkgs. unfold mainByLine.
    repeat apply conj.
    + intros Hoff. apply Z.ltb_lt in Hoff. rewrite Hoff. repeat apply conj.
      * intros records ->. reflexivity.
      * intros e -> Hne. destruct e; [contradiction|reflexivity].
      * intros -> Hline. apply Z.ltb_lt in Hline. rewrite Hline. reflexivity.
      * intros -> Hline. apply Z.ltb_ge in Hline. rewrite Hline. reflexivity.
    + intros Hoff Hline. apply Z.ltb_ge in Hoff. apply Z.ltb_lt in Hline.
      rewrite Hoff, Hline. reflexivity.
    + intros Hoff Hline. apply Z.ltb_ge in Hoff, Hline. rewrite Hoff, Hline. reflexivity.
Qed.

(** With both an offset and a line given, an offset inside a composite
    literal that is not of a struct type (a slice, array or map literal,
    also one inside a struct literal) finds nothing, and the run is decided
    by the query by line. *)
Theorem offset_in_other_literal_falls_back_to_line
    fuel filename modified offset line path lprog pkg rest f p before lit cs around :
  filename <> EmptyString ->
  absPath filename = inr path ->
  load path modified = inr lprog ->
  InitialPackages lprog = pkg :: rest ->
  0 < offset -> 0 < line ->
  findPos (Files pkg) path offset = Done (f, p) ->
  PathEnclosingInterval f p p = before ++ CompositeLitNode lit cs :: around ->
  Forall (fun n => isLit n = false) before ->
  structLit u lit = false ->
  main u typeString format_Node PathEnclosingInterval absPath load
       fuel filename modified offset line =
  exitOf (byLine u typeString format_Node fuel (Files pkg) path (Pkg pkg) line).
Proof.
  intros Hname Hpath Hload Hpkgs Hoff Hline Hpos Hp Hbefore Hs. unfold main.
  assert (Hguard : (offset =? 0) && (line =? 0) || String.eqb filename EmptyString = false).
  { apply orb_false_intro.
    - apply andb_false_iff. left. apply Z.eqb_neq. lia.
    - apply String.eqb_neq. exact Hname. }
  rewrite Hguard, Hpath, Hload, Hpkgs.
  apply Z.ltb_lt in Hoff, Hline. rewrite Hoff. unfold byOffset. rewrite Hpos. simpl.
  rewrite Hp, findCompositeLit_skip by exact Hbefore. simpl.
  unfold structLit in Hs. unfold mainByLine. rewrite Hline.
  destruct (Underlying u (litType lit)); try reflexivity. discriminate Hs.
Qed.

End MoreDriverProperties.

End MoreProperties.

(** * The properties on the sample program *)

(** The positional literal [User{7, "x", nil}]. *)
Lemma zeroValue_panics_on_unkeyed_entry_witness :
  let lit_Elts := [BasicLit 20 INT "7"; BasicLit 23 STRING (quote +:+ "x" +:+ quote);
                   Ident 28 "nil"] in
  Exists (fun e => entryName e = None) lit_Elts /\
  sampleZeroValue lit_Elts User = Panic TypeAssertion.
Proof.
  intros lit_Elts.
  assert (H : Exists (fun e => entryName e = None) lit_Elts)
    by (constructor; reflexivity).
  split; [exact H|]. apply zeroValue_panics_on_unkeyed_entry. exact H.
Defined.

Lemma markers_climb_witness :
  let lit_Elts := [KeyValueExpr (Ident 10 "a") 11 (BasicLit 12 INT "1")] in
  let e :=
    CompositeLit (Ident 0 "Outer") 1
      [KeyValueExpr (Ident 2 "a") 11 (BasicLit 2 INT "1");
       KeyValueExpr (Ident 3 "in") 0
         (CompositeLit (Ident 0 "Inner") 3
            [KeyValueExpr (Ident 4 "b") 0 (BasicLit 4 ILLEGAL (quote +:+ quote))] 5)] 6 in
  Forall (fun kv => walked kv = true) lit_Elts /\
  Forall (fun kv => forall nm, entryName kv = Some nm -> namesOneField sampleUniverse nm)
         lit_Elts /\
  sampleZeroValue lit_Elts Outer = Done (e, 7) /\
  StronglySorted Z.le (validMarkers e) /\ Forall (fun p => 1 <= p) (validMarkers e).
Proof.
  intros lit_Elts e.
  assert (Hw : Forall (fun kv => walked kv = true) lit_Elts)
    by (repeat constructor).
  assert (Hone : Forall (fun kv => forall nm, entryName kv = Some nm ->
                                   namesOneField sampleUniverse nm) lit_Elts).
  { constructor; [|constructor]. intros nm Hnm. injection Hnm as <-. intros s.
    do 13 (destruct s as [|s]; [simpl; lia|]). simpl. lia. }
  assert (Hrun : sampleZeroValue lit_Elts Outer = Done (e, 7)) by reflexivity.
  split; [exact Hw|]. split; [exact Hone|]. split; [exact Hrun|].
  destruct (markers_climb sampleUniverse sampleTypeString 8 1%nat lit_Elts
              (structInfo Outer) e 7 Hw Hone Hrun) as (Hs & Hb & _).
  split; assumption.
Defined.

(** C4, as stated, fails.  With the entry [a: (x)] reused, the operand [x]
    and the closing parenthesis keep the markers 14 and 15 of the file they
    came from and the entry after them carries 3; with the entry [_: T{1}]
    reused for the two blank fields of [Pad], the entry comes first with the
    markers 6 to 8 it was given the second time, before the 5 of the field
    between them; and in [Gaps] the counter is 3 while the value of [b] is
    attempted and 2 when that round of the field loop ends. *)
Lemma markers_climb_counterexample :
  (exists e n,
     sampleZeroValue [KeyValueExpr (Ident 10 "a") 11 (ParenExpr 13 (Ident 14 "x") 15)]
                     Outer = Done (e, n) /\
     validMarkers e = [1; 2; 2; 14; 15; 3; 3; 4; 4; 5; 6] /\
     ~ StronglySorted Z.le (validMarkers e)) /\
  (exists e n,
     sampleZeroValue [KeyValueExpr (Ident 30 "_") 31
                        (CompositeLit (Ident 33 "T") 34 [BasicLit 35 INT "1"] 36)]
                     Pad = Done (e, n) /\
     validMarkers e = [1; 6; 6; 6; 7; 8; 5; 5; 6; 6; 6; 7; 8; 9] /\
     ~ StronglySorted Z.le (validMarkers e)) /\
  (let g := mkFiller 1%nat 2 0 ∅ false in
   let b := mkVar "b" false (Basic Invalid) in
   let zero' := zero sampleUniverse sampleTypeString 7 in
   zero' (fieldInfo b) [6%nat] (incPos g) = Done (Nil, incPos g) /\
   pos (incPos g) = 3 /\
   exists g', zeroField zero' false false [6%nat] ([], 0, g, ∅) b
              = Done ([], 0, g', ∅) /\ pos g' = 2).
Proof.
  split; [|split].
  - eexists _, _. split; [vm_compute; reflexivity|]. split; [reflexivity|].
    apply (proj1 (bool_decide_eq_false _)). vm_compute. reflexivity.
  - eexists _, _. split; [vm_compute; reflexivity|]. split; [reflexivity|].
    apply (proj1 (bool_decide_eq_false _)). vm_compute. reflexivity.
  - simpl. split; [reflexivity|]. split; [reflexivity|].
    eexists. split; reflexivity.
Qed.

Lemma entries_follow_fields_witness :
  let f := mkFiller 1%nat 1 0 ∅ true in
  let entry := KeyValueExpr (Ident 2 "ID") 0 (BasicLit 2 ILLEGAL "0") in
  typ (structInfo Ext) = Struct 10%nat /\
  seen 10%nat [] = false /\
  keyed (existing f) /\
  (first f = true \/
   forall field, In field (StructFields sampleUniverse 10%nat) ->
                 existing f !! Name field = None) /\
  zero sampleUniverse sampleTypeString 8 (structInfo Ext) [] f =
    Done (CompositeLit (Ident 0 "ext.Ext") 1 [entry] 3, mkFiller 1%nat 3 3 ∅ false) /\
  List.map entryName [entry] =
  List.map (fun field => Some (Name field))
           (List.filter (keeps sampleUniverse sampleTypeString 7 f (structInfo Ext))
                        (StructFields sampleUniverse 10%nat)).
Proof.
  intros f entry.
  assert (Hk : keyed (existing f)).
  { intros nm kv H. simpl in H. rewrite lookup_empty in H. discriminate. }
  split; [reflexivity|]. split; [reflexivity|]. split; [exact Hk|].
  split; [left; reflexivity|]. split; [reflexivity|].
  apply (entries_follow_fields sampleUniverse sampleTypeString 7 (structInfo Ext) 10%nat
           [] f (Ident 0 "ext.Ext") 1 [entry] 3 (mkFiller 1%nat 3 3 ∅ false)
           eq_refl eq_refl Hk (or_introl eq_refl) eq_refl).
Defined.

(** C1, as stated, fails.  [Tags] of the imported struct [Ext] is exported,
    so it passes the test of the claim, but its map type has a value type
    that cannot be spelled from package 1: the field gets no entry. *)
Lemma entries_follow_fields_counterexample :
  exists ty lb elts rb n,
    sampleZeroValue [] Ext = Done (CompositeLit ty lb elts rb, n) /\
    List.map entryName elts = [Some "ID"] /\
    List.map (fun field => Some (Name field))
             (List.filter (visible sampleUniverse 1%nat (structInfo Ext))
                          (StructFields sampleUniverse 10%nat))
    = [Some "ID"; Some "Tags"].
Proof. eexists _, _, _, _, _. repeat split. Qed.

(** C2.  [Inner] is filled one level below the literal.  With no entry in
    the literal it gets [a] and [b]; with the entry [a: 1] in the literal its
    own field [a] is dropped: the lookup in [f.existing] is made at every
    level and its outcome gates the fields of nested structs. *)
Lemma nested_struct_reads_existing :
  sampleZeroValue [] Outer =
    Done (CompositeLit (Ident 0 "Outer") 1
            [KeyValueExpr (Ident 2 "a") 0 (BasicLit 2 ILLEGAL "0");
             KeyValueExpr (Ident 3 "in") 0
               (CompositeLit (Ident 0 "Inner") 3
                  [KeyValueExpr (Ident 4 "a") 0 (BasicLit 4 ILLEGAL "0");
                   KeyValueExpr (Ident 5 "b") 0 (BasicLit 5 ILLEGAL (quote +:+ quote))]
                  6)] 7, 8) /\
  sampleZeroValue [KeyValueExpr (Ident 10 "a") 11 (BasicLit 12 INT "1")] Outer =
    Done (CompositeLit (Ident 0 "Outer") 1
            [KeyValueExpr (Ident 2 "a") 11 (BasicLit 2 INT "1");
             KeyValueExpr (Ident 3 "in") 0
               (CompositeLit (Ident 0 "Inner") 3
                  [KeyValueExpr (Ident 4 "b") 0 (BasicLit 4 ILLEGAL (quote +:+ quote))]
                  5)] 6, 7).
Proof. split; reflexivity. Qed.

(** The self-referential [Node] is filled to a finite literal; its second
    occurrence has no entries. *)
Lemma self_referential_struct_is_finite :
  sampleZeroValue [] Node_ =
    Done (CompositeLit (Ident 0 "Node") 1
            [KeyValueExpr (Ident 2 "val") 0 (BasicLit 2 ILLEGAL "0");
             KeyValueExpr (Ident 3 "next") 0 (CompositeLit (Ident 0 "&Node") 3 [] 0)]
            4, 4).
Proof. reflexivity. Qed.

Lemma zero_M_never_returns fuel : forall nm h p visited f,
  zero sampleUniverse sampleTypeString fuel (mkLitInfo (Named M) nm h p) visited f
  = OutOfFuel.
Proof.
  induction fuel as [fuel IH] using lt_wf_ind. intros nm h p visited f.
  destruct fuel as [|[|fuel]]; [reflexivity..|].
  rewrite zero_Named_eq.
  change (Underlying sampleUniverse (Named M)) with (Map (Basic String) (Named M)).
  rewrite (zero_Map_eq _ _ _ _ _ _ _ _ _ _ "string" "M") by reflexivity.
  destruct fuel as [|fuel]; [reflexivity|].
  change (zero sampleUniverse sampleTypeString (S fuel)
            (mkLitInfo (Basic String) (if isStruct (Map (Basic String) (Named M))
                                       then Some M else nm) true false)
            visited (incPos f))
    with (Done (A := Expr * filler)
               (zeroBasic String (pos (incPos f)), incPos f)).
  cbv beta iota delta [mbind result_bind]. rewrite IH by lia. reflexivity.
Qed.

(** C3.  No depth suffices for [Rec], whose field has the map type
    [type M map[string]M]: the value of a map entry is synthesized without a
    guard, and reaches the same map type again. *)
Lemma recursive_map_never_returns : forall fuel,
  zeroValue sampleUniverse sampleTypeString fuel 1%nat [] (structInfo Rec) = OutOfFuel.
Proof.
  intros [|fuel]; [reflexivity|].
  unfold zeroValue. simpl. rewrite zero_M_never_returns. reflexivity.
Qed.

(** Samples for the literals of a map, an array and a struct. *)
Lemma lines_added_on_closing_witness :
  let f := mkFiller 1%nat 1 0 ∅ false in
  let mapInfo := mkLitInfo (Map (Basic String) (Basic Int)) None false false in
  let k := BasicLit 2 ILLEGAL (quote +:+ quote) in
  let v := BasicLit 2 ILLEGAL "0" in
  let arrInfo := mkLitInfo (Array (Basic Int) 3) None true false in
  let elts := [BasicLit 2 ILLEGAL "0"; BasicLit 3 ILLEGAL "0"; BasicLit 4 ILLEGAL "0"] in
  let f1 := mkFiller 1%nat 4 0 ∅ false in
  (typ mapInfo = Map (Basic String) (Basic Int) /\
   sampleTypeString (pkg f) (Basic String) = ("string", true) /\
   sampleTypeString (pkg f) (Basic Int) = ("int", true) /\
   zero sampleUniverse sampleTypeString 1 (mkLitInfo (Basic String) None true false) []
        (incPos f) = Done (k, incPos f) /\
   zero sampleUniverse sampleTypeString 1 (mkLitInfo (Basic Int) None true false) []
        (incPos f) = Done (v, incPos f) /\
   exists ty lb colon rb f',
     zero sampleUniverse sampleTypeString 2 mapInfo [] f =
       Done (CompositeLit ty lb [KeyValueExpr k colon v] rb, f') /\
     lines f' = lines (incPos f) + 2) /\
  (typ arrInfo = Array (Basic Int) 3 /\
   arrayTypeName sampleTypeString (pkg f) arrInfo (Basic Int) 3 (pos f) = Some Nil /\
   times 3 (zeroElem sampleUniverse (zero sampleUniverse sampleTypeString 1) (Basic Int) [])
         ([], f) = Done (elts, f1) /\
   exists rb f',
     zero sampleUniverse sampleTypeString 2 arrInfo [] f =
       Done (CompositeLit Nil (pos f) elts rb, f') /\
     lines f' = lines f1 + (Z.of_nat (length elts) + 2)).
Proof.
  intros f mapInfo k v arrInfo elts f1.
  destruct (lines_added_on_closing sampleUniverse sampleTypeString) as (Hmap & Harr & _).
  split.
  - split; [reflexivity|]. split; [reflexivity|]. split; [reflexivity|].
    split; [reflexivity|]. split; [reflexivity|].
    apply (Hmap 1%nat mapInfo (Basic String) (Basic Int) [] f "string" "int"
                k (incPos f) v (incPos f)); reflexivity.
  - split; [reflexivity|]. split; [reflexivity|]. split; [reflexivity|].
    apply (Harr 1%nat arrInfo (Basic Int) 3%nat [] f Nil elts f1); reflexivity.
Defined.

(** C5, as stated, fails.  The literal of a map has one entry and adds 2,
    not 3; and the literal of an array of length 0 has no element and adds 2,
    not nothing. *)
Lemma lines_added_on_closing_counterexample :
  let f := mkFiller 1%nat 1 0 ∅ false in
  (exists ty lb entry rb f',
     zero sampleUniverse sampleTypeString 2
          (mkLitInfo (Map (Basic String) (Basic Int)) None false false) [] f =
       Done (CompositeLit ty lb [entry] rb, f') /\
     lines f' = lines f + 2 /\ lines f' <> lines f + (2 + 1)) /\
  (exists ty lb rb f',
     zero sampleUniverse sampleTypeString 2
          (mkLitInfo (Array (Basic Int) 0) None false false) [] f =
       Done (CompositeLit ty lb [] rb, f') /\
     lines f' = lines f + 2 /\ lines f' <> lines f).
Proof.
  split.
  - eexists _, _, _, _, _. split; [reflexivity|]. split; [reflexivity|discriminate].
  - eexists _, _, _, _. split; [reflexivity|]. split; [reflexivity|discriminate].
Qed.

(** C6.  The map arm of [zero] has no test for a nil key or value, which the
    loop over the elements of an array and the loop over the fields of a
    struct both have.  In [Broken{}] the value type [Missing] of the map
    field [m] has a name that can be spelled and no value: the field is not
    left out, it gets a map literal whose one entry has nil, no expression at
    all, for its value, whereas the array [[2]Missing] drops its nil
    elements. *)
Theorem map_entry_with_nil_value :
  sampleTypeString 1%nat (Named Missing) = ("Missing", true) /\
  sampleZeroValue [] Broken =
    Done (CompositeLit (Ident 0 "Broken") 1
            [KeyValueExpr (Ident 2 "m") 0
               (CompositeLit (MapType 2 (Ident 0 "string") (Ident 0 "Missing")) 2
                  [KeyValueExpr (BasicLit 3 ILLEGAL (quote +:+ quote)) 3 Nil] 4);
             KeyValueExpr (Ident 5 "n") 0 (BasicLit 5 ILLEGAL "0")] 6, 6) /\
  zero sampleUniverse sampleTypeString 3
       (mkLitInfo (Array (Named Missing) 2) None false false) []
       (mkFiller 1%nat 1 0 ∅ false) =
    Done (CompositeLit (ArrayType 1 (BasicLit 0 ILLEGAL "2") (Ident 0 "Missing")) 1 [] 4,
          mkFiller 1%nat 4 2 ∅ false).
Proof. repeat split. Qed.

(** [ys [3]int] of [Grid]: three elements. *)
Lemma array_elements_witness :
  let f := mkFiller 1%nat 1 0 ∅ false in
  let info := mkLitInfo (Array (Basic Int) 3) None false false in
  let ty := ArrayType 1 (BasicLit 0 ILLEGAL "3") (Ident 0 "int") in
  let elts := [BasicLit 2 ILLEGAL "0"; BasicLit 3 ILLEGAL "0"; BasicLit 4 ILLEGAL "0"] in
  let elemInfo := mkLitInfo (Basic Int) None true false in
  (zero sampleUniverse sampleTypeString 2 info [] f =
     Done (CompositeLit ty 1 elts 5, mkFiller 1%nat 5 5 ∅ false) /\
   length elts = 3%nat /\
   Forall (fun e => isNil e = false /\
             exists g g', zero sampleUniverse sampleTypeString 1 elemInfo [] g = Done (e, g'))
          elts) /\
  (arrayTypeName sampleTypeString (pkg f) info (Basic Int) 3 (pos f) = Some ty /\
   (forall g, exists r, zero sampleUniverse sampleTypeString 1 elemInfo [] g = Done r) /\
   exists elts' rb f',
     zero sampleUniverse sampleTypeString 2 info [] f =
       Done (CompositeLit ty (pos f) elts' rb, f')).
Proof.
  intros f info ty elts elemInfo.
  destruct (array_elements sampleUniverse sampleTypeString) as (Hcontent & Hreturns).
  assert (Hrun : zero sampleUniverse sampleTypeString 2 info [] f =
                 Done (CompositeLit ty 1 elts 5, mkFiller 1%nat 5 5 ∅ false))
    by reflexivity.
  assert (Helem : forall g, exists r,
            zero sampleUniverse sampleTypeString 1 elemInfo [] g = Done r)
    by (intros g; eexists; reflexivity).
  split.
  - split; [exact Hrun|].
    apply (Hcontent 1%nat info (Basic Int) 3%nat [] f ty 1 elts 5 _ eq_refl Hrun).
  - split; [reflexivity|]. split; [exact Helem|].
    apply (Hreturns 1%nat info (Basic Int) 3%nat [] f ty eq_refl eq_refl Helem).
Defined.

(** C7, as stated, fails.  The array type [[2]T] with [T] an invalid type
    (the tool works on programs with type errors) is filled with a literal of
    no element: each of the two rounds gets nil and appends nothing. *)
Lemma array_elements_counterexample :
  let f := mkFiller 1%nat 1 0 ∅ false in
  exists ty lb elts rb f',
    zero sampleUniverse sampleTypeString 2
         (mkLitInfo (Array (Basic Invalid) 2) None false false) [] f =
      Done (CompositeLit ty lb elts rb, f') /\
    length elts = 0%nat /\ length elts <> 2%nat.
Proof.
  eexists _, _, _, _, _. split; [reflexivity|]. split; [reflexivity|discriminate].
Qed.

(** C8.  [fixExprPos] sets the opening marker of a parenthesis and stops: it
    neither descends into the operand nor sets the closing marker, which its
    cases for an index expression and for a call both do.  In the reused
    entry [a: (x)] the operand [x] and the closing parenthesis keep the
    markers 14 and 15 they had in the file, among renumbered markers; in
    [a: x[i]] every marker but the colon is renumbered. *)
Theorem parenthesis_is_not_renumbered :
  let kv := KeyValueExpr (Ident 10 "a") 11 (ParenExpr 13 (Ident 14 "x") 15) in
  let ix := KeyValueExpr (Ident 10 "a") 11
              (IndexExpr (Ident 13 "x") 14 (Ident 15 "i") 16) in
  let g := mkFiller 1%nat 2 0 ∅ false in
  fixExprPos kv g = (KeyValueExpr (Ident 2 "a") 11 (ParenExpr 2 (Ident 14 "x") 15), g) /\
  fixExprPos ix g =
    (KeyValueExpr (Ident 2 "a") 11 (IndexExpr (Ident 2 "x") 2 (Ident 2 "i") 2), g) /\
  sampleZeroValue [kv] Outer =
    Done (CompositeLit (Ident 0 "Outer") 1
            [KeyValueExpr (Ident 2 "a") 11 (ParenExpr 2 (Ident 14 "x") 15);
             KeyValueExpr (Ident 3 "in") 0
               (CompositeLit (Ident 0 "Inner") 3
                  [KeyValueExpr (Ident 4 "b") 0 (BasicLit 4 ILLEGAL (quote +:+ quote))]
                  5)] 6, 7).
Proof. repeat split. Qed.

(** The two literals on line 3 of the sample file. *)
Lemma query_records_witness :
  let user := mkOutput 40 46 "lines=14" in
  let address := mkOutput 50 59 "lines=9" in
  (byOffset sampleUniverse sampleTypeString sampleFormat samplePath 8 [sampleFile]
            "main.go" 1%nat 42 = Done [user] /\
   length [user] = 1%nat) /\
  (byLine sampleUniverse sampleTypeString sampleFormat 8 [sampleFile] "main.go" 1%nat 3
   = Done [address; user] /\
   [address; user] = reverse [user; address] /\
   StronglySorted Z.lt (List.map litStartOff (literals (fileAST sampleFile))) /\
   StronglySorted (flip Z.lt) (List.map Start [address; user])).
Proof.
  intros user address.
  destruct (query_records sampleUniverse sampleTypeString sampleFormat samplePath)
    as (Hoffset & Hline).
  assert (Hsorted : StronglySorted Z.lt
                      (List.map litStartOff (literals (fileAST sampleFile))))
    by (repeat constructor).
  split.
  - split; [reflexivity|].
    apply (Hoffset 8%nat [sampleFile] "main.go" 1%nat 42 [user]). reflexivity.
  - split; [reflexivity|]. split; [reflexivity|]. split; [exact Hsorted|].
    destruct (Hline 8%nat [sampleFile] "main.go" 1%nat 3 [address; user] eq_refl)
      as (f & st & Hf & _ & _ & _ & Hdesc).
    injection Hf as <-. apply Hdesc. exact Hsorted.
Defined.

(** * The further properties on the sample program *)

(** In the program of structs only, [Node] with its pointer to itself
    included, the descent into [Node] returns. *)
Lemma zero_returns_witness :
  let info := mkLitInfo (Named Node_) None false false in
  structGuarded structUniverse (fun _ => O) /\
  structsBounded structUniverse 11 /\
  structsBelow 11 (typ info) /\
  Forall (fun s => (s < 11)%nat) [] /\
  NoDup (A := StructId) [] /\
  exists fuel, forall f,
    zero structUniverse sampleTypeString fuel info [] f <> OutOfFuel.
Proof.
  intros info.
  assert (Hg : structGuarded structUniverse (fun _ => O))
    by (intros n Hn; discriminate Hn).
  assert (Hb : structsBounded structUniverse 11).
  { split.
    - intros n. simpl. lia.
    - intros s field Hin.
      do 13 (destruct s as [|s]; [simpl in Hin; repeat
               (destruct Hin as [<-|Hin]; [simpl; auto|]); destruct Hin|]).
      destruct Hin. }
  assert (Hv : Forall (fun s => (s < 11)%nat) []) by constructor.
  assert (Hn : NoDup (A := StructId) []) by constructor.
  repeat (split; [assumption|]). split; [exact I|]. split; [exact Hv|]. split; [exact Hn|].
  apply (zero_returns structUniverse sampleTypeString (fun _ => O) 11%nat Hg Hb info []
           I Hv Hn).
Defined.

Lemma sampleUniverse_handled : handledUniverse sampleUniverse.
Proof.
  split.
  - intros n. do 14 (destruct n as [|n]; [simpl; auto|]). simpl. auto.
  - intros s field Hin.
    do 13 (destruct s as [|s]; [simpl in Hin; repeat
             (destruct Hin as [<-|Hin]; [simpl; auto|]); destruct Hin|]).
    destruct Hin.
Qed.

Lemma structUniverse_handled : handledUniverse structUniverse.
Proof.
  split.
  - intros n. exact I.
  - intros s field Hin.
    do 13 (destruct s as [|s]; [simpl in Hin; repeat
             (destruct Hin as [<-|Hin]; [simpl; auto|]); destruct Hin|]).
    destruct Hin.
Qed.

Lemma structUniverse_bounded : structsBounded structUniverse 11.
Proof.
  split.
  - intros n. simpl. lia.
  - intros s field Hin.
    do 13 (destruct s as [|s]; [simpl in Hin; repeat
             (destruct Hin as [<-|Hin]; [simpl; auto|]); destruct Hin|]).
    destruct Hin.
Qed.

(** The literal [User{}] in the program of structs only. *)
Lemma zeroValue_panics_only_on_unhandled_witness :
  let info := mkLitInfo (Struct User) (Some User) false false in
  handledUniverse structUniverse /\
  handled (typ info) /\
  Forall (fun e => entryName e <> None) [] /\
  quiet (zeroValue structUniverse sampleTypeString 8 1%nat [] info) /\
  structGuarded structUniverse (fun _ => O) /\
  structsBounded structUniverse 11 /\
  structsBelow 11 (typ info) /\
  exists fuel e n,
    forall fuel', (fuel <= fuel')%nat ->
      zeroValue structUniverse sampleTypeString fuel' 1%nat [] info = Done (e, n).
Proof.
  intros info.
  assert (Hk : Forall (fun e => entryName e <> None) []) by constructor.
  assert (Hg : structGuarded structUniverse (fun _ => O))
    by (intros n Hn; discriminate Hn).
  assert (Hb : structsBelow 11 (typ info)) by (simpl; unfold User; lia).
  destruct (zeroValue_panics_only_on_unhandled structUniverse sampleTypeString 1%nat []
              info structUniverse_handled I Hk) as [Hquiet Hreturns].
  split; [exact structUniverse_handled|]. split; [exact I|]. split; [exact Hk|].
  split; [exact (Hquiet 8%nat)|]. split; [exact Hg|].
  split; [exact structUniverse_bounded|]. split; [exact Hb|].
  exact (Hreturns (fun _ => O) 11%nat Hg structUniverse_bounded Hb).
Defined.

(** A map that can be spelled, one that cannot ([map[string]hidden] seen
    from package 1), and the field [Tags] of [Ext] that has that type. *)
Lemma map_field_default_witness :
  let f := mkFiller 1%nat 1 0 ∅ false in
  let mapInfo := mkLitInfo (Map (Basic String) (Basic Int)) None false false in
  let k := BasicLit 2 ILLEGAL (quote +:+ quote) in
  let v := BasicLit 2 ILLEGAL "0" in
  let hiddenInfo := mkLitInfo (Map (Basic String) (Named hidden)) None false false in
  let ID := mkVar "ID" true (Basic Int64) in
  let name_ := mkVar "name" false (Basic String) in
  let Tags := mkVar "Tags" true (Map (Basic String) (Named hidden)) in
  let body := zeroField (zero sampleUniverse sampleTypeString 2) true true [10%nat] in
  (zero sampleUniverse sampleTypeString 1 (mkLitInfo (Basic String) None true false) []
        (incPos f) = Done (k, incPos f) /\
   zero sampleUniverse sampleTypeString 1 (mkLitInfo (Basic Int) None true false) []
        (incPos f) = Done (v, incPos f) /\
   zero sampleUniverse sampleTypeString 2 mapInfo [] f =
     Done (CompositeLit (MapType 1 (NewIdent "string") (NewIdent "int")) 1
                        [KeyValueExpr k 2 v] 3,
           mkFiller 1%nat 3 2 ∅ false)) /\
  (snd (sampleTypeString (pkg f) (Named hidden)) = false /\
   zero sampleUniverse sampleTypeString 2 hiddenInfo [] f = Done (Nil, f)) /\
  (existing f !! "Tags" = None /\
   forEach body ([ID; name_] ++ Tags :: []) ([], 0, f, ∅) =
   forEach body ([ID; name_] ++ []) ([], 0, f, ∅)).
Proof.
  intros f mapInfo k v hiddenInfo ID name_ Tags body.
  destruct (map_field_default sampleUniverse sampleTypeString) as (Hmap & Hnil & Hskip).
  split; [|split].
  - split; [reflexivity|]. split; [reflexivity|].
    apply (Hmap 1%nat mapInfo (Basic String) (Basic Int) [] f "string" "int"
                k (incPos f) v (incPos f)); reflexivity.
  - split; [reflexivity|].
    apply (Hnil 1%nat hiddenInfo (Basic String) (Named hidden) [] f);
      [reflexivity|right; reflexivity].
  - split; [reflexivity|].
    apply (Hskip 1%nat true true [10%nat] [ID; name_] Tags [] (Basic String) (Named hidden)
                 ([], 0, f, ∅)); [reflexivity|right; reflexivity|right; reflexivity].
Defined.

(** [Pad{_: T{1}}]: the one entry is taken over for both blank fields. *)
Lemma reused_entries_keep_shape_witness :
  let kv := KeyValueExpr (Ident 30 "_") 31
              (CompositeLit (Ident 33 "T") 34 [BasicLit 35 INT "1"] 36) in
  let e := KeyValueExpr (Ident 6 "_") 31
             (CompositeLit (Ident 6 "T") 6 [BasicLit 7 INT "1"] 8) in
  let elts := [e; KeyValueExpr (Ident 5 "x") 0 (BasicLit 5 ILLEGAL "0"); e] in
  let f := mkFiller 1%nat 1 0 (<["_" := kv]> ∅) true in
  let f' := mkFiller 1%nat 9 11 (<["_" := kv]> ∅) false in
  typ (structInfo Pad) = Struct 12%nat /\
  seen 12%nat [] = false /\
  first f = true /\
  keyed (existing f) /\
  zero sampleUniverse sampleTypeString 8 (structInfo Pad) [] f =
    Done (CompositeLit (Ident 0 "Pad") 1 elts 9, f') /\
  In e elts /\ entryName e = Some "_" /\ existing f !! "_" = Some kv /\
  shape e = shape kv /\
  (forall e', In e' elts -> entryName e' = Some "_" -> e' = e).
Proof.
  intros kv e elts f f'.
  assert (Hk : keyed (existing f)).
  { intros nm kv0 H. simpl in H. apply lookup_insert_Some in H as [[<- <-]|[_ H]].
    - reflexivity.
    - rewrite lookup_empty in H. discriminate. }
  assert (Hrun : zero sampleUniverse sampleTypeString 8 (structInfo Pad) [] f =
                 Done (CompositeLit (Ident 0 "Pad") 1 elts 9, f'))
    by (vm_compute; reflexivity).
  assert (Hin : In e elts) by (left; reflexivity).
  split; [reflexivity|]. split; [reflexivity|]. split; [reflexivity|].
  split; [exact Hk|]. split; [exact Hrun|]. split; [exact Hin|].
  split; [reflexivity|]. split; [reflexivity|].
  exact (reused_entries_keep_shape sampleUniverse sampleTypeString 7 (structInfo Pad)
           12%nat [] f (Ident 0 "Pad") 1 elts 9 f' eq_refl eq_refl eq_refl Hk Hrun
           e "_" kv Hin eq_refl eq_refl).
Defined.

(** The field [Tags map[string]hidden] of [Ext], seen from package 1. *)
Lemma nil_results_witness :
  let info := mkLitInfo (Map (Basic String) (Named hidden)) None false false in
  let f := mkFiller 1%nat 5 3 ∅ false in
  zero sampleUniverse sampleTypeString 1 info [] f = Done (Nil, f) /\
  isNil Nil = yieldsNil sampleUniverse sampleTypeString 1 (pkg f) info /\
  (isNil Nil = true -> f = f).
Proof.
  intros info f.
  assert (H : zero sampleUniverse sampleTypeString 1 info [] f = Done (Nil, f))
    by reflexivity.
  split; [exact H|].
  exact (nil_results sampleUniverse sampleTypeString 1%nat info [] f Nil f H).
Defined.

(** The literal [Inner{a: 0, b: ""}] synthesized at position 5. *)
Lemma zero_keeps_context_witness :
  let f := mkFiller 1%nat 5 3 ∅ true in
  let f' := mkFiller 1%nat 8 7 ∅ false in
  let e := CompositeLit (Ident 0 "Inner") 5
             [KeyValueExpr (Ident 6 "a") 0 (BasicLit 6 ILLEGAL "0");
              KeyValueExpr (Ident 7 "b") 0 (BasicLit 7 ILLEGAL (quote +:+ quote))] 8 in
  zero sampleUniverse sampleTypeString 3 (structInfo Inner) [] f = Done (e, f') /\
  pkg f' = pkg f /\ existing f' = existing f /\
  (first f' = first f \/ first f' = false) /\ lines f <= lines f'.
Proof.
  intros f f' e.
  assert (H : zero sampleUniverse sampleTypeString 3 (structInfo Inner) [] f = Done (e, f'))
    by reflexivity.
  split; [exact H|].
  exact (zero_keeps_context sampleUniverse sampleTypeString 3%nat (structInfo Inner) []
           f e f' H).
Defined.

(** The array [[2]Inner{{a: 0, b: ""}, {a: 0, b: ""}}]. *)
Lemma element_types_are_elided_witness :
  let info := mkLitInfo (Array (Named Inner) 2) None false false in
  let f := mkFiller 1%nat 5 3 ∅ false in
  let inner p :=
    CompositeLit Nil p
      [KeyValueExpr (Ident (p + 1) "a") 0 (BasicLit (p + 1) ILLEGAL "0");
       KeyValueExpr (Ident (p + 2) "b") 0 (BasicLit (p + 2) ILLEGAL (quote +:+ quote))]
      (p + 3) in
  let e := CompositeLit (ArrayType 5 (BasicLit 0 ILLEGAL "2") (Ident 0 "Inner")) 5
             [inner 6; inner 10] 14 in
  let f' := mkFiller 1%nat 14 15 ∅ false in
  zero sampleUniverse sampleTypeString 4 info [] f = Done (e, f') /\
  (e = Nil \/
   exists ty lb elts rb, e = CompositeLit ty lb elts rb /\ Forall elided elts).
Proof.
  intros info f inner e f'.
  assert (H : zero sampleUniverse sampleTypeString 4 info [] f = Done (e, f'))
    by reflexivity.
  split; [exact H|].
  exact (element_types_are_elided sampleUniverse sampleTypeString 4%nat info [] f e f' H).
Defined.

(** The field [Addr *Address] of [User]. *)
Lemma pointer_values_witness :
  let info := mkLitInfo (Pointer (Named Address)) None false false in
  let f := mkFiller 1%nat 5 3 ∅ false in
  let e := CompositeLit (Ident 0 "&Address") 5
             [KeyValueExpr (Ident 6 "City") 0 (BasicLit 6 ILLEGAL (quote +:+ quote));
              KeyValueExpr (Ident 7 "ZIP") 0 (BasicLit 7 ILLEGAL "0");
              KeyValueExpr (Ident 8 "LatLng") 0
                (CompositeLit (ArrayType 8 (BasicLit 0 ILLEGAL "2") (Ident 0 "float64")) 8
                   [BasicLit 9 ILLEGAL "0.0"; BasicLit 10 ILLEGAL "0.0"] 11)] 12 in
  let f' := mkFiller 1%nat 12 12 ∅ false in
  typ info = Pointer (Named Address) /\ name info = None /\ hideType info = false /\
  zero sampleUniverse sampleTypeString 5 info [] f = Done (e, f') /\
  (e = Nil \/
   exists tn lb elts rb,
     sampleTypeString (pkg f) (Named Address) = (tn, true) /\
     e = CompositeLit (NewIdent ("&" +:+ tn)) lb elts rb).
Proof.
  intros info f e f'.
  assert (H : zero sampleUniverse sampleTypeString 5 info [] f = Done (e, f'))
    by reflexivity.
  split; [reflexivity|]. split; [reflexivity|]. split; [reflexivity|]. split; [exact H|].
  exact (pointer_values sampleUniverse sampleTypeString 5%nat info (Named Address) [] f e f'
           eq_refl eq_refl eq_refl H).
Defined.

(** Below [Outer{a: 1}] and below [Outer{a: 2}] the literal of [Inner] is the
    same one: neither value is looked at, the name [a] is. *)
Lemma nested_levels_read_names_only_witness :
  let one := KeyValueExpr (Ident 10 "a") 11 (BasicLit 13 INT "1") in
  let two := KeyValueExpr (Ident 10 "a") 11 (BasicLit 13 INT "2") in
  let f := mkFiller 1%nat 3 0 (<["a" := one]> ∅) false in
  let g := mkFiller 1%nat 3 0 (<["a" := two]> ∅) false in
  let e := CompositeLit (Ident 0 "Inner") 3
             [KeyValueExpr (Ident 4 "b") 0 (BasicLit 4 ILLEGAL (quote +:+ quote))] 5 in
  sameNames f g /\
  zero sampleUniverse sampleTypeString 3 (structInfo Inner) [4%nat] f
  = Done (e, mkFiller 1%nat 5 3 (<["a" := one]> ∅) false) /\
  zero sampleUniverse sampleTypeString 3 (structInfo Inner) [4%nat] g
  = Done (e, mkFiller 1%nat 5 3 (<["a" := two]> ∅) false) /\
  sameNames (mkFiller 1%nat 5 3 (<["a" := one]> ∅) false)
            (mkFiller 1%nat 5 3 (<["a" := two]> ∅) false).
Proof.
  intros one two f g e.
  assert (Hfg : sameNames f g).
  { repeat (split; [reflexivity|]). intros nm. subst f g. simpl.
    destruct (decide (nm = "a")) as [->|Hne].
    - rewrite !lookup_insert_eq. split; discriminate.
    - rewrite !lookup_insert_ne by congruence. reflexivity. }
  pose proof (nested_levels_read_names_only sampleUniverse sampleTypeString 3%nat
                (structInfo Inner) [4%nat] f g Hfg) as H.
  split; [exact Hfg|]. split; [reflexivity|]. split; [reflexivity|].
  exact (proj2 H).
Defined.

(** The literal [Inner{}] at position 1: [a] on position 2, [b] on position
    3, the closing brace on position 4, four lines. *)
Lemma struct_of_plain_fields_witness :
  let f := mkFiller 1%nat 1 0 ∅ true in
  typ (structInfo Inner) = Struct Inner /\
  seen Inner [] = false /\
  structTypeName sampleTypeString (pkg f) (structInfo Inner) Inner = Some (Ident 0 "Inner") /\
  StructFields sampleUniverse Inner <> [] /\
  Forall (fun x => existing f !! Name x = None /\
                   visible sampleUniverse (pkg f) (structInfo Inner) x = true /\
                   scalar sampleUniverse (VarType x) = true)
         (StructFields sampleUniverse Inner) /\
  zero sampleUniverse sampleTypeString 3 (structInfo Inner) [] f =
  Done (CompositeLit (Ident 0 "Inner") 1
          [KeyValueExpr (Ident 2 "a") 0 (BasicLit 2 ILLEGAL "0");
           KeyValueExpr (Ident 3 "b") 0 (BasicLit 3 ILLEGAL (quote +:+ quote))] 4,
        mkFiller 1%nat 4 4 ∅ false).
Proof.
  intros f.
  assert (Hne : StructFields sampleUniverse Inner <> []) by discriminate.
  assert (Hall : Forall (fun x => existing f !! Name x = None /\
                          visible sampleUniverse (pkg f) (structInfo Inner) x = true /\
                          scalar sampleUniverse (VarType x) = true)
                        (StructFields sampleUniverse Inner)).
  { repeat constructor. }
  split; [reflexivity|]. split; [reflexivity|]. split; [reflexivity|].
  split; [exact Hne|]. split; [exact Hall|].
  exact (struct_of_plain_fields sampleUniverse sampleTypeString 0%nat (structInfo Inner)
           Inner [] f (Ident 0 "Inner") eq_refl eq_refl eq_refl Hne Hall).
Defined.

(** [Gaps{}] is filled to [Gaps{a: nil, c: 0}]; filling that again gives the
    same literal. *)
Lemma refilling_changes_markers_only_witness :
  let e := CompositeLit (Ident 0 "Gaps") 1
             [KeyValueExpr (Ident 2 "a") 0 (Ident 2 "nil");
              KeyValueExpr (Ident 3 "c") 0 (BasicLit 3 ILLEGAL "0")] 4 in
  typ (structInfo Gaps) = Struct Gaps /\
  List.NoDup (List.map Name (StructFields sampleUniverse Gaps)) /\
  sampleZeroValue [] Gaps = Done (e, 4) /\
  e <> Nil /\
  exists ty lb elts rb e' n',
    e = CompositeLit ty lb elts rb /\
    sampleZeroValue elts Gaps = Done (e', n') /\
    shape e' = shape e.
Proof.
  intros e.
  assert (Hnd : List.NoDup (List.map Name (StructFields sampleUniverse Gaps))).
  { simpl. repeat constructor; simpl; intros H;
      repeat (destruct H as [H|H]; [discriminate H|]); exact H. }
  assert (Hne : e <> Nil) by discriminate.
  split; [reflexivity|]. split; [exact Hnd|]. split; [reflexivity|]. split; [exact Hne|].
  exact (refilling_changes_markers_only sampleUniverse sampleTypeString 8%nat 1%nat []
           (structInfo Gaps) Gaps e 4 eq_refl Hnd eq_refl Hne).
Defined.

(** The entries [a: 1, b: 2, a: 3]: the name [a] holds the third entry. *)
Lemma existing_holds_last_entries_witness :
  let first_ := KeyValueExpr (Ident 10 "a") 11 (BasicLit 13 INT "1") in
  let second := KeyValueExpr (Ident 16 "b") 17 (BasicLit 19 INT "2") in
  let third := KeyValueExpr (Ident 22 "a") 23 (BasicLit 25 INT "3") in
  let elts := [first_; second; third] in
  let m := <["a" := third]> (<["b" := second]> (<["a" := first_]> ∅)) in
  Forall (fun e => entryName e <> None) elts /\
  (exists m', collectExisting elts ∅ = Done m') /\
  collectExisting elts ∅ = Done m /\
  m !! "a" = Some third /\ m !! "b" = Some second /\ m !! "c" = None.
Proof.
  intros first_ second third elts m.
  assert (Hk : Forall (fun e => entryName e <> None) elts)
    by (repeat constructor; discriminate).
  assert (Hm : collectExisting elts ∅ = Done m) by reflexivity.
  destruct (existing_holds_last_entries elts) as [Hreturns Hlast].
  destruct (Hlast m Hm) as [_ Hlookup].
  split; [exact Hk|]. split; [exact (Hreturns Hk)|]. split; [exact Hm|].
  split; [exact (Hlookup "a")|]. split; [exact (Hlookup "b")|exact (Hlookup "c")].
Defined.

(** The entry [a: f(1) + x]. *)
Lemma entry_without_literal_is_one_line_witness :
  let kv := KeyValueExpr (Ident 10 "a") 11
              (BinaryExpr (CallExpr (Ident 13 "f") 14 [BasicLit 15 INT "1"] NoPos 16)
                          18 ADD (Ident 20 "x")) in
  let f := mkFiller 1%nat 2 0 ∅ false in
  litFree kv = true /\
  (fixExprPos kv f).2 = f /\
  (walked kv = true -> Forall (fun p => p = pos f) (markers (fixExprPos kv f).1)).
Proof.
  intros kv f. split; [reflexivity|].
  exact (entry_without_literal_is_one_line kv f eq_refl).
Defined.

(** Offset 20 of [grid.go], the second file of the package. *)
Lemma findPos_first_file_witness :
  0 <= 20 /\
  exists before after,
    [sampleFile; gridFile] = before ++ gridFile :: after /\
    Forall (fun g => fileName g <> "grid.go") before /\
    fileName gridFile = "grid.go" /\ 20 <= fileSize gridFile /\
    220 = fileBase gridFile + 20.
Proof.
  assert (H : 0 <= 20) by lia.
  split; [exact H|].
  exact (findPos_first_file [sampleFile; gridFile] "grid.go" 20 H).
Defined.

(** The path from the value [1] of the map entry of line 2 of [grid.go]
    outwards, and the path from the key [m] of the struct literal. *)
Lemma findCompositeLit_innermost_witness :
  let value := ExprNode (Basic UntypedInt) [] in
  let entry := OtherNode [] in
  Forall (fun n => isLit n = false) [value; entry] /\
  findCompositeLit sampleUniverse [value; entry] = Fail errNotFound /\
  (structLit sampleUniverse mapLit = false ->
   findCompositeLit sampleUniverse
     ([value; entry] ++ CompositeLitNode mapLit [] ::
        [entry; CompositeLitNode gridLit []; OtherNode []])
   = Fail errNotFound) /\
  (Underlying sampleUniverse (litType gridLit) = Struct Grid ->
   findCompositeLit sampleUniverse
     ([value; entry] ++ CompositeLitNode gridLit [] :: OtherNode [] :: [])
   = Done (gridLit, mkLitInfo (Struct Grid) (Some Grid) false false)).
Proof.
  intros value entry.
  assert (Hpre : Forall (fun n => isLit n = false) [value; entry])
    by (repeat constructor).
  destruct (findCompositeLit_innermost sampleUniverse [value; entry] Hpre)
    as (Hnone & Hother & Hstruct).
  split; [exact Hpre|]. split; [exact Hnone|]. split.
  - intros Hs. apply Hother. exact Hs.
  - intros Hs. exact (Hstruct gridLit [] (OtherNode []) [] Grid Hs).
Defined.

(** Offset 10 of [grid.go], inside [Grid{...}] and before its map literal. *)
Lemma byOffset_record_witness :
  let code := "Grid{...} lines=15" in
  byOffset sampleUniverse sampleTypeString headFormat gridPath 8 [sampleFile; gridFile]
           "grid.go" 1%nat 10
  = Done [mkOutput 8 40 code] /\
  exists f p lit info newlit lines code',
    findPos [sampleFile; gridFile] "grid.go" 10 = Done (f, p) /\
    findCompositeLit sampleUniverse (gridPath f p p) = Done (lit, info) /\
    zeroValue sampleUniverse sampleTypeString 8 1%nat (litElts lit) info
    = Done (newlit, lines) /\
    headFormat lines newlit = inr code' /\
    [mkOutput 8 40 code] = [mkOutput (litStartOff lit) (litEndOff lit) code'].
Proof.
  intros code.
  assert (H : byOffset sampleUniverse sampleTypeString headFormat gridPath 8
                [sampleFile; gridFile] "grid.go" 1%nat 10 = Done [mkOutput 8 40 code])
    by reflexivity.
  split; [exact H|].
  exact (byOffset_record sampleUniverse sampleTypeString headFormat gridPath 8%nat
           [sampleFile; gridFile] "grid.go" 1%nat 10 [mkOutput 8 40 code] H).
Defined.

(** A file name that is not in the package. *)
Lemma unknown_file_is_an_error_witness :
  Forall (fun f => fileName f <> "other.go") [sampleFile; gridFile] /\
  byOffset sampleUniverse sampleTypeString headFormat gridPath 8 [sampleFile; gridFile]
           "other.go" 1%nat 10
  = Fail (errOther "could not find file") /\
  byLine sampleUniverse sampleTypeString headFormat 8 [sampleFile; gridFile]
         "other.go" 1%nat 2
  = Fail (errOther "could not find file").
Proof.
  assert (H : Forall (fun f => fileName f <> "other.go") [sampleFile; gridFile])
    by (repeat constructor; discriminate).
  destruct (unknown_file_is_an_error sampleUniverse sampleTypeString headFormat gridPath
              [sampleFile; gridFile] "other.go" H) as [Hoffset Hline].
  split; [exact H|]. split; [apply Hoffset|apply Hline].
Defined.

(** Line 3 of [grid.go] has no literal. *)
Lemma byLine_nothing_on_the_line_witness :
  lastFile [sampleFile; gridFile] "grid.go" None = Some gridFile /\
  Forall (fun lit => covers 3 lit = false) (literals (fileAST gridFile)) /\
  byLine sampleUniverse sampleTypeString headFormat 8 [sampleFile; gridFile]
         "grid.go" 1%nat 3
  = Fail errNotFound.
Proof.
  assert (H : Forall (fun lit => covers 3 lit = false) (literals (fileAST gridFile)))
    by (repeat constructor).
  split; [reflexivity|]. split; [exact H|].
  exact (byLine_nothing_on_the_line sampleUniverse sampleTypeString headFormat 8%nat
           [sampleFile; gridFile] "grid.go" 1%nat 3 gridFile eq_refl H).
Defined.

(** Line 3 of [main.go]: [User{}] and [Address{}], the later one first. *)
Lemma byLine_records_witness :
  let user := mkOutput 40 46 "User{...} lines=14" in
  let address := mkOutput 50 59 "Address{...} lines=9" in
  (forall lines e, exists code, headFormat lines e = inr code) /\
  byLine sampleUniverse sampleTypeString headFormat 8 [sampleFile; gridFile]
         "main.go" 1%nat 3
  = Done [address; user] /\
  List.map recordExtent (reverse [address; user]) =
  List.map litExtent
    (List.filter (structLit sampleUniverse) (met sampleUniverse 3 (fileAST sampleFile))).
Proof.
  intros user address.
  assert (Htotal : forall lines e, exists code, headFormat lines e = inr code)
    by (intros lines e; eexists; reflexivity).
  assert (H : byLine sampleUniverse sampleTypeString headFormat 8 [sampleFile; gridFile]
                "main.go" 1%nat 3 = Done [address; user]) by reflexivity.
  destruct (byLine_records sampleUniverse sampleTypeString headFormat 8%nat
              [sampleFile; gridFile] "main.go" 1%nat 3 [address; user] H)
    as (f & Hf & _ & Heq).
  injection Hf as <-.
  split; [exact Htotal|]. split; [exact H|exact (Heq Htotal)].
Defined.

(** Line 4 of [grid.go]: [User{}] is filled, the slice literal after it is
    the last literal met, and the query ends without a record. *)
Lemma byLine_last_literal_decides_witness :
  lastFile [sampleFile; gridFile] "grid.go" None = Some gridFile /\
  last (met sampleUniverse 4 (fileAST gridFile)) = Some intsLit /\
  structLit sampleUniverse intsLit = false /\
  match byLine sampleUniverse sampleTypeString headFormat 8 [sampleFile; gridFile]
               "grid.go" 1%nat 4 with
  | Done _ => False
  | Fail e => e = errNotFound
  | _ => True
  end.
Proof.
  split; [reflexivity|]. split; [reflexivity|]. split; [reflexivity|].
  exact (byLine_last_literal_decides sampleUniverse sampleTypeString headFormat 8%nat
           [sampleFile; gridFile] "grid.go" 1%nat 4 gridFile intsLit
           eq_refl eq_refl eq_refl).
Defined.

(** Line 6 of [grid.go]: the slice literal beside [Inner{}] hides its type. *)
Lemma byLine_hides_type_after_collection_witness :
  lastFile [sampleFile; gridFile] "grid.go" None = Some gridFile /\
  met sampleUniverse 6 (fileAST gridFile) = [intsLit2; innerLit] /\
  structLit sampleUniverse intsLit2 = false /\
  hideTypeFor (Some (Underlying sampleUniverse (litType intsLit2))) = true /\
  Underlying sampleUniverse (litType innerLit) = Struct Inner /\
  byLine sampleUniverse sampleTypeString headFormat 8 [sampleFile; gridFile]
         "grid.go" 1%nat 6
  = Done [mkOutput 102 109 "{...} lines=4"].
Proof.
  split; [reflexivity|]. split; [reflexivity|]. split; [reflexivity|].
  split; [reflexivity|]. split; [reflexivity|].
  exact (byLine_hides_type_after_collection sampleUniverse sampleTypeString headFormat
           8%nat [sampleFile; gridFile] "grid.go" 1%nat 6 gridFile intsLit2 innerLit Inner
           eq_refl eq_refl eq_refl eq_refl eq_refl).
Defined.

(** [fillstruct -file=grid.go -offset=20 -line=2]: offset 20 is inside the
    map literal, where nothing is found, and line 2 gives the record of
    [Grid{...}]; without a line the run is fatal; without both, usage. *)
Lemma main_tries_offset_then_line_witness :
  let grid := mkOutput 8 40 "Grid{...} lines=15" in
  let pkg := mkPackageInfo 1%nat [sampleFile; gridFile] in
  ((0 = 0 /\ 0 = 0) \/ "grid.go" = EmptyString) /\
  sampleMain "grid.go" 0 0 = Usage /\
  (20 <> 0 \/ 2 <> 0) /\ "grid.go" <> EmptyString /\
  sampleAbsPath "grid.go" = inr "grid.go" /\
  sampleLoad "grid.go" false = inr sampleProgram /\
  InitialPackages sampleProgram = pkg :: [] /\
  0 < 20 /\ 0 < 2 /\
  byOffset sampleUniverse sampleTypeString headFormat gridPath 8 (Files pkg) "grid.go"
           (Pkg pkg) 20 = Fail errNotFound /\
  sampleMain "grid.go" 20 2 =
  exitOf (byLine sampleUniverse sampleTypeString headFormat 8 (Files pkg) "grid.go"
                 (Pkg pkg) 2) /\
  sampleMain "grid.go" 20 2 = Returned [grid].
Proof.
  intros grid pkg.
  assert (Hnone : (0 = 0 /\ 0 = 0) \/ "grid.go" = EmptyString) by (left; split; reflexivity).
  assert (Hflags : 20 <> 0 \/ 2 <> 0) by (left; discriminate).
  assert (Hname : "grid.go" <> EmptyString) by discriminate.
  assert (Hoff : 0 < 20) by lia.
  assert (Hline : 0 < 2) by lia.
  split; [exact Hnone|]. split.
  { exact (proj1 (main_tries_offset_then_line sampleUniverse sampleTypeString headFormat
                    gridPath sampleAbsPath sampleLoad 8%nat "grid.go" false 0 0) Hnone). }
  split; [exact Hflags|]. split; [exact Hname|].
  split; [reflexivity|]. split; [reflexivity|]. split; [reflexivity|].
  split; [exact Hoff|]. split; [exact Hline|]. split; [reflexivity|].
  destruct (proj2 (main_tries_offset_then_line sampleUniverse sampleTypeString headFormat
                     gridPath sampleAbsPath sampleLoad 8%nat "grid.go" false 20 2)
                  "grid.go" sampleProgram pkg [] Hflags Hname eq_refl eq_refl eq_refl)
    as (Hpositive & _ & _).
  destruct (Hpositive Hoff) as (_ & _ & Hfallback & _).
  split; [exact (Hfallback eq_refl Hline)|reflexivity].
Defined.

(** The same run, read off the path around offset 20: the innermost literal
    there is the map literal. *)
Lemma offset_in_other_literal_falls_back_to_line_witness :
  let pkg := mkPackageInfo 1%nat [sampleFile; gridFile] in
  "grid.go" <> EmptyString /\
  sampleAbsPath "grid.go" = inr "grid.go" /\
  sampleLoad "grid.go" false = inr sampleProgram /\
  InitialPackages sampleProgram = pkg :: [] /\
  0 < 20 /\ 0 < 2 /\
  findPos (Files pkg) "grid.go" 20 = Done (gridFile, 220) /\
  gridPath gridFile 220 220 =
    [] ++ CompositeLitNode mapLit [] ::
      [OtherNode []; CompositeLitNode gridLit []; OtherNode []] /\
  Forall (fun n => isLit n = false) [] /\
  structLit sampleUniverse mapLit = false /\
  sampleMain "grid.go" 20 2 =
  exitOf (byLine sampleUniverse sampleTypeString headFormat 8 (Files pkg) "grid.go"
                 (Pkg pkg) 2).
Proof.
  intros pkg.
  assert (Hname : "grid.go" <> EmptyString) by discriminate.
  assert (Hoff : 0 < 20) by lia.
  assert (Hline : 0 < 2) by lia.
  assert (Hpre : Forall (fun n => isLit n = false) []) by constructor.
  split; [exact Hname|]. split; [reflexivity|]. split; [reflexivity|].
  split; [reflexivity|]. split; [exact Hoff|]. split; [exact Hline|].
  split; [reflexivity|]. split; [reflexivity|]. split; [exact Hpre|].
  split; [reflexivity|].
  exact (offset_in_other_literal_falls_back_to_line sampleUniverse sampleTypeString
           headFormat gridPath sampleAbsPath sampleLoad 8%nat "grid.go" false 20 2
           "grid.go" sampleProgram pkg [] gridFile 220 [] mapLit []
           [OtherNode []; CompositeLitNode gridLit []; OtherNode []]
           Hname eq_refl eq_refl eq_refl Hoff Hline eq_refl eq_refl Hpre eq_refl).
Defined.

(** The field [LatLng [2]float64] of [Address], at position 8. *)
Lemma array_of_plain_elements_witness :
  let info := mkLitInfo (Array (Basic Float64) 2) None false false in
  let f := mkFiller 1%nat 8 2 ∅ false in
  let ty := ArrayType 8 (BasicLit 0 ILLEGAL "2") (Ident 0 "float64") in
  typ info = Array (Basic Float64) 2 /\
  arrayTypeName sampleTypeString (pkg f) info (Basic Float64) 2 (pos f) = Some ty /\
  scalar sampleUniverse (Basic Float64) = true /\
  zero sampleUniverse sampleTypeString 2 info [] f =
  Done (CompositeLit ty 8 [BasicLit 9 ILLEGAL "0.0"; BasicLit 10 ILLEGAL "0.0"] 11,
        mkFiller 1%nat 11 6 ∅ false).
Proof.
  intros info f ty.
  split; [reflexivity|]. split; [reflexivity|]. split; [reflexivity|].
  exact (array_of_plain_elements sampleUniverse sampleTypeString 0%nat info
           (Basic Float64) 2%nat [] f ty eq_refl eq_refl eq_refl).
Defined.
